(** * Lifeline Mesh core: a shallow embedding of [crypto/core.js] and of the
    IndexedDB message store, with the properties of its specification.

    The JavaScript code receives its primitives by injection: the TweetNaCl
    object [nacl], the TweetNaCl-util object [naclUtil], and the host's
    [JSON].  They are modelled as a record of operations ([Prims]) and a
    record of the laws the code relies on ([PrimsLaws]); every theorem is
    stated for an arbitrary lawful instance.  Byte arrays ([Uint8Array]) are
    lists of [byte]; JS numbers used as integers (timestamps, lengths, JSON
    numbers) are [Z], and [u64beFromNumber] takes any finite number, as a
    rational [Q]; JSON values are the inductive [json]. *)

From Stdlib Require Import Init.Byte Strings.Byte ZArith Lia Ascii String List Sorted Permutation
  QArith_base Qround.
From stdpp Require Import base list gmap strings pretty sorting.

Import ListNotations.
Open Scope Z_scope.
(** stdpp makes [String.append] opaque to [simpl]; the proofs below compute
    with it. *)
Arguments String.append : simpl nomatch.

Definition bytes := list byte.

(* ------------------------------------------------------------------------- *)
(** ** JSON values and JS object operations *)

(** Scalars a JSON payload field can hold. *)
Inductive jscalar :=
| JNull
| JBool (b : bool)
| JNum (z : Z)
| JStr (s : string).

(** A JSON value: a flat object (list of fields, in property order) or a
    scalar. *)
Inductive json :=
| JObj (fields : list (string * jscalar))
| JVal (v : jscalar).

Definition jscalar_eq_dec (x y : jscalar) : {x = y} + {x <> y}.
Proof. decide equality; [apply bool_dec | apply Z.eq_dec | apply string_dec]. Defined.

(** [o[k] = v]: replace an existing property in place, or append it. *)
Fixpoint obj_set (fs : list (string * jscalar)) (k : string) (v : jscalar)
  : list (string * jscalar) :=
  match fs with
  | [] => [(k, v)]
  | (k', v') :: fs' =>
      if String.eqb k k' then (k, v) :: fs' else (k', v') :: obj_set fs' k v
  end.

(** The object spread [{ ...fs, ...extra }]. *)
Definition obj_spread (fs extra : list (string * jscalar)) : list (string * jscalar) :=
  fold_left (fun acc kv => obj_set acc (fst kv) (snd kv)) extra fs.

(** Property read [o.k]; [None] is [undefined]. *)
Fixpoint obj_get (fs : list (string * jscalar)) (k : string) : option jscalar :=
  match fs with
  | [] => None
  | (k', v) :: fs' => if String.eqb k k' then Some v else obj_get fs' k
  end.

Definition json_get (v : json) (k : string) : option jscalar :=
  match v with JObj fs => obj_get fs k | JVal _ => None end.

(** JS truthiness of a defined value. *)
Definition truthy (v : jscalar) : bool :=
  match v with
  | JNull => false
  | JBool b => b
  | JNum z => negb (Z.eqb z 0)
  | JStr s => negb (String.eqb s "")
  end.

(** [a || d] and [a ?? d] on a possibly undefined value. *)
Definition js_or (a : option jscalar) (d : jscalar) : jscalar :=
  match a with Some v => if truthy v then v else d | None => d end.
Definition js_nullish (a : option jscalar) (d : jscalar) : jscalar :=
  match a with Some JNull | None => d | Some v => v end.

(* ------------------------------------------------------------------------- *)
(** ** Injected primitives: [nacl], [naclUtil] and [JSON] *)

Record Prims := {
  hash : bytes -> bytes;                          (* nacl.hash (SHA-512) *)
  box_pk_of_sk : bytes -> bytes;                  (* public half of a box keypair *)
  box_before : bytes -> bytes -> bytes;           (* nacl.box.before(pk, sk) *)
  box_after : bytes -> bytes -> bytes -> bytes;   (* nacl.box.after(m, nonce, k) *)
  box_open_after : bytes -> bytes -> bytes -> option bytes; (* null on failure *)
  sign_pk_of_sk : bytes -> bytes;                 (* public half of a sign keypair *)
  sign_detached : bytes -> bytes -> bytes;        (* nacl.sign.detached(m, sk) *)
  sign_detached_verify : bytes -> bytes -> bytes -> bool; (* (m, sig, pk) *)
  encodeBase64 : bytes -> string;
  decodeBase64 : string -> option bytes;          (* None: throws *)
  decodeUTF8 : string -> bytes;                   (* string to UTF-8 bytes *)
  encodeUTF8 : bytes -> option string;            (* None: throws (URIError) *)
  json_stringify : json -> string;
  json_parse : string -> option json              (* None: SyntaxError *)
}.

(** What the code assumes of its primitives (TweetNaCl's documented
    behaviour, lengths from [nacl.sign.publicKeyLength] and the like). *)
Record PrimsLaws (p : Prims) : Prop := {
  base64_roundtrip : forall b, decodeBase64 p (encodeBase64 p b) = Some b;
  utf8_roundtrip : forall s, encodeUTF8 p (decodeUTF8 p s) = Some s;
  utf8_nonempty : forall s, s <> ""%string -> decodeUTF8 p s <> [];
  json_roundtrip : forall v, json_parse p (json_stringify p v) = Some v;
  json_nonempty : forall v, json_stringify p v <> ""%string;
  box_correct : forall m n skr ske,
    box_open_after p (box_after p m n (box_before p (box_pk_of_sk p skr) ske)) n
      (box_before p (box_pk_of_sk p ske) skr) = Some m;
  box_pk_len : forall sk, length (box_pk_of_sk p sk) = 32%nat;
  sign_pk_len : forall sk, length (sign_pk_of_sk p sk) = 32%nat;
  sign_len : forall m sk, length (sign_detached p m sk) = 64%nat;
  sign_correct : forall m sk,
    sign_detached_verify p m (sign_detached p m sk) (sign_pk_of_sk p sk) = true
}.

(* ------------------------------------------------------------------------- *)
(** ** Constants and byte utilities *)

Definition DOMAIN : string := "DMESH_MSG_V1".
Definition MAX_BYTES : Z := 150 * 1024.
Definition MAX_SKEW_MS : Z := 10 * 60 * 1000.
Definition DEFAULT_TTL_MS : Z := 7 * 24 * 60 * 60 * 1000.
Definition CHUNK_OVERHEAD : Z := 150.

Definition SIGN_PK_LEN : nat := 32.
Definition BOX_PK_LEN : nat := 32.
Definition NONCE_LEN : nat := 24.
Definition SIGNATURE_LEN : nat := 64.

(** A [Uint8Array] store of a number: the low 8 bits. *)
Definition byte_of_Z (z : Z) : byte :=
  match Byte.of_N (Z.to_N (z mod 256)) with Some b => b | None => x00 end.
Definition Z_of_byte (b : byte) : Z := Z.of_N (Byte.to_N b).

Definition concatU8 (arrs : list bytes) : bytes := List.concat arrs.

(** [u32be(n)]: [setUint32(0, n >>> 0, false)]. *)
Definition u32be (n : Z) : bytes :=
  let m := n mod 2 ^ 32 in
  [byte_of_Z (Z.shiftr m 24); byte_of_Z (Z.shiftr m 16);
   byte_of_Z (Z.shiftr m 8); byte_of_Z m].

(** [u64beFromNumber(ts)] for a finite number [ts], a rational: high word
    [Math.floor(ts / 2^32) >>> 0], low word [ts >>> 0].  [>>> 0] truncates
    toward zero, then reduces modulo [2^32] ([u32be] does the reduction);
    [ts / 2^32] is exact for a double, a division by a power of two. *)
Definition u64beFromNumber (ts : Q) : bytes :=
  u32be (Qfloor (ts / inject_Z (2 ^ 32))) ++ u32be (Z.quot (Qnum ts) (Zpos (Qden ts))).

Section WithPrims.
Context (p : Prims).

Definition fingerprintFromSignPK (signPK : bytes) : bytes := firstn 16 (hash p signPK).
Definition messageIdFromCiphertext (ct : bytes) : bytes := firstn 32 (hash p ct).

Definition buildSignBytes (senderSignPK senderBoxPK recipientBoxPK ephPK nonce : bytes)
    (ts : Z) (ciphertext : bytes) : bytes :=
  concatU8 [decodeUTF8 p DOMAIN; senderSignPK; senderBoxPK; recipientBoxPK; ephPK;
            nonce; u64beFromNumber (inject_Z ts); u32be (Z.of_nat (length ciphertext)); ciphertext].

End WithPrims.

(* ------------------------------------------------------------------------- *)
(** ** Message envelope ([dmesh-msg]) *)

(** The wire object.  [msgId] and [exp] are optional (v1.0 messages lack
    them); byte fields are base64 strings. *)
Record envelope := {
  env_v : Z;
  env_kind : string;
  env_msgId : option string;
  env_ts : Z;
  env_exp : option Z;
  env_senderSignPK : string;
  env_senderBoxPK : string;
  env_recipientBoxPK : string;
  env_ephPK : string;
  env_nonce : string;
  env_ciphertext : string;
  env_signature : string
}.

(** [isMessageValid(message, options)] at time [now]. *)
Definition isMessageValid (now : Z) (strictMode : bool) (m : envelope) : bool :=
  if strictMode then Z.abs (now - env_ts m) <=? MAX_SKEW_MS
  else match env_exp m with
       | Some e => now <=? e
       | None => now <=? env_ts m + DEFAULT_TTL_MS
       end.

(** [calculateExpiration(ts, ttlMs = DEFAULT_TTL_MS)]. *)
Definition calculateExpiration (ts : Z) (ttlMs : option Z) : Z :=
  ts + match ttlMs with Some t => t | None => DEFAULT_TTL_MS end.

Inductive encrypt_error := ContentTooLarge.

Section Encrypt.
Context (p : Prims).

(** [type || "text"] on the optional [type] parameter. *)
Definition payload_type_of (type : option string) : string :=
  match type with
  | Some t => if String.eqb t "" then "text"%string else t
  | None => "text"%string
  end.

(** The payload object [{ v: 1, ts, type: type || "text", content, ...payloadExtra }]. *)
Definition build_payload (timestamp : Z) (type : option string) (content : string)
    (payloadExtra : list (string * jscalar)) : json :=
  JObj (obj_spread [("v", JNum 1); ("ts", JNum timestamp);
                    ("type", JStr (payload_type_of type)); ("content", JStr content)]
                   payloadExtra)%string.

(** [encryptMessage].  The two random draws of the code, the ephemeral
    keypair [nacl.box.keyPair()] and [nacl.randomBytes(24)], are the inputs
    [eph_sk] and [nonce]; [now] is [Date.now()].  [nacl.box.after] always
    returns an array, so the [if (!ciphertext)] branch is dead and omitted. *)
Definition encryptMessage (now : Z) (content : string)
    (senderSignPK senderSignSK senderBoxPK recipientBoxPK : bytes)
    (ts ttlMs : option Z) (type : option string) (payloadExtra : list (string * jscalar))
    (eph_sk nonce : bytes) : encrypt_error + envelope :=
  let timestamp := match ts with Some t => t | None => now end in
  let expiration := calculateExpiration timestamp ttlMs in
  if MAX_BYTES <? Z.of_nat (length (decodeUTF8 p content)) then inl ContentTooLarge
  else
    let eph_pk := box_pk_of_sk p eph_sk in
    let payloadBytes :=
      decodeUTF8 p (json_stringify p (build_payload timestamp type content payloadExtra)) in
    let shared := box_before p recipientBoxPK eph_sk in
    let ciphertext := box_after p payloadBytes nonce shared in
    let msgId := messageIdFromCiphertext p ciphertext in
    let signBytes := buildSignBytes p senderSignPK senderBoxPK recipientBoxPK eph_pk nonce
                       timestamp ciphertext in
    let signature := sign_detached p signBytes senderSignSK in
    inr {| env_v := 1; env_kind := "dmesh-msg";
           env_msgId := Some (encodeBase64 p msgId);
           env_ts := timestamp; env_exp := Some expiration;
           env_senderSignPK := encodeBase64 p senderSignPK;
           env_senderBoxPK := encodeBase64 p senderBoxPK;
           env_recipientBoxPK := encodeBase64 p recipientBoxPK;
           env_ephPK := encodeBase64 p eph_pk;
           env_nonce := encodeBase64 p nonce;
           env_ciphertext := encodeBase64 p ciphertext;
           env_signature := encodeBase64 p signature |}.

End Encrypt.

(* ------------------------------------------------------------------------- *)
(** ** [decryptMessage] *)

(** The errors [decryptMessage] throws, by the message of the [Error]. *)
Inductive decrypt_error :=
| InvalidMessageFormat      (* "Invalid message format" *)
| Base64DecodeFailed        (* "Base64 decode failed" *)
| InvalidKeyLength (field : string) (* "<field> length invalid" *)
| TimestampSkew             (* "Timestamp skew too large" *)
| MessageExpired            (* "Message expired" *)
| MessageIdMismatch         (* "Message ID mismatch" *)
| RecipientMismatch         (* "Not intended for this recipient" *)
| SenderSignKeyMismatch     (* "Sender signing key mismatch" *)
| SenderBoxKeyMismatch      (* "Sender box key mismatch" *)
| SignatureInvalid          (* "Invalid signature" *)
| ReplayDetected            (* "Replay detected" *)
| DecryptionFailed          (* "Decryption failed" *)
| Utf8DecodeFailed          (* URIError from naclUtil.encodeUTF8 *)
| JsonParseFailed           (* "Payload JSON parse failed" *)
| PayloadIsNull.            (* TypeError: reading [content] of a [null] payload *)

(** Cryptographic operations a run performs, in order. *)
Inductive crypto_op := OpVerify | OpBoxOpen.

(** The object [decryptMessage] returns. *)
Record decrypted := {
  dec_content : jscalar;
  dec_senderSignPK : bytes;
  dec_senderBoxPK : bytes;
  dec_senderFp : bytes;
  dec_ts : Z;
  dec_msgId : string;
  dec_type : jscalar;
  dec_payload : json
}.

Section DecryptMonad.
Context {S : Type}.

(** Runs thread the caller's state [S] (touched only by the [replayCheck]
    callback), may throw, and log the cryptographic operations performed. *)
Definition M (A : Type) : Type :=
  S -> list crypto_op -> (decrypt_error + A) * S * list crypto_op.

Definition ret {A} (a : A) : M A := fun s tr => (inr a, s, tr).
Definition throw {A} (e : decrypt_error) : M A := fun s tr => (inl e, s, tr).
Definition bind {A B} (m : M A) (k : A -> M B) : M B :=
  fun s tr => match m s tr with
              | (inr a, s', tr') => k a s' tr'
              | (inl e, s', tr') => (inl e, s', tr')
              end.
Definition emit (op : crypto_op) : M unit := fun s tr => (inr tt, s, tr ++ [op]).
(** [if (!cond) throw new Error(...)]. *)
Definition check (cond : bool) (e : decrypt_error) : M unit :=
  if cond then ret tt else throw e.
Definition of_option {A} (e : decrypt_error) (o : option A) : M A :=
  match o with Some a => ret a | None => throw e end.
(** Call of a stateful callback. *)
Definition call {A} (f : S -> A * S) : M A :=
  fun s tr => let '(a, s') := f s in (inr a, s', tr).

End DecryptMonad.

Notation "'let!' x ':=' m 'in' k" := (bind m (fun x => k))
  (at level 200, x name, m at level 100, k at level 200).

(** The seven decoded byte fields. *)
Record raw_fields := {
  rf_senderSignPK : bytes;
  rf_senderBoxPK : bytes;
  rf_recipientBoxPK : bytes;
  rf_ephPK : bytes;
  rf_nonce : bytes;
  rf_ciphertext : bytes;
  rf_signature : bytes
}.

Section Decrypt.
Context (p : Prims) {S : Type}.

(** The [try { ... decodeBase64 ... } catch] block: any failure throws. *)
Definition decode_fields (m : envelope) : option raw_fields :=
  match decodeBase64 p (env_senderSignPK m), decodeBase64 p (env_senderBoxPK m),
        decodeBase64 p (env_recipientBoxPK m), decodeBase64 p (env_ephPK m),
        decodeBase64 p (env_nonce m), decodeBase64 p (env_ciphertext m),
        decodeBase64 p (env_signature m) with
  | Some a, Some b, Some c, Some d, Some e, Some f, Some g =>
      Some {| rf_senderSignPK := a; rf_senderBoxPK := b; rf_recipientBoxPK := c;
              rf_ephPK := d; rf_nonce := e; rf_ciphertext := f; rf_signature := g |}
  | _, _, _, _, _, _, _ => None
  end.

(** An optional expected key: [if (expected != null && base64(expected) !== field) throw]. *)
Definition check_expected (expected : option bytes) (field : string) (e : decrypt_error)
  : M (S := S) unit :=
  match expected with
  | Some k => check (String.eqb (encodeBase64 p k) field) e
  | None => ret tt
  end.

(** [decryptMessage] at time [now].  [replayCheck] is the optional callback
    [(msgIdB64, senderFpB64) => boolean]; it may update the caller's state.
    [Number(message.ts)] is always finite here ([ts] is a [Z]), so the
    ["ts invalid"] branch is dead and omitted. *)
Definition decryptMessage (now : Z) (message : envelope)
    (recipientBoxPK recipientBoxSK : bytes)
    (expectedSenderSignPK expectedSenderBoxPK : option bytes)
    (replayCheck : option (string -> string -> S -> bool * S))
    (strictMode : bool) : M decrypted :=
  let! _ := check ((env_v message =? 1) && String.eqb (env_kind message) "dmesh-msg")
                  InvalidMessageFormat in
  let! rf := of_option Base64DecodeFailed (decode_fields message) in
  let! _ := check (Nat.eqb (length (rf_senderSignPK rf)) SIGN_PK_LEN)
                  (InvalidKeyLength "senderSignPK") in
  let! _ := check (Nat.eqb (length (rf_senderBoxPK rf)) BOX_PK_LEN)
                  (InvalidKeyLength "senderBoxPK") in
  let! _ := check (Nat.eqb (length (rf_recipientBoxPK rf)) BOX_PK_LEN)
                  (InvalidKeyLength "recipientBoxPK") in
  let! _ := check (Nat.eqb (length (rf_ephPK rf)) BOX_PK_LEN) (InvalidKeyLength "ephPK") in
  let! _ := check (Nat.eqb (length (rf_nonce rf)) NONCE_LEN) (InvalidKeyLength "nonce") in
  let! _ := check (Nat.eqb (length (rf_signature rf)) SIGNATURE_LEN)
                  (InvalidKeyLength "signature") in
  let ts := env_ts message in
  let! _ := check (isMessageValid now strictMode message)
                  (if strictMode then TimestampSkew else MessageExpired) in
  let computedMsgId := messageIdFromCiphertext p (rf_ciphertext rf) in
  let msgIdB64 := encodeBase64 p computedMsgId in
  let! _ := match env_msgId message with
            | Some mid => check (String.eqb mid "" || String.eqb mid msgIdB64)
                                MessageIdMismatch
            | None => ret tt
            end in
  let! _ := check (String.eqb (encodeBase64 p recipientBoxPK) (env_recipientBoxPK message))
                  RecipientMismatch in
  let senderFp := fingerprintFromSignPK p (rf_senderSignPK rf) in
  let! _ := check_expected expectedSenderSignPK (env_senderSignPK message)
                           SenderSignKeyMismatch in
  let! _ := check_expected expectedSenderBoxPK (env_senderBoxPK message)
                           SenderBoxKeyMismatch in
  let signBytes := buildSignBytes p (rf_senderSignPK rf) (rf_senderBoxPK rf)
                     (rf_recipientBoxPK rf) (rf_ephPK rf) (rf_nonce rf) ts
                     (rf_ciphertext rf) in
  let! _ := emit OpVerify in
  let! _ := check (sign_detached_verify p signBytes (rf_signature rf) (rf_senderSignPK rf))
                  SignatureInvalid in
  let! _ := match replayCheck with
            | Some rc =>
                let! allowed := call (rc msgIdB64 (encodeBase64 p senderFp)) in
                check allowed ReplayDetected
            | None => ret tt
            end in
  let shared := box_before p (rf_ephPK rf) recipientBoxSK in
  let! _ := emit OpBoxOpen in
  let! plaintext := of_option DecryptionFailed
                      (box_open_after p (rf_ciphertext rf) (rf_nonce rf) shared) in
  let! text := of_option Utf8DecodeFailed (encodeUTF8 p plaintext) in
  let! payload := of_option JsonParseFailed (json_parse p text) in
  let! _ := check (match payload with JVal JNull => false | _ => true end) PayloadIsNull in
  ret {| dec_content := js_nullish (json_get payload "content") (JStr text);
         dec_senderSignPK := rf_senderSignPK rf;
         dec_senderBoxPK := rf_senderBoxPK rf;
         dec_senderFp := senderFp;
         dec_ts := ts;
         dec_msgId := msgIdB64;
         dec_type := js_or (json_get payload "type") (JStr "text");
         dec_payload := payload |}.

End Decrypt.

(* ------------------------------------------------------------------------- *)
(** ** A concrete instance of the primitives

    A small lawful instance, used to run the embedded code on concrete
    inputs.  It is not a secure instantiation: the box is the identity
    behind a 16-byte zero tag, the signature a one-byte checksum; base64 and
    UTF-8 map one byte to one character; JSON uses a prefix code. *)

Module Toy.

Definition pad (n : nat) (b : bytes) : bytes := firstn n (b ++ repeat x00 n).

Definition checksum (m : bytes) : Z := fold_left (fun acc b => acc + Z_of_byte b) m 0.

Definition sign (m sk : bytes) : bytes := byte_of_Z (checksum m) :: repeat x00 63.

Definition bytes_eqb (a b : bytes) : bool :=
  if List.list_eq_dec byte_eq_dec a b then true else false.

Definition open (c n k : bytes) : option bytes :=
  if (length c <? 16)%nat then None else Some (skipn 16 c).

Definition enc_bytes (b : bytes) : string := string_of_list_ascii (map ascii_of_byte b).
Definition dec_bytes (s : string) : bytes := map byte_of_ascii (list_ascii_of_string s).

(** The prefix code: strings as [c]-prefixed characters ended by [e]. *)
Fixpoint enc_str (s : string) : string :=
  match s with
  | EmptyString => "e"
  | String c s' => String "c" (String c (enc_str s'))
  end.

Fixpoint dec_str (s : string) : option (string * string) :=
  match s with
  | String c s' =>
      if Ascii.eqb c "c" then
        match s' with
        | String c2 s'' =>
            match dec_str s'' with Some (x, r) => Some (String c2 x, r) | None => None end
        | EmptyString => None
        end
      else if Ascii.eqb c "e" then Some (EmptyString, s') else None
  | EmptyString => None
  end.

Fixpoint enc_pos (q : positive) : string :=
  match q with
  | xI q' => String "1" (enc_pos q')
  | xO q' => String "0" (enc_pos q')
  | xH => "h"
  end.

Fixpoint dec_pos (s : string) : option (positive * string) :=
  match s with
  | String c s' =>
      if Ascii.eqb c "1" then
        match dec_pos s' with Some (q, r) => Some (xI q, r) | None => None end
      else if Ascii.eqb c "0" then
        match dec_pos s' with Some (q, r) => Some (xO q, r) | None => None end
      else if Ascii.eqb c "h" then Some (xH, s') else None
  | EmptyString => None
  end.

Definition enc_Z (z : Z) : string :=
  match z with
  | Z0 => "z"
  | Zpos q => String "p" (enc_pos q)
  | Zneg q => String "n" (enc_pos q)
  end.

Definition dec_Z (s : string) : option (Z * string) :=
  match s with
  | String c s' =>
      if Ascii.eqb c "z" then Some (Z0, s')
      else if Ascii.eqb c "p" then
        match dec_pos s' with Some (q, r) => Some (Zpos q, r) | None => None end
      else if Ascii.eqb c "n" then
        match dec_pos s' with Some (q, r) => Some (Zneg q, r) | None => None end
      else None
  | EmptyString => None
  end.

Definition enc_scalar (v : jscalar) : string :=
  match v with
  | JNull => "N"
  | JBool true => "T"
  | JBool false => "F"
  | JNum z => String "#" (enc_Z z)
  | JStr s => String "S" (enc_str s)
  end.

Definition dec_scalar (s : string) : option (jscalar * string) :=
  match s with
  | String c s' =>
      if Ascii.eqb c "N" then Some (JNull, s')
      else if Ascii.eqb c "T" then Some (JBool true, s')
      else if Ascii.eqb c "F" then Some (JBool false, s')
      else if Ascii.eqb c "#" then
        match dec_Z s' with Some (z, r) => Some (JNum z, r) | None => None end
      else if Ascii.eqb c "S" then
        match dec_str s' with Some (x, r) => Some (JStr x, r) | None => None end
      else None
  | EmptyString => None
  end.

Fixpoint enc_fields (fs : list (string * jscalar)) : string :=
  match fs with
  | [] => "}"
  | (k, v) :: fs' => String "f" (enc_str k ++ enc_scalar v ++ enc_fields fs')
  end.

Fixpoint dec_fields (fuel : nat) (s : string) : option (list (string * jscalar) * string) :=
  match fuel with
  | O => None
  | S fuel' =>
      match s with
      | String c s' =>
          if Ascii.eqb c "}" then Some ([], s')
          else if Ascii.eqb c "f" then
            match dec_str s' with
            | Some (k, r1) =>
                match dec_scalar r1 with
                | Some (v, r2) =>
                    match dec_fields fuel' r2 with
                    | Some (fs, r3) => Some ((k, v) :: fs, r3)
                    | None => None
                    end
                | None => None
                end
            | None => None
            end
          else None
      | EmptyString => None
      end
  end.

Definition stringify (v : json) : string :=
  match v with
  | JObj fs => String "{" (enc_fields fs)
  | JVal x => String "v" (enc_scalar x)
  end.

Definition parse (s : string) : option json :=
  match s with
  | String c s' =>
      if Ascii.eqb c "{" then
        match dec_fields (String.length s') s' with
        | Some (fs, EmptyString) => Some (JObj fs)
        | _ => None
        end
      else if Ascii.eqb c "v" then
        match dec_scalar s' with
        | Some (x, EmptyString) => Some (JVal x)
        | _ => None
        end
      else None
  | EmptyString => None
  end.

Definition prims : Prims := {|
  hash := pad 64;
  box_pk_of_sk := pad 32;
  box_before := fun pk sk => [];
  box_after := fun m n k => repeat x00 16 ++ m;
  box_open_after := open;
  sign_pk_of_sk := pad 32;
  sign_detached := sign;
  sign_detached_verify := fun m s pk => bytes_eqb s (sign m []);
  encodeBase64 := enc_bytes;
  decodeBase64 := fun s => Some (dec_bytes s);
  decodeUTF8 := dec_bytes;
  encodeUTF8 := fun b => Some (enc_bytes b);
  json_stringify := stringify;
  json_parse := parse
|}.

End Toy.

(* ------------------------------------------------------------------------- *)
(** ** Predicates used in the statements *)

(** The optional [replayCheck] allows the pair ([E.msgId], [fp]) in state
    [st] (no callback allows everything). *)
Definition replay_allows {S : Type} (rc : option (string -> string -> S -> bool * S))
    (E : envelope) (fp : string) (st : S) : Prop :=
  match rc, env_msgId E with
  | Some f, Some mid => fst (f mid fp st) = true
  | Some _, None => False
  | None, _ => True
  end.

(** The checks of [decryptMessage], as booleans on the envelope and its
    decoded fields. *)

(** [message.v === 1 && message.kind === "dmesh-msg"]. *)
Definition format_ok (E : envelope) : bool :=
  (env_v E =? 1) && String.eqb (env_kind E) "dmesh-msg".

(** The six length checks. *)
Definition lengths_ok (rf : raw_fields) : bool :=
  Nat.eqb (length (rf_senderSignPK rf)) SIGN_PK_LEN &&
  Nat.eqb (length (rf_senderBoxPK rf)) BOX_PK_LEN &&
  Nat.eqb (length (rf_recipientBoxPK rf)) BOX_PK_LEN &&
  Nat.eqb (length (rf_ephPK rf)) BOX_PK_LEN &&
  Nat.eqb (length (rf_nonce rf)) NONCE_LEN &&
  Nat.eqb (length (rf_signature rf)) SIGNATURE_LEN.

(** [!(message.msgId && message.msgId !== msgIdB64)]. *)
Definition msgId_ok (p : Prims) (E : envelope) (rf : raw_fields) : bool :=
  match env_msgId E with
  | Some mid => String.eqb mid "" ||
                String.eqb mid (encodeBase64 p (messageIdFromCiphertext p (rf_ciphertext rf)))
  | None => true
  end.

(** [encodeBase64(recipientBoxPK) === message.recipientBoxPK]. *)
Definition recipient_ok (p : Prims) (E : envelope) (rpk : bytes) : bool :=
  String.eqb (encodeBase64 p rpk) (env_recipientBoxPK E).

(** The check of an optional expected sender key. *)
Definition expected_ok (p : Prims) (expected : option bytes) (field : string) : bool :=
  match expected with Some k => String.eqb (encodeBase64 p k) field | None => true end.

(** [nacl.sign.detached.verify(signBytes, signature, senderSignPK)]. *)
Definition signature_ok (p : Prims) (E : envelope) (rf : raw_fields) : bool :=
  sign_detached_verify p
    (buildSignBytes p (rf_senderSignPK rf) (rf_senderBoxPK rf) (rf_recipientBoxPK rf)
       (rf_ephPK rf) (rf_nonce rf) (env_ts E) (rf_ciphertext rf))
    (rf_signature rf) (rf_senderSignPK rf).

(** The checks of [decryptMessage] before the signature all pass, with
    [rf] the decoded fields. *)
Definition pre_ok (p : Prims) (now : Z) (E : envelope) (rpk : bytes)
    (expS expB : option bytes) (strict : bool) (rf : raw_fields) : Prop :=
  format_ok E = true /\ decode_fields p E = Some rf /\ lengths_ok rf = true /\
  isMessageValid now strict E = true /\ msgId_ok p E rf = true /\
  recipient_ok p E rpk = true /\ expected_ok p expS (env_senderSignPK E) = true /\
  expected_ok p expB (env_senderBoxPK E) = true.

(** The error of the first check of [decryptMessage] that fails among those
    before the recipient binding, in the order of the code: format, base64
    decoding, the six lengths, the validity window, the [msgId]; [None] when
    they all pass. *)
Definition first_check_error (p : Prims) (now : Z) (E : envelope) (strict : bool)
  : option decrypt_error :=
  if negb (format_ok E) then Some InvalidMessageFormat else
  match decode_fields p E with
  | None => Some Base64DecodeFailed
  | Some rf =>
      if negb (Nat.eqb (length (rf_senderSignPK rf)) SIGN_PK_LEN)
      then Some (InvalidKeyLength "senderSignPK") else
      if negb (Nat.eqb (length (rf_senderBoxPK rf)) BOX_PK_LEN)
      then Some (InvalidKeyLength "senderBoxPK") else
      if negb (Nat.eqb (length (rf_recipientBoxPK rf)) BOX_PK_LEN)
      then Some (InvalidKeyLength "recipientBoxPK") else
      if negb (Nat.eqb (length (rf_ephPK rf)) BOX_PK_LEN)
      then Some (InvalidKeyLength "ephPK") else
      if negb (Nat.eqb (length (rf_nonce rf)) NONCE_LEN)
      then Some (InvalidKeyLength "nonce") else
      if negb (Nat.eqb (length (rf_signature rf)) SIGNATURE_LEN)
      then Some (InvalidKeyLength "signature") else
      if negb (isMessageValid now strict E)
      then Some (if strict then TimestampSkew else MessageExpired) else
      if negb (msgId_ok p E rf) then Some MessageIdMismatch else None
  end.

(** The envelope with its [exp] property replaced ([None]: absent). *)
Definition env_set_exp (E : envelope) (x : option Z) : envelope :=
  {| env_v := env_v E; env_kind := env_kind E; env_msgId := env_msgId E; env_ts := env_ts E;
     env_exp := x; env_senderSignPK := env_senderSignPK E;
     env_senderBoxPK := env_senderBoxPK E; env_recipientBoxPK := env_recipientBoxPK E;
     env_ephPK := env_ephPK E; env_nonce := env_nonce E; env_ciphertext := env_ciphertext E;
     env_signature := env_signature E |}.

(** [rejected ... e]: [e] is the error of the first check of [decryptMessage]
    that fails, the checks being taken in the order of the code, up to the
    signature. *)
Inductive rejected (p : Prims) (now : Z) (E : envelope) (rpk : bytes)
    (expS expB : option bytes) (strict : bool) : decrypt_error -> Prop :=
| rej_format :
    format_ok E = false -> rejected p now E rpk expS expB strict InvalidMessageFormat
| rej_base64 :
    format_ok E = true -> decode_fields p E = None ->
    rejected p now E rpk expS expB strict Base64DecodeFailed
| rej_length rf field :
    format_ok E = true -> decode_fields p E = Some rf -> lengths_ok rf = false ->
    rejected p now E rpk expS expB strict (InvalidKeyLength field)
| rej_window rf :
    format_ok E = true -> decode_fields p E = Some rf -> lengths_ok rf = true ->
    isMessageValid now strict E = false ->
    rejected p now E rpk expS expB strict (if strict then TimestampSkew else MessageExpired)
| rej_msgId rf :
    format_ok E = true -> decode_fields p E = Some rf -> lengths_ok rf = true ->
    isMessageValid now strict E = true -> msgId_ok p E rf = false ->
    rejected p now E rpk expS expB strict MessageIdMismatch
| rej_recipient rf :
    format_ok E = true -> decode_fields p E = Some rf -> lengths_ok rf = true ->
    isMessageValid now strict E = true -> msgId_ok p E rf = true ->
    recipient_ok p E rpk = false ->
    rejected p now E rpk expS expB strict RecipientMismatch
| rej_sign_key rf :
    format_ok E = true -> decode_fields p E = Some rf -> lengths_ok rf = true ->
    isMessageValid now strict E = true -> msgId_ok p E rf = true ->
    recipient_ok p E rpk = true -> expected_ok p expS (env_senderSignPK E) = false ->
    rejected p now E rpk expS expB strict SenderSignKeyMismatch
| rej_box_key rf :
    format_ok E = true -> decode_fields p E = Some rf -> lengths_ok rf = true ->
    isMessageValid now strict E = true -> msgId_ok p E rf = true ->
    recipient_ok p E rpk = true -> expected_ok p expS (env_senderSignPK E) = true ->
    expected_ok p expB (env_senderBoxPK E) = false ->
    rejected p now E rpk expS expB strict SenderBoxKeyMismatch
| rej_signature rf :
    pre_ok p now E rpk expS expB strict rf -> signature_ok p E rf = false ->
    rejected p now E rpk expS expB strict SignatureInvalid.


(** Bit [k] of a byte flipped. *)
Definition flip_byte (x : byte) (k : nat) : byte :=
  byte_of_Z (Z.lxor (Z_of_byte x) (Z.shiftl 1 (Z.of_nat k))).


(** Bit [k] of byte [i] of a byte array flipped (nothing out of range). *)
Fixpoint flip_bit (b : bytes) (i k : nat) : bytes :=
  match b, i with
  | [], _ => []
  | x :: b', O => flip_byte x k :: b'
  | x :: b', S i' => x :: flip_bit b' i' k
  end.

(** The fields [SignBytes] covers. *)
Inductive signed_field :=
| FSenderSignPK | FSenderBoxPK | FRecipientBoxPK | FEphPK | FNonce | FTs | FCiphertext.

(** An envelope with its signed fields replaced. *)
Definition env_with (E : envelope) (ts : Z)
    (senderSignPK senderBoxPK recipientBoxPK ephPK nonce ciphertext : string) : envelope :=
  {| env_v := env_v E; env_kind := env_kind E; env_msgId := env_msgId E; env_ts := ts;
     env_exp := env_exp E; env_senderSignPK := senderSignPK;
     env_senderBoxPK := senderBoxPK; env_recipientBoxPK := recipientBoxPK;
     env_ephPK := ephPK; env_nonce := nonce; env_ciphertext := ciphertext;
     env_signature := env_signature E |}.

Definition signed_field_eqb (f g : signed_field) : bool :=
  match f, g with
  | FSenderSignPK, FSenderSignPK | FSenderBoxPK, FSenderBoxPK
  | FRecipientBoxPK, FRecipientBoxPK | FEphPK, FEphPK | FNonce, FNonce | FTs, FTs
  | FCiphertext, FCiphertext => true
  | _, _ => false
  end.

(** The decoded fields with bit [k] of byte [i] of field [f] flipped. *)
Definition rf_flip (rf : raw_fields) (f : signed_field) (i k : nat) : raw_fields :=
  let fl g b := if signed_field_eqb f g then flip_bit b i k else b in
  {| rf_senderSignPK := fl FSenderSignPK (rf_senderSignPK rf);
     rf_senderBoxPK := fl FSenderBoxPK (rf_senderBoxPK rf);
     rf_recipientBoxPK := fl FRecipientBoxPK (rf_recipientBoxPK rf);
     rf_ephPK := fl FEphPK (rf_ephPK rf);
     rf_nonce := fl FNonce (rf_nonce rf);
     rf_ciphertext := fl FCiphertext (rf_ciphertext rf);
     rf_signature := rf_signature rf |}.

(** The envelope with bit [k] of byte [i] of the signed field [f] flipped:
    for a byte field, in its decoded bytes, re-encoded in base64 (the other
    fields keep their exact strings); for [ts], bit [8 * i + k] of the
    integer. *)
Definition tamper (p : Prims) (E : envelope) (f : signed_field) (i k : nat) : envelope :=
  match decode_fields p E with
  | None => E
  | Some rf =>
      let fl g s b := if signed_field_eqb f g then encodeBase64 p (flip_bit b i k) else s in
      env_with E
        (if signed_field_eqb f FTs then Z.lxor (env_ts E) (Z.shiftl 1 (Z.of_nat (8 * i + k)))
         else env_ts E)
        (fl FSenderSignPK (env_senderSignPK E) (rf_senderSignPK rf))
        (fl FSenderBoxPK (env_senderBoxPK E) (rf_senderBoxPK rf))
        (fl FRecipientBoxPK (env_recipientBoxPK E) (rf_recipientBoxPK rf))
        (fl FEphPK (env_ephPK E) (rf_ephPK rf))
        (fl FNonce (env_nonce E) (rf_nonce rf))
        (fl FCiphertext (env_ciphertext E) (rf_ciphertext rf))
  end.

(** The byte length of a signed field ([ts] is signed as 8 bytes). *)
Definition field_length (rf : raw_fields) (f : signed_field) : nat :=
  match f with
  | FSenderSignPK => length (rf_senderSignPK rf)
  | FSenderBoxPK => length (rf_senderBoxPK rf)
  | FRecipientBoxPK => length (rf_recipientBoxPK rf)
  | FEphPK => length (rf_ephPK rf)
  | FNonce => length (rf_nonce rf)
  | FTs => 8
  | FCiphertext => length (rf_ciphertext rf)
  end.

(** The errors a one-bit tamper of field [f] of an accepted envelope can
    produce. *)
Definition tamper_errors (E : envelope) (f : signed_field) (expS expB : option bytes)
    (strict : bool) : list decrypt_error :=
  match f with
  | FSenderSignPK =>
      match expS with Some _ => [SenderSignKeyMismatch] | None => [SignatureInvalid] end
  | FSenderBoxPK =>
      match expB with Some _ => [SenderBoxKeyMismatch] | None => [SignatureInvalid] end
  | FRecipientBoxPK => [RecipientMismatch]
  | FEphPK | FNonce => [SignatureInvalid]
  | FTs => [if strict then TimestampSkew else MessageExpired; SignatureInvalid]
  | FCiphertext =>
      match env_msgId E with
      | Some mid => if String.eqb mid "" then [SignatureInvalid]
                    else [MessageIdMismatch; SignatureInvalid]
      | None => [SignatureInvalid]
      end
  end.

(** The envelope passes the checks [decryptMessage] makes before the
    validity window: format, base64 decoding and the six lengths. *)
Definition well_formed (p : Prims) (E : envelope) : bool :=
  format_ok E && match decode_fields p E with Some rf => lengths_ok rf | None => false end.

(** Concrete data for the instances of the theorems. *)
Module Examples.

(** An envelope produced by [encryptMessage] on the concrete primitives:
    content "Hi", timestamp 1000, default TTL, for the recipient box key
    derived from [[x03]]. *)
Definition toy_encrypt : encrypt_error + envelope :=
  encryptMessage Toy.prims 0 "Hi" (sign_pk_of_sk Toy.prims [x01]) [x01]
    (box_pk_of_sk Toy.prims [x02]) (box_pk_of_sk Toy.prims [x03])
    (Some 1000) None None [] [x04] (repeat x00 24).

Definition toy_env : envelope :=
  match toy_encrypt with
  | inr E => E
  | inl _ => {| env_v := 0; env_kind := ""; env_msgId := None; env_ts := 0;
                env_exp := None; env_senderSignPK := ""; env_senderBoxPK := "";
                env_recipientBoxPK := ""; env_ephPK := ""; env_nonce := "";
                env_ciphertext := ""; env_signature := "" |}
  end.

(** The same envelope without [exp], as a v1.0 sender writes it. *)
Definition toy_env_v10 : envelope :=
  {| env_v := env_v toy_env; env_kind := env_kind toy_env;
     env_msgId := env_msgId toy_env; env_ts := env_ts toy_env; env_exp := None;
     env_senderSignPK := env_senderSignPK toy_env;
     env_senderBoxPK := env_senderBoxPK toy_env;
     env_recipientBoxPK := env_recipientBoxPK toy_env;
     env_ephPK := env_ephPK toy_env; env_nonce := env_nonce toy_env;
     env_ciphertext := env_ciphertext toy_env; env_signature := env_signature toy_env |}.

End Examples.

(* ------------------------------------------------------------------------- *)
(** ** The IndexedDB store: [seen] and [inbox] *)

(** An entry of the [seen] object store (key path [seenKey]). *)
Record seen_entry := {
  se_seenKey : string;
  se_msgId : string;
  se_senderFp : string;
  se_seenAt : Z
}.

(** The object stores [seen] (keyed by [seenKey]) and [inbox] (keyed by
    [msgId], its entries as JSON objects). *)
Record db := {
  db_seen : gmap string seen_entry;
  db_inbox : gmap string json
}.

Definition empty_db : db := {| db_seen := ∅; db_inbox := ∅ |}.

(** [idbGet(STORE_SEEN, key)]: one readonly transaction. *)
Definition idbGet_seen (key : string) (d : db) : option seen_entry := db_seen d !! key.

(** [idbPut(STORE_SEEN, value)]: one readwrite transaction, keyed by the
    value's [seenKey]. *)
Definition idbPut_seen (v : seen_entry) (d : db) : db :=
  {| db_seen := <[se_seenKey v := v]> (db_seen d); db_inbox := db_inbox d |}.

(** [makeSeenKey(msgId, senderFp)]: [`${msgId}:${senderFp}`]. *)
Definition makeSeenKey (msgId senderFp : string) : string :=
  (msgId ++ ":" ++ senderFp)%string.

(** [checkAndMarkSeen(msgId, senderFp)] with [Date.now() = now], its two
    transactions run back to back: the value its Promise resolves to
    ([true] when the pair was not seen, and it is now marked; [false] when
    it was) and the store once it has completed. *)
Definition checkAndMarkSeen (now : Z) (msgId senderFp : string) (d : db) : bool * db :=
  let seenKey := makeSeenKey msgId senderFp in
  match idbGet_seen seenKey d with
  | Some _ => (false, d)
  | None =>
      (true, idbPut_seen {| se_seenKey := seenKey; se_msgId := msgId;
                            se_senderFp := senderFp; se_seenAt := now |} d)
  end.

(** The errors [decryptMessage] throws after its replay check. *)
Definition post_replay_errors : list decrypt_error :=
  [DecryptionFailed; Utf8DecodeFailed; JsonParseFailed; PayloadIsNull].

(** The application state while the synchronous [decryptMessage] runs: the
    store, and the [checkAndMarkSeen(msgId, senderFp)] calls started so far,
    as their [(msgId, senderFp)].  An [async] function runs synchronously
    only up to its first [await] (here [await openDB()] inside [idbGet]), so
    the transactions of a started call run in later jobs of the event loop,
    after [decryptMessage] has returned or thrown. *)
Record app_state := {
  as_db : db;
  as_pending : list (string * string)
}.

(** The replay callback of the API documentation,
    [(msgId, senderFp) => store.checkAndMarkSeen(msgId, senderFp)]: it
    returns the Promise of the [async] call at once, and [decryptMessage]
    tests it with [if (!allowed)] without [await]; a Promise is an object,
    hence truthy.  The call is left pending. *)
Definition replayCheck_checkAndMarkSeen (msgId senderFp : string) (s : app_state)
  : bool * app_state :=
  (true, {| as_db := as_db s; as_pending := as_pending s ++ [(msgId, senderFp)] |}).

Module StoreExamples.

(** A correctly signed envelope for the recipient key derived from [[x03]]
    whose ciphertext, one byte long, cannot be opened; its [msgId] is the
    one computed from the ciphertext. *)
Definition bad_ct : bytes := [x07].

Definition toy_bad_env : envelope :=
  let sspk := sign_pk_of_sk Toy.prims [x01] in
  let sbpk := box_pk_of_sk Toy.prims [x02] in
  let rbpk := box_pk_of_sk Toy.prims [x03] in
  let eph := box_pk_of_sk Toy.prims [x04] in
  let nonce := repeat x00 24 in
  {| env_v := 1; env_kind := "dmesh-msg";
     env_msgId := Some (encodeBase64 Toy.prims (messageIdFromCiphertext Toy.prims bad_ct));
     env_ts := 1000; env_exp := Some (1000 + DEFAULT_TTL_MS);
     env_senderSignPK := encodeBase64 Toy.prims sspk;
     env_senderBoxPK := encodeBase64 Toy.prims sbpk;
     env_recipientBoxPK := encodeBase64 Toy.prims rbpk;
     env_ephPK := encodeBase64 Toy.prims eph;
     env_nonce := encodeBase64 Toy.prims nonce;
     env_ciphertext := encodeBase64 Toy.prims bad_ct;
     env_signature := encodeBase64 Toy.prims
       (sign_detached Toy.prims (buildSignBytes Toy.prims sspk sbpk rbpk eph nonce 1000 bad_ct)
          [x01]) |}.

End StoreExamples.

(* ------------------------------------------------------------------------- *)
(** ** Two concurrent [checkAndMarkSeen] calls

    [checkAndMarkSeen] awaits two separate transactions: the readonly
    [idbGet] and, if nothing was found, the readwrite [idbPut].  Another
    call may run between them.  A call is a small state machine; a schedule
    says which of two calls takes the next step. *)

Inductive cms_state :=
| CStart                    (* before [await idbGet(STORE_SEEN, seenKey)] *)
| CGot (found : bool)       (* after it: whether [existing] is truthy *)
| CDone (allowed : bool).   (* returned *)

(** One step of [checkAndMarkSeen(msgId, senderFp)] with [Date.now() = now]. *)
Definition cms_step (now : Z) (msgId senderFp : string) (t : cms_state) (d : db)
  : cms_state * db :=
  let seenKey := makeSeenKey msgId senderFp in
  match t with
  | CStart =>
      (CGot (match idbGet_seen seenKey d with Some _ => true | None => false end), d)
  | CGot true => (CDone false, d)
  | CGot false =>
      (CDone true, idbPut_seen {| se_seenKey := seenKey; se_msgId := msgId;
                                  se_senderFp := senderFp; se_seenAt := now |} d)
  | CDone b => (CDone b, d)
  end.

(** Two calls A and B on the same pair, run along a schedule: [true] steps
    A, [false] steps B. *)
Fixpoint run_sched (nowA nowB : Z) (msgId senderFp : string) (sched : list bool)
    (tA tB : cms_state) (d : db) : cms_state * cms_state * db :=
  match sched with
  | [] => (tA, tB, d)
  | true :: sched' =>
      let '(tA', d') := cms_step nowA msgId senderFp tA d in
      run_sched nowA nowB msgId senderFp sched' tA' tB d'
  | false :: sched' =>
      let '(tB', d') := cms_step nowB msgId senderFp tB d in
      run_sched nowA nowB msgId senderFp sched' tA tB' d'
  end.

(** Invariants of two calls [t], [o] on the pair stored at key [k]. *)

(** While the pair is absent, a call has not yet written. *)
Definition absent_ok (t : cms_state) : Prop := t = CStart \/ t = CGot false.
(** While the pair is present from the start, a call never writes. *)
Definition present_ok (t : cms_state) : Prop :=
  t = CStart \/ t = CGot true \/ t = CDone false.

(** Pair absent: neither call has written; present: one of them returned
    [true]. *)
Definition fresh_inv (k : string) (t o : cms_state) (d : db) : Prop :=
  (db_seen d !! k = None -> absent_ok t /\ absent_ok o) /\
  (is_Some (db_seen d !! k) -> t = CDone true \/ o = CDone true).

(** Pair present from the start: it stays, and no call writes. *)
Definition seen_inv (k : string) (t o : cms_state) (d : db) : Prop :=
  is_Some (db_seen d !! k) /\ present_ok t /\ present_ok o.

(* ------------------------------------------------------------------------- *)
(** ** Chunking ([chunkMessage], [reassembleChunks]) *)

(** The envelope as the JS object [encryptMessage] returns, in its property
    order; an absent [msgId] or [exp] (v1.0) is no property. *)
Definition envelope_json (E : envelope) : json :=
  JObj ([("v", JNum (env_v E)); ("kind", JStr (env_kind E))] ++
        match env_msgId E with Some m => [("msgId", JStr m)] | None => [] end ++
        [("ts", JNum (env_ts E))] ++
        match env_exp E with Some x => [("exp", JNum x)] | None => [] end ++
        [("senderSignPK", JStr (env_senderSignPK E));
         ("senderBoxPK", JStr (env_senderBoxPK E));
         ("recipientBoxPK", JStr (env_recipientBoxPK E));
         ("ephPK", JStr (env_ephPK E));
         ("nonce", JStr (env_nonce E));
         ("ciphertext", JStr (env_ciphertext E));
         ("signature", JStr (env_signature E))]).

(** A [dmesh-chunk] object. *)
Record chunk := {
  ch_v : Z;
  ch_kind : string;
  ch_msgId : string;
  ch_seq : Z;
  ch_total : Z;
  ch_data : string
}.

(** [Math.ceil(a / b)] for integers [a >= 0], [b > 0] (the quotient of two
    integers below [2^53] is rounded to an integer only if it is one). *)
Definition Math_ceil_div (a b : Z) : Z := - ((- a) / b).

(** [bytes.slice(start, end)] for [0 <= start]. *)
Definition js_slice (b : bytes) (start end_ : Z) : bytes :=
  firstn (Z.to_nat (end_ - start)) (skipn (Z.to_nat start) b).

(** [msgJson.ciphertext] as [naclUtil.decodeBase64] accepts it: a string
    (anything else is taken as failing to decode). *)
Definition json_ciphertext (msgJson : json) : option string :=
  match json_get msgJson "ciphertext" with Some (JStr s) => Some s | _ => None end.

(** [chunkMessage(msgJson, maxChunkSize)]; [None] when it throws. *)
Definition chunkMessage (p : Prims) (msgJson : json) (maxChunkSize : Z)
  : option (list chunk) :=
  let msgBytes := decodeUTF8 p (json_stringify p msgJson) in
  match match json_ciphertext msgJson with Some s => decodeBase64 p s | None => None end with
  | None => None
  | Some ciphertext =>
      let msgId := messageIdFromCiphertext p ciphertext in
      let msgIdB64 := encodeBase64 p msgId in
      let dataSize := maxChunkSize - CHUNK_OVERHEAD in
      if dataSize <=? 0 then None else
      let len := Z.of_nat (length msgBytes) in
      let total := Math_ceil_div len dataSize in
      Some (map (fun n =>
                   let i := Z.of_nat n in
                   let start := i * dataSize in
                   let end_ := Z.min (start + dataSize) len in
                   {| ch_v := 1; ch_kind := "dmesh-chunk"; ch_msgId := msgIdB64;
                      ch_seq := i; ch_total := total;
                      ch_data := encodeBase64 p (js_slice msgBytes start end_) |})
                (seq 0 (Z.to_nat total)))
  end.

(** [Array.prototype.sort] with comparator [(a, b) => a.seq - b.seq]: a
    stable sort by [seq], written as an insertion sort that puts each chunk
    after the ones with the same or a smaller [seq]. *)
Fixpoint insert_by_seq (c : chunk) (l : list chunk) : list chunk :=
  match l with
  | [] => [c]
  | c' :: l' => if ch_seq c <? ch_seq c' then c :: l else c' :: insert_by_seq c l'
  end.

Definition sort_by_seq (l : list chunk) : list chunk :=
  fold_left (fun acc c => insert_by_seq c acc) l [].

(** [reassembleChunks(chunks)]; [None] when it throws. *)
Definition reassembleChunks (p : Prims) (chunks : list chunk) : option json :=
  match chunks with
  | [] => None
  | _ =>
      if negb (forallb (fun c => String.eqb (ch_kind c) "dmesh-chunk") chunks) then None else
      let sorted := sort_by_seq chunks in
      match sorted with
      | [] => None
      | c0 :: _ =>
          let expectedTotal := ch_total c0 in
          if negb (Z.of_nat (length sorted) =? expectedTotal) then None else
          if negb (forallb (fun ic => ch_seq (snd ic) =? Z.of_nat (fst ic))
                     (combine (seq 0 (length sorted)) sorted)) then None else
          let msgId := ch_msgId c0 in
          if negb (forallb (fun c => String.eqb (ch_msgId c) msgId) sorted) then None else
          match mapM (fun c => decodeBase64 p (ch_data c)) sorted with
          | None => None
          | Some dataArrays =>
              let msgBytes := concat dataArrays in
              match encodeUTF8 p msgBytes with
              | None => None
              | Some msgText => json_parse p msgText
              end
          end
      end
  end.

(** The chunk with its [total] replaced. *)
Definition with_total (c : chunk) (t : Z) : chunk :=
  {| ch_v := ch_v c; ch_kind := ch_kind c; ch_msgId := ch_msgId c; ch_seq := ch_seq c;
     ch_total := t; ch_data := ch_data c |}.

(** The order [sort_by_seq] sorts by. *)
Definition seq_le (a b : chunk) : Prop := ch_seq a <= ch_seq b.

(* ------------------------------------------------------------------------- *)
(** ** The IndexedDB store: [chunks] *)

(** An entry of the [chunks] object store (key path [chunkKey], index
    [msgId]). *)
Record chunk_entry := {
  ce_chunkKey : string;
  ce_msgId : string;
  ce_seq : Z;
  ce_total : Z;
  ce_data : string;
  ce_receivedAt : Z
}.

Abbreviation chunk_store := (gmap string chunk_entry).

(** Every entry is stored under its own [chunkKey]. *)
Definition chunk_store_wf (st : chunk_store) : Prop :=
  map_Forall (fun k e => ce_chunkKey e = k) st.

(** [idbGetByIndex(STORE_CHUNKS, "msgId", msgId)]: the entries whose
    [msgId] is [msgId].  IndexedDB returns the records of one index value
    in primary-key order; string keys compare by code units, as
    [String.leb] does on the ASCII keys used here. *)
Definition key_order (a b : string * chunk_entry) : Prop := String.leb (fst a) (fst b) = true.

#[export] Instance key_order_dec : RelDecision key_order :=
  fun a b => decide (String.leb (fst a) (fst b) = true).

Definition idbGetByIndex_chunks (msgId : string) (st : chunk_store) : list chunk_entry :=
  map snd (merge_sort key_order
             (map_to_list (filter (fun kv : string * chunk_entry => ce_msgId (snd kv) = msgId) st))).

(** The chunk object rebuilt from an entry, as [storeChunk] returns it. *)
Definition chunk_of_entry (e : chunk_entry) : chunk :=
  {| ch_v := 1; ch_kind := "dmesh-chunk"; ch_msgId := ce_msgId e; ch_seq := ce_seq e;
     ch_total := ce_total e; ch_data := ce_data e |}.

(** [`${chunk.msgId}:${chunk.seq}`]. *)
Definition chunkKey_of (c : chunk) : string := (ch_msgId c ++ ":" ++ pretty (ch_seq c))%string.

(** The entry [storeChunk] puts, with [Date.now() = now]. *)
Definition entry_of_chunk (now : Z) (c : chunk) : chunk_entry :=
  {| ce_chunkKey := chunkKey_of c; ce_msgId := ch_msgId c; ce_seq := ch_seq c;
     ce_total := ch_total c; ce_data := ch_data c; ce_receivedAt := now |}.

(** [storeChunk(chunk)] with [Date.now() = now]: the complete chunk list
    (or [None] for [null]) and the new store. *)
Definition storeChunk (now : Z) (c : chunk) (st : chunk_store)
  : option (list chunk) * chunk_store :=
  let chunkKey := chunkKey_of c in
  let st1 := <[chunkKey := entry_of_chunk now c]> st in
  let allChunks := idbGetByIndex_chunks (ch_msgId c) st1 in
  if Z.of_nat (length allChunks) =? ch_total c then
    let st2 := fold_left (fun s e => delete (ce_chunkKey e) s) allChunks st1 in
    (Some (map chunk_of_entry allChunks), st2)
  else (None, st1).

Module ChunkExamples.

Definition mk_chunk (i total : Z) : chunk :=
  {| ch_v := 1; ch_kind := "dmesh-chunk"; ch_msgId := "m"; ch_seq := i; ch_total := total;
     ch_data := "" |}.

(** The chunks stored one after the other; the result of the last call. *)
Fixpoint store_all (cs : list chunk) (st : chunk_store) : option (list chunk) * chunk_store :=
  match cs with
  | [] => (None, st)
  | [c] => storeChunk 0 c st
  | c :: cs' => store_all cs' (snd (storeChunk 0 c st))
  end.

(** The eleven chunks [0], ..., [10] of one message. *)
Definition eleven : list chunk := map (fun i => mk_chunk (Z.of_nat i) 11) (seq 0 11).

(** Chunk [0] of another message, ["x"]. *)
Definition other : chunk :=
  {| ch_v := 1; ch_kind := "dmesh-chunk"; ch_msgId := "x"; ch_seq := 0; ch_total := 2;
     ch_data := "" |}.

Definition st_other : chunk_store := <[chunkKey_of other := entry_of_chunk 0 other]> ∅.

(** The store holding [other] and chunks [0], ..., [9] of the eleven. *)
Definition st_ten : chunk_store := snd (store_all (firstn 10 eleven) st_other).

(** The store holding [other] and chunk [0] of a three-chunk message. *)
Definition st_one : chunk_store :=
  <[chunkKey_of (mk_chunk 0 3) := entry_of_chunk 0 (mk_chunk 0 3)]> st_other.

End ChunkExamples.

(* ------------------------------------------------------------------------- *)
(** ** Safety numbers ([generateSafetyNumber]) *)

(** [fp[i]] as a number, [undefined] (out of range) read as [0], as the
    bitwise operators do. *)
Definition byte_at (l : bytes) (i : nat) : Z :=
  match nth_error l i with Some x => Z_of_byte x | None => 0 end.

(** The comparator [(a, b) => { for (i < a.length) if (a[i] !== b[i])
    return a[i] - b[i]; return 0; }]; past the end of [b] the difference is
    [NaN], which [sort] takes as [0]. *)
Fixpoint fp_cmp (a b : bytes) : Z :=
  match a, b with
  | [], _ => 0
  | x :: a', y :: b' =>
      if Z_of_byte x =? Z_of_byte y then fp_cmp a' b' else Z_of_byte x - Z_of_byte y
  | _ :: _, [] => 0
  end.

(** [[fp1, fp2].sort(cmp)]: a stable sort of two elements swaps them
    exactly when [cmp(fp1, fp2) > 0]. *)
Definition sort2 (fp1 fp2 : bytes) : bytes * bytes :=
  if 0 <? fp_cmp fp1 fp2 then (fp2, fp1) else (fp1, fp2).

(** [new DataView(buf, off, 4).getUint32(0, false)]: big-endian. *)
Definition getUint32_be (l : bytes) : Z :=
  byte_at l 0 * 2 ^ 24 + byte_at l 1 * 2 ^ 16 + byte_at l 2 * 2 ^ 8 + byte_at l 3.

Definition digit_char (d : Z) : ascii := ascii_of_nat (48 + Z.to_nat d).

(** The decimal digits of a positive integer, most significant first
    ([fuel] bounds their number). *)
Fixpoint dec_digits (fuel : nat) (n : Z) : list ascii :=
  match fuel with
  | O => []
  | S f => if n =? 0 then [] else dec_digits f (n / 10) ++ [digit_char (n mod 10)]
  end.

(** [n.toString()] for an integer [0 <= n < 10^20]. *)
Definition js_number_toString (n : Z) : string :=
  if n =? 0 then "0" else string_of_list_ascii (dec_digits 20 n).

(** [s.padStart(n, c)] for a one-character filler [c]. *)
Definition padStart (s : string) (n : nat) (c : ascii) : string :=
  (string_of_list_ascii (repeat c (n - String.length s)) ++ s)%string.

(** [generateSafetyNumber(fp1, fp2)]. *)
Definition generateSafetyNumber (fp1 fp2 : bytes) : string :=
  let '(s0, s1) := sort2 fp1 fp2 in
  let combined := map (fun i => byte_of_Z (Z.lxor (byte_at s0 i) (byte_at s1 i))) (seq 0 16) in
  let num := getUint32_be combined mod 100000000 in
  let padded := padStart (js_number_toString num) 8 "0" in
  (substring 0 4 padded ++ "-" ++ substring 4 (String.length padded - 4) padded)%string.

(** The specification's safety number, written from its words: sort the
    fingerprints lexicographically, XOR them, read the first four bytes of
    the XOR as a big-endian uint32, take it modulo [100_000_000], and write
    the result as eight decimal digits [NNNN-NNNN]. *)
Fixpoint lex_leb (a b : bytes) : bool :=
  match a, b with
  | [], _ => true
  | _ :: _, [] => false
  | x :: a', y :: b' =>
      if Z_of_byte x <? Z_of_byte y then true
      else if Z_of_byte y <? Z_of_byte x then false
      else lex_leb a' b'
  end.

(** The [k] low decimal digits of [n], most significant first. *)
Fixpoint decimal_digits (k : nat) (n : Z) : list ascii :=
  match k with
  | O => []
  | S k' => decimal_digits k' (n / 10) ++ [digit_char (n mod 10)]
  end.

Definition safety_number_spec (a b : bytes) : string :=
  let '(lo, hi) := if lex_leb a b then (a, b) else (b, a) in
  let x := map (fun '(p, q) => Z.lxor (Z_of_byte p) (Z_of_byte q)) (combine lo hi) in
  let u := fold_left (fun acc v => acc * 256 + v) (firstn 4 x) 0 in
  let n := u mod 100000000 in
  let ds := decimal_digits 8 n in
  (string_of_list_ascii (firstn 4 ds) ++ "-" ++ string_of_list_ascii (skipn 4 ds))%string.

(* ------------------------------------------------------------------------- *)
(** ** Contacts ([saveContact]) *)

(** [VERIFICATION_STATUS.UNVERIFIED]. *)
Definition VERIFICATION_STATUS_UNVERIFIED : string := "unverified".
Definition VERIFICATION_STATUS_VERIFIED : string := "verified".

(** A contact object of the [contacts] store (key path [fp]); [None] is an
    absent property. *)
Record contact := {
  ct_fp : string;
  ct_name : option string;
  ct_signPK : option string;
  ct_boxPK : option string;
  ct_verified : option string;
  ct_addedAt : option Z;
  ct_updatedAt : option Z
}.

Abbreviation contact_store := (gmap string contact).

(** [{...existing, ...contact}] on one property: a property present in
    [contact] wins. *)
Definition spread {A} (new old : option A) : option A :=
  match new with Some v => Some v | None => old end.

(** [a || b] on a string property ([""] and [undefined] are falsy). *)
Definition js_or_string (a : option string) (b : string) : string :=
  match a with Some s => if String.eqb s "" then b else s | None => b end.

(** [a || b] on a number property ([0] and [undefined] are falsy). *)
Definition js_or_number (a : option Z) (b : Z) : Z :=
  match a with Some n => if n =? 0 then b else n | None => b end.

(** [saveContact(contact)], both reads of [Date.now()] returning [now]. *)
Definition saveContact (now : Z) (c : contact) (st : contact_store) : contact_store :=
  let existing := st !! ct_fp c in
  let ex {A} (f : contact -> option A) : option A :=
    match existing with Some e => f e | None => None end in
  let entry :=
    {| ct_fp := ct_fp c;
       ct_name := spread (ct_name c) (ex ct_name);
       ct_signPK := spread (ct_signPK c) (ex ct_signPK);
       ct_boxPK := spread (ct_boxPK c) (ex ct_boxPK);
       ct_verified := Some (js_or_string (ct_verified c)
                              (js_or_string (ex ct_verified) VERIFICATION_STATUS_UNVERIFIED));
       ct_addedAt := Some (js_or_number (ex ct_addedAt) now);
       ct_updatedAt := Some now |} in
  <[ct_fp c := entry]> st.

Module ContactExamples.

(** A verified contact with keys ["K1"] and ["B1"]. *)
Definition alice : contact :=
  {| ct_fp := "F"; ct_name := Some "alice"; ct_signPK := Some "K1"; ct_boxPK := Some "B1";
     ct_verified := Some VERIFICATION_STATUS_VERIFIED; ct_addedAt := Some 1;
     ct_updatedAt := Some 1 |}.

(** An update of the same fingerprint carrying another signing key. *)
Definition alice_new_key : contact :=
  {| ct_fp := "F"; ct_name := None; ct_signPK := Some "K2"; ct_boxPK := None;
     ct_verified := None; ct_addedAt := None; ct_updatedAt := None |}.

End ContactExamples.

(* ------------------------------------------------------------------------- *)
(** ** Public identities, [seen] and [chunks] maintenance *)

(** A byte array read back as a big-endian unsigned integer. *)
Definition be_to_Z (l : bytes) : Z := fold_left (fun acc b => acc * 256 + Z_of_byte b) l 0.

(** The object [createPublicIdentity] returns. *)
Record public_identity := {
  pi_v : Z;
  pi_kind : string;
  pi_name : option string;
  pi_fp : string;
  pi_signPK : string;
  pi_boxPK : string
}.

(** [createPublicIdentity({ name, signPK, boxPK })]. *)
Definition createPublicIdentity (p : Prims) (name : option string) (signPK boxPK : bytes)
  : public_identity :=
  let fp := fingerprintFromSignPK p signPK in
  {| pi_v := 1; pi_kind := "dmesh-id"; pi_name := name; pi_fp := encodeBase64 p fp;
     pi_signPK := encodeBase64 p signPK; pi_boxPK := encodeBase64 p boxPK |}.

(** Every entry of the [seen] store sits under its own [seenKey]. *)
Definition seen_wf (d : db) : Prop := map_Forall (fun k e => se_seenKey e = k) (db_seen d).

(** [hasSeen(msgId, senderFp)]: [Boolean(existing)]. *)
Definition hasSeen (msgId senderFp : string) (d : db) : bool :=
  match idbGet_seen (makeSeenKey msgId senderFp) d with Some _ => true | None => false end.

(** [idbDel(STORE_SEEN, key)]. *)
Definition idbDel_seen (key : string) (d : db) : db :=
  {| db_seen := delete key (db_seen d); db_inbox := db_inbox d |}.

Definition seen_key_order (a b : string * seen_entry) : Prop := String.leb (fst a) (fst b) = true.

#[export] Instance seen_key_order_dec : RelDecision seen_key_order :=
  fun a b => decide (String.leb (fst a) (fst b) = true).

(** [idbGetAll(STORE_SEEN)]: the entries in primary-key order. *)
Definition idbGetAll_seen (d : db) : list seen_entry :=
  map snd (merge_sort seen_key_order (map_to_list (db_seen d))).

Definition SEEN_RETENTION_MS : Z := 30 * 24 * 60 * 60 * 1000.

(** [cleanupSeen(maxAgeMs = SEEN_RETENTION_MS)] with [Date.now() = now]: the
    entries read by [idbGetAll] are visited in order, each old one deleted
    by its [seenKey]. *)
Definition cleanupSeen (now : Z) (maxAgeMs : option Z) (d : db) : db :=
  let cutoff := now - match maxAgeMs with Some m => m | None => SEEN_RETENTION_MS end in
  fold_left (fun d e => if se_seenAt e <? cutoff then idbDel_seen (se_seenKey e) d else d)
    (idbGetAll_seen d) d.

(** [idbGetAll(STORE_CHUNKS)]: the entries in primary-key order. *)
Definition idbGetAll_chunks (st : chunk_store) : list chunk_entry :=
  map snd (merge_sort key_order (map_to_list st)).

(** [cleanupOldChunks(maxAgeMs = 24 * 60 * 60 * 1000)] with [Date.now() = now]. *)
Definition cleanupOldChunks (now : Z) (maxAgeMs : option Z) (st : chunk_store) : chunk_store :=
  let cutoff := now - match maxAgeMs with Some m => m | None => 24 * 60 * 60 * 1000 end in
  fold_left (fun st e => if ce_receivedAt e <? cutoff then delete (ce_chunkKey e) st else st)
    (idbGetAll_chunks st) st.

(** [getPendingChunks(msgId)]. *)
Definition getPendingChunks (msgId : string) (st : chunk_store) : list chunk_entry :=
  idbGetByIndex_chunks msgId st.

(** A character is a decimal digit. *)
Definition is_digit (c : ascii) : bool :=
  (48 <=? nat_of_ascii c)%nat && (nat_of_ascii c <=? 57)%nat.

(** Concrete data for the further properties. *)
Module ExtraExamples.

(** A [seen] store holding one pair, seen at time 10. *)
Definition seen_e : seen_entry :=
  {| se_seenKey := "m:f"; se_msgId := "m"; se_senderFp := "f"; se_seenAt := 10 |}.

Definition seen_db : db := {| db_seen := <["m:f" := seen_e]> ∅; db_inbox := ∅ |}.

(** A chunk store holding chunk [0] of a two-chunk message, received at
    time 10. *)
Definition chunk_st : chunk_store :=
  <[chunkKey_of (ChunkExamples.mk_chunk 0 2) := entry_of_chunk 10 (ChunkExamples.mk_chunk 0 2)]> ∅.

(** The chunks of [Examples.toy_env] at a chunk size of 200 bytes. *)
Definition toy_chunks : list chunk :=
  match chunkMessage Toy.prims (envelope_json Examples.toy_env) 200 with
  | Some cs => cs
  | None => []
  end.

(** An envelope with [ts = 1000] and [exp = 1500]. *)
Definition short_env : envelope :=
  {| env_v := 1; env_kind := "dmesh-msg"; env_msgId := None; env_ts := 1000;
     env_exp := Some 1500; env_senderSignPK := ""; env_senderBoxPK := "";
     env_recipientBoxPK := ""; env_ephPK := ""; env_nonce := ""; env_ciphertext := "";
     env_signature := "" |}.

End ExtraExamples.

(* ========================================================================= *)
(** * Lemmas and theorems *)

(** ** The concrete instance is lawful *)

Lemma str_app_assoc (a b c : string) : ((a ++ b) ++ c)%string = (a ++ (b ++ c))%string.
Proof. induction a as [|x a IH]; simpl; congruence. Qed.

Lemma str_app_nil_r (a : string) : (a ++ "")%string = a.
Proof. induction a as [|x a IH]; simpl; congruence. Qed.

Module ToyLaws.
Import Toy.

Lemma dec_enc_bytes b : dec_bytes (enc_bytes b) = b.
Proof.
  unfold dec_bytes, enc_bytes. rewrite list_ascii_of_string_of_list_ascii, map_map.
  induction b as [|x b IH]; simpl; [reflexivity|]. now rewrite byte_of_ascii_of_byte, IH.
Qed.

Lemma enc_dec_bytes s : enc_bytes (dec_bytes s) = s.
Proof.
  unfold dec_bytes, enc_bytes. rewrite map_map.
  rewrite <- (string_of_list_ascii_of_string s) at 2. f_equal.
  induction (list_ascii_of_string s) as [|x l IH]; simpl; [reflexivity|].
  now rewrite ascii_of_byte_of_ascii, IH.
Qed.

Lemma dec_str_enc s r : dec_str (enc_str s ++ r) = Some (s, r).
Proof. induction s as [|c s IH]; simpl; [reflexivity|]. now rewrite IH. Qed.

Lemma dec_pos_enc q r : dec_pos (enc_pos q ++ r) = Some (q, r).
Proof. induction q as [q IH|q IH|]; simpl; try rewrite IH; reflexivity. Qed.

Lemma dec_Z_enc z r : dec_Z (enc_Z z ++ r) = Some (z, r).
Proof. destruct z; simpl; try rewrite dec_pos_enc; reflexivity. Qed.

Lemma dec_scalar_enc v r : dec_scalar (enc_scalar v ++ r) = Some (v, r).
Proof.
  destruct v as [|[]|z|s]; simpl; try reflexivity.
  - now rewrite dec_Z_enc.
  - now rewrite dec_str_enc.
Qed.

Lemma dec_fields_enc fs r n :
  (length fs < n)%nat -> dec_fields n (enc_fields fs ++ r) = Some (fs, r).
Proof.
  revert n. induction fs as [|[k v] fs IH]; intros [|n] Hn; simpl in *; try lia;
    [reflexivity|].
  rewrite !str_app_assoc, dec_str_enc, dec_scalar_enc, IH by lia. reflexivity.
Qed.

Lemma str_length_app (a b : string) :
  String.length (a ++ b) = (String.length a + String.length b)%nat.
Proof. induction a; simpl; auto. Qed.

Lemma enc_fields_length fs : (length fs < String.length (enc_fields fs))%nat.
Proof.
  induction fs as [|[k v] fs IH]; simpl; [lia|].
  rewrite !str_length_app. lia.
Qed.

Lemma parse_stringify v : parse (stringify v) = Some v.
Proof.
  destruct v as [fs|x]; simpl.
  - pose proof (dec_fields_enc fs "" _ (enc_fields_length fs)) as H.
    rewrite str_app_nil_r in H. now rewrite H.
  - pose proof (dec_scalar_enc x "") as H. rewrite str_app_nil_r in H. now rewrite H.
Qed.

Lemma pad_length n b : length (pad n b) = n.
Proof. unfold pad. rewrite length_firstn, length_app, repeat_length. lia. Qed.

Lemma prims_lawful : PrimsLaws prims.
Proof.
  split; simpl.
  - intros b. now rewrite dec_enc_bytes.
  - intros s. now rewrite enc_dec_bytes.
  - intros s Hs. unfold dec_bytes. destruct s; simpl; congruence.
  - apply parse_stringify.
  - intros [fs|x]; simpl; discriminate.
  - intros m n skr ske. reflexivity.
  - intros; apply pad_length.
  - intros; apply pad_length.
  - intros; reflexivity.
  - intros m sk. unfold bytes_eqb, sign. now destruct List.list_eq_dec.
Qed.

End ToyLaws.

(** ** Helper lemmas on JS objects *)

Lemma obj_get_set fs k k' v :
  obj_get (obj_set fs k' v) k = if String.eqb k k' then Some v else obj_get fs k.
Proof.
  induction fs as [|[k0 v0] fs IH]; simpl.
  - reflexivity.
  - destruct (String.eqb k' k0) eqn:E0; simpl.
    + apply String.eqb_eq in E0; subst k0. now destruct (String.eqb k k').
    + destruct (String.eqb k k0) eqn:E1.
      * apply String.eqb_eq in E1; subst k0.
        destruct (String.eqb k k') eqn:E2; [|reflexivity].
        apply String.eqb_eq in E2; subst. rewrite String.eqb_refl in E0. discriminate.
      * exact IH.
Qed.

Lemma obj_get_spread_other fs extra k :
  obj_get extra k = None -> obj_get (obj_spread fs extra) k = obj_get fs k.
Proof.
  unfold obj_spread. revert fs.
  induction extra as [|[k' v] extra IH]; intros fs Hk; simpl in *; [reflexivity|].
  destruct (String.eqb k k') eqn:E; [discriminate|].
  rewrite IH by exact Hk. simpl. now rewrite obj_get_set, E.
Qed.

Lemma payload_type_of_nonempty type : String.eqb (payload_type_of type) "" = false.
Proof.
  unfold payload_type_of.
  destruct type as [t|]; [|reflexivity].
  destruct (String.eqb t "") eqn:E; [reflexivity|]. exact E.
Qed.

Section RoundTrip.
Context (p : Prims) (HL : PrimsLaws p).

Lemma decrypt_encrypted {S : Type} (st : S) tr now0 now content ssk sbpk rsk ts ttl type
    extra eph_sk nonce E expS expB rc strict :
  encryptMessage p now0 content (sign_pk_of_sk p ssk) ssk sbpk (box_pk_of_sk p rsk)
    ts ttl type extra eph_sk nonce = inr E ->
  length sbpk = BOX_PK_LEN -> length nonce = NONCE_LEN ->
  isMessageValid now strict E = true ->
  (expS = None \/ expS = Some (sign_pk_of_sk p ssk)) ->
  (expB = None \/ expB = Some sbpk) ->
  replay_allows rc E (encodeBase64 p (fingerprintFromSignPK p (sign_pk_of_sk p ssk))) st ->
  let pl := build_payload (match ts with Some t => t | None => now0 end) type content extra in
  exists d st',
    decryptMessage p now E (box_pk_of_sk p rsk) rsk expS expB rc strict st tr
      = (inr d, st', tr ++ [OpVerify; OpBoxOpen]) /\
    dec_payload d = pl /\
    dec_content d = js_nullish (json_get pl "content") (JStr (json_stringify p pl)) /\
    dec_type d = js_or (json_get pl "type") (JStr "text") /\
    dec_ts d = (match ts with Some t => t | None => now0 end) /\
    dec_senderSignPK d = sign_pk_of_sk p ssk /\ dec_senderBoxPK d = sbpk.
Proof.
  intros Henc Hsb Hn Hvalid HexpS HexpB Hrep pl0.
  unfold encryptMessage in Henc.
  destruct (MAX_BYTES <? _) eqn:Hsize; [discriminate|].
  injection Henc as <-.
  set (tsv := match ts with Some t => t | None => now0 end) in *.
  set (pl := build_payload tsv type content extra) in *.
  set (ct := box_after p (decodeUTF8 p (json_stringify p pl)) nonce
               (box_before p (box_pk_of_sk p rsk) eph_sk)) in *.
  set (sb := buildSignBytes p (sign_pk_of_sk p ssk) sbpk (box_pk_of_sk p rsk)
               (box_pk_of_sk p eph_sk) nonce tsv ct) in *.
  unfold decryptMessage, decode_fields, check_expected.
  cbn -[isMessageValid buildSignBytes messageIdFromCiphertext fingerprintFromSignPK].
  rewrite !(base64_roundtrip _ HL).
  cbn -[isMessageValid buildSignBytes messageIdFromCiphertext fingerprintFromSignPK].
  rewrite (sign_pk_len _ HL), (box_pk_len _ HL), Hsb, Hn, (sign_len _ HL).
  cbn -[isMessageValid buildSignBytes messageIdFromCiphertext fingerprintFromSignPK].
  rewrite Hvalid, !(box_pk_len _ HL), !String.eqb_refl, orb_true_r.
  cbn -[isMessageValid buildSignBytes messageIdFromCiphertext fingerprintFromSignPK].
  fold sb. rewrite (sign_correct _ HL).
  destruct HexpS as [-> | ->], HexpB as [-> | ->];
    cbn -[isMessageValid buildSignBytes messageIdFromCiphertext fingerprintFromSignPK];
    rewrite ?String.eqb_refl;
    cbn -[isMessageValid buildSignBytes messageIdFromCiphertext fingerprintFromSignPK].
  all: destruct rc as [f|]; cbn in Hrep;
    [destruct (f _ _ st) as [b st'] eqn:Hf; cbn in Hrep; subst b|];
    cbv [bind call]; try rewrite Hf;
    unfold ct; rewrite (box_correct _ HL);
    cbn -[isMessageValid buildSignBytes messageIdFromCiphertext fingerprintFromSignPK];
    rewrite (utf8_roundtrip _ HL);
    cbn -[isMessageValid buildSignBytes messageIdFromCiphertext fingerprintFromSignPK];
    rewrite (json_roundtrip _ HL);
    cbn -[isMessageValid buildSignBytes messageIdFromCiphertext fingerprintFromSignPK].
  all: eexists _, _; split; [unfold ret; rewrite <- app_assoc; reflexivity|].
  all: repeat split.
Qed.

End RoundTrip.

Lemma decrypt_invalid (p : Prims) {S : Type} now E rpk rsk expS expB
    (rc : option (string -> string -> S -> bool * S)) strict st tr :
  well_formed p E = true -> isMessageValid now strict E = false ->
  decryptMessage p now E rpk rsk expS expB rc strict st tr
    = (inl (if strict then TimestampSkew else MessageExpired), st, tr).
Proof.
  unfold well_formed, format_ok, lengths_ok. intros Hwf Hv.
  destruct ((env_v E =? 1) && String.eqb (env_kind E) "dmesh-msg") eqn:Hf;
    [|discriminate].
  destruct (decode_fields p E) as [rf|] eqn:Hd; [|discriminate].
  cbn [andb] in Hwf. repeat rewrite andb_true_iff in Hwf.
  destruct Hwf as [[[[[H1 H2] H3] H4] H5] H6].
  unfold decryptMessage. cbv [bind check of_option ret throw].
  rewrite Hf, Hd, H1, H2, H3, H4, H5, H6, Hv. reflexivity.
Qed.

Lemma decrypt_outcome (p : Prims) {S : Type} now E rpk rsk expS expB
    (rc : option (string -> string -> S -> bool * S)) strict st tr r st' tr' :
  decryptMessage p now E rpk rsk expS expB rc strict st tr = (r, st', tr') ->
  (exists e, r = inl e /\ st' = st /\
     (tr' = tr \/ (e = SignatureInvalid /\ tr' = tr ++ [OpVerify])) /\
     rejected p now E rpk expS expB strict e) \/
  (exists rf, pre_ok p now E rpk expS expB strict rf /\ signature_ok p E rf = true).
Proof.
  intros Hrun.
  unfold decryptMessage in Hrun.
  cbv [bind check check_expected of_option ret throw emit call] in Hrun.
  repeat match type of Hrun with
  | context [if ?c then _ else _] => let E := fresh "E" in destruct c eqn:E
  | context [match ?o with Some _ => _ | None => _ end] => let E := fresh "E" in destruct o eqn:E
  end.
  all: unfold pre_ok, format_ok, lengths_ok, msgId_ok, recipient_ok, expected_ok, signature_ok.
  all: first
    [ solve [right; eexists; split_and!; try eassumption;
             repeat match goal with
             | H : ?x = Some _ |- context [?x] => rewrite H
             | H : ?x = None |- context [?x] => rewrite H end;
             repeat (apply andb_true_intro; split); try assumption; reflexivity]
    | injection Hrun as <- <- <-; left; eexists; split_and!;
      [reflexivity | reflexivity | first [left; reflexivity | right; split; reflexivity] |];
      econstructor; unfold pre_ok, format_ok, lengths_ok, msgId_ok, recipient_ok,
        expected_ok, signature_ok; split_and?; try eassumption;
      repeat match goal with
      | H : ?x = Some _ |- context [?x] => rewrite H
      | H : ?x = None |- context [?x] => rewrite H end;
      rewrite ?andb_false_iff, ?andb_true_iff;
      repeat (apply andb_true_intro; split); try assumption; try reflexivity;
      intuition ].
Qed.

Lemma flip_byte_neq x k : (k < 8)%nat -> flip_byte x k <> x.
Proof.
  intros Hk.
  do 8 (destruct k as [|k]; [destruct x; vm_compute; discriminate|]). lia.
Qed.


Lemma flip_bit_length b i k : length (flip_bit b i k) = length b.
Proof. revert i. induction b as [|x b IH]; intros [|i]; simpl; auto. Qed.

Lemma flip_bit_neq b i k : (i < length b)%nat -> (k < 8)%nat -> flip_bit b i k <> b.
Proof.
  revert i. induction b as [|x b IH]; intros [|i] Hi Hk; simpl in *; try lia.
  - intros H. injection H as H. exact (flip_byte_neq x k Hk H).
  - intros H. injection H as H. apply (IH i); [lia|exact Hk|exact H].
Qed.

Lemma encodeBase64_inj p (HL : PrimsLaws p) a b :
  encodeBase64 p a = encodeBase64 p b -> a = b.
Proof.
  intros H. apply (f_equal (decodeBase64 p)) in H.
  rewrite !(base64_roundtrip _ HL) in H. congruence.
Qed.

Lemma decode_fields_inv p E rf :
  decode_fields p E = Some rf ->
  decodeBase64 p (env_senderSignPK E) = Some (rf_senderSignPK rf) /\
  decodeBase64 p (env_senderBoxPK E) = Some (rf_senderBoxPK rf) /\
  decodeBase64 p (env_recipientBoxPK E) = Some (rf_recipientBoxPK rf) /\
  decodeBase64 p (env_ephPK E) = Some (rf_ephPK rf) /\
  decodeBase64 p (env_nonce E) = Some (rf_nonce rf) /\
  decodeBase64 p (env_ciphertext E) = Some (rf_ciphertext rf) /\
  decodeBase64 p (env_signature E) = Some (rf_signature rf).
Proof.
  unfold decode_fields.
  repeat match goal with |- context [match ?o with Some _ => _ | None => _ end] =>
    destruct o; [|discriminate] end.
  intros H. injection H as <-. cbn. auto 10.
Qed.

Lemma decode_tamper p (HL : PrimsLaws p) E rf f i k :
  decode_fields p E = Some rf ->
  decode_fields p (tamper p E f i k) = Some (rf_flip rf f i k).
Proof.
  intros Hd. pose proof (decode_fields_inv p E rf Hd) as (H1 & H2 & H3 & H4 & H5 & H6 & H7).
  unfold tamper. rewrite Hd.
  destruct f; unfold decode_fields; cbn;
    rewrite ?H1, ?H2, ?H3, ?H4, ?H5, ?H6, ?H7, ?(base64_roundtrip _ HL); reflexivity.
Qed.

Lemma lengths_ok_flip rf f i k : lengths_ok (rf_flip rf f i k) = lengths_ok rf.
Proof. destruct f; unfold lengths_ok; cbn; rewrite ?flip_bit_length; reflexivity. Qed.

Lemma flip_mismatch p (HL : PrimsLaws p) s b x i k :
  decodeBase64 p s = Some b -> (i < length b)%nat -> (k < 8)%nat ->
  String.eqb (encodeBase64 p x) s = true ->
  String.eqb (encodeBase64 p x) (encodeBase64 p (flip_bit b i k)) = false.
Proof.
  intros Hdec Hi Hk Hs. apply String.eqb_eq in Hs. subst s.
  rewrite (base64_roundtrip _ HL) in Hdec. injection Hdec as <-.
  apply String.eqb_neq. intros Heq. apply (encodeBase64_inj p HL) in Heq.
  exact (flip_bit_neq x i k Hi Hk (eq_sym Heq)).
Qed.

(* ========================================================================= *)
(** ** C1: encryption then decryption is the identity on the message *)

(** C1.  For every lawful instance of the primitives, every content string
    whose UTF-8 encoding is at most [MAX_BYTES] bytes, every sender signing
    key, sender box key and recipient box key (the ephemeral key and the
    24-byte nonce are the two random draws of [encryptMessage]):
    [encryptMessage] produces an envelope, and [decryptMessage] on it, with
    [strictMode = false], at a time [now] not after the expiration
    [calculateExpiration ts ttlMs], with the sender's actual keys as expected
    keys and a replay callback that allows the pair, succeeds and returns the
    encrypted content, timestamp and payload type.  The extra payload fields
    must not themselves be named [content] or [type] (the spec's
    [encrypt(m, s, b, R)] has none). *)
Theorem C1_encrypt_decrypt_roundtrip (p : Prims) (HL : PrimsLaws p) {S : Type}
    (st : S) (tr : list crypto_op) (now0 now : Z) (content : string)
    (ssk bsk rsk eph_sk nonce : bytes) (ts ttlMs : option Z) (type : option string)
    (payloadExtra : list (string * jscalar))
    (replayCheck : option (string -> string -> S -> bool * S)) :
  Z.of_nat (length (decodeUTF8 p content)) <= MAX_BYTES ->
  length nonce = NONCE_LEN ->
  obj_get payloadExtra "content" = None -> obj_get payloadExtra "type" = None ->
  now <= calculateExpiration (match ts with Some t => t | None => now0 end) ttlMs ->
  exists E,
    encryptMessage p now0 content (sign_pk_of_sk p ssk) ssk (box_pk_of_sk p bsk)
      (box_pk_of_sk p rsk) ts ttlMs type payloadExtra eph_sk nonce = inr E /\
    (replay_allows replayCheck E
       (encodeBase64 p (fingerprintFromSignPK p (sign_pk_of_sk p ssk))) st ->
     exists d st' tr',
       decryptMessage p now E (box_pk_of_sk p rsk) rsk
         (Some (sign_pk_of_sk p ssk)) (Some (box_pk_of_sk p bsk)) replayCheck false st tr
         = (inr d, st', tr') /\
       dec_content d = JStr content /\
       dec_ts d = (match ts with Some t => t | None => now0 end) /\
       dec_type d = JStr (payload_type_of type)).
Proof.
  intros Hsize Hn Hc Ht Hexp.
  destruct (encryptMessage p now0 content (sign_pk_of_sk p ssk) ssk (box_pk_of_sk p bsk)
      (box_pk_of_sk p rsk) ts ttlMs type payloadExtra eph_sk nonce) as [err|E] eqn:Henc.
  - unfold encryptMessage in Henc.
    destruct (MAX_BYTES <? _) eqn:Hlt; [apply Z.ltb_lt in Hlt; lia|discriminate].
  - exists E. split; [reflexivity|]. intros Hrep.
    assert (Hvalid : isMessageValid now false E = true).
    { unfold encryptMessage in Henc. destruct (MAX_BYTES <? _); [discriminate|].
      injection Henc as <-. cbn. now apply Z.leb_le. }
    destruct (decrypt_encrypted p HL st tr now0 now content ssk (box_pk_of_sk p bsk) rsk
                ts ttlMs type payloadExtra eph_sk nonce E
                (Some (sign_pk_of_sk p ssk)) (Some (box_pk_of_sk p bsk)) replayCheck false
                Henc (box_pk_len _ HL bsk) Hn Hvalid (or_intror eq_refl) (or_intror eq_refl)
                Hrep)
      as (d & st' & Hrun & _ & Hcontent & Htype & Hts & _).
    exists d, st', (tr ++ [OpVerify; OpBoxOpen]).
    rewrite Hcontent, Htype. unfold build_payload. cbn [json_get].
    rewrite !obj_get_spread_other by assumption. cbn.
    rewrite payload_type_of_nonempty. auto.
Qed.

(** The theorem at a concrete instance: "Hello", timestamp 1000, default TTL,
    read at time 5000, no replay callback. *)
Lemma C1_witness :
  exists E,
    encryptMessage Toy.prims 0 "Hello" (sign_pk_of_sk Toy.prims [x01]) [x01]
      (box_pk_of_sk Toy.prims [x02]) (box_pk_of_sk Toy.prims [x03])
      (Some 1000) None (Some "text"%string) [] [x04] (repeat x00 24) = inr E /\
    (replay_allows (S := unit) None E
       (encodeBase64 Toy.prims (fingerprintFromSignPK Toy.prims
          (sign_pk_of_sk Toy.prims [x01]))) tt ->
     exists d st' tr',
       decryptMessage Toy.prims 5000 E (box_pk_of_sk Toy.prims [x03]) [x03]
         (Some (sign_pk_of_sk Toy.prims [x01])) (Some (box_pk_of_sk Toy.prims [x02]))
         None false tt []
         = (inr d, st', tr') /\
       dec_content d = JStr "Hello" /\
       dec_ts d = 1000 /\
       dec_type d = JStr (payload_type_of (Some "text"%string))).
Proof.
  apply (C1_encrypt_decrypt_roundtrip Toy.prims ToyLaws.prims_lawful tt [] 0 5000 "Hello"
           [x01] [x02] [x03] [x04] (repeat x00 24) (Some 1000) None (Some "text"%string) []
           None).
  - vm_compute. discriminate.
  - reflexivity.
  - reflexivity.
  - reflexivity.
  - vm_compute. discriminate.
Defined.

(* ========================================================================= *)
(** ** C6: the validity window *)

(** C6.  For every lawful instance of the primitives: (a) in non-strict mode
    an envelope that [encryptMessage] produced for the recipient, whose [exp]
    is greater than the current time, is decrypted successfully; (b) in
    non-strict mode a well-formed envelope whose [exp] is less than the
    current time (or, when [exp] is absent, whose [ts + DEFAULT_TTL_MS] is)
    gives [MessageExpired]; (c) in strict mode a well-formed envelope with
    [|now - ts| > MAX_SKEW_MS] gives [TimestampSkew].  In (b) and (c) the run
    stops there: the caller's state and the trace of cryptographic
    operations are unchanged. *)
Theorem C6_validity_window (p : Prims) (HL : PrimsLaws p) {S : Type} :
  (forall (st : S) tr now0 now content ssk bsk rsk ts ttlMs type payloadExtra eph_sk
          nonce E e,
     encryptMessage p now0 content (sign_pk_of_sk p ssk) ssk (box_pk_of_sk p bsk)
       (box_pk_of_sk p rsk) ts ttlMs type payloadExtra eph_sk nonce = inr E ->
     length nonce = NONCE_LEN ->
     env_exp E = Some e -> now < e ->
     exists d st',
       decryptMessage p now E (box_pk_of_sk p rsk) rsk None None None false st tr
         = (inr d, st', tr ++ [OpVerify; OpBoxOpen])) /\
  (forall (st : S) tr now E rpk rsk expS expB rc,
     well_formed p E = true ->
     match env_exp E with
     | Some e => e < now
     | None => env_ts E + DEFAULT_TTL_MS < now
     end ->
     decryptMessage p now E rpk rsk expS expB rc false st tr = (inl MessageExpired, st, tr)) /\
  (forall (st : S) tr now E rpk rsk expS expB rc,
     well_formed p E = true ->
     MAX_SKEW_MS < Z.abs (now - env_ts E) ->
     decryptMessage p now E rpk rsk expS expB rc true st tr = (inl TimestampSkew, st, tr)).
Proof.
  split; [|split].
  - intros st tr now0 now content ssk bsk rsk ts ttlMs type payloadExtra eph_sk nonce E e
      Henc Hn He Hlt.
    assert (Hvalid : isMessageValid now false E = true).
    { unfold isMessageValid. rewrite He. apply Z.leb_le. lia. }
    destruct (decrypt_encrypted p HL st tr now0 now content ssk (box_pk_of_sk p bsk) rsk
                ts ttlMs type payloadExtra eph_sk nonce E None None None false
                Henc (box_pk_len _ HL bsk) Hn Hvalid (or_introl eq_refl) (or_introl eq_refl)
                I)
      as (d & st' & Hrun & _).
    eauto.
  - intros st tr now E rpk rsk expS expB rc Hwf Hexp.
    apply (decrypt_invalid p now E rpk rsk expS expB rc false st tr Hwf).
    unfold isMessageValid. destruct (env_exp E); apply Z.leb_gt; lia.
  - intros st tr now E rpk rsk expS expB rc Hwf Hskew.
    apply (decrypt_invalid p now E rpk rsk expS expB rc true st tr Hwf).
    unfold isMessageValid. apply Z.leb_gt; lia.
Qed.

(** The three parts on the concrete envelope [Examples.toy_env] (timestamp
    1000, [exp = 1000 + DEFAULT_TTL_MS]) and its v1.0 form without [exp]. *)
Lemma C6_witness :
  (exists d st',
     decryptMessage Toy.prims 5000 Examples.toy_env (box_pk_of_sk Toy.prims [x03]) [x03]
       None None (None : option (string -> string -> unit -> bool * unit)) false tt []
       = (inr d, st', [OpVerify; OpBoxOpen])) /\
  decryptMessage Toy.prims (1001 + DEFAULT_TTL_MS) Examples.toy_env_v10
    (box_pk_of_sk Toy.prims [x03]) [x03] None None
    (None : option (string -> string -> unit -> bool * unit)) false tt []
    = (inl MessageExpired, tt, []) /\
  decryptMessage Toy.prims (1001 + MAX_SKEW_MS) Examples.toy_env
    (box_pk_of_sk Toy.prims [x03]) [x03] None None
    (None : option (string -> string -> unit -> bool * unit)) true tt []
    = (inl TimestampSkew, tt, []).
Proof.
  destruct (C6_validity_window Toy.prims ToyLaws.prims_lawful (S := unit))
    as (Ha & Hb & Hc).
  split; [|split].
  - apply (Ha tt [] 0 5000 "Hi"%string [x01] [x02] [x03] (Some 1000) None None [] [x04]
             (repeat x00 24) Examples.toy_env (1000 + DEFAULT_TTL_MS)).
    + vm_compute. reflexivity.
    + reflexivity.
    + vm_compute. reflexivity.
    + vm_compute. reflexivity.
  - apply Hb.
    + vm_compute. reflexivity.
    + vm_compute. reflexivity.
  - apply Hc.
    + vm_compute. reflexivity.
    + vm_compute. reflexivity.
Defined.

(* ========================================================================= *)
(** ** C2: tampering with a signed field *)

(** C2 (counterexample).  On the concrete instance, the envelope
    [Examples.toy_env] decrypts successfully, and the envelope obtained by
    flipping bit 0 of byte 16 of its ciphertext is rejected with
    [MessageIdMismatch]: not [SignatureInvalid], [Base64DecodeFailed] or
    [InvalidKeyLength].  The check of [msgId] against the hash of the
    ciphertext comes before the signature in the code, and the envelope
    carries a [msgId]. *)
Lemma C2_counterexample :
  (exists d st' tr',
     decryptMessage Toy.prims 5000 Examples.toy_env (box_pk_of_sk Toy.prims [x03]) [x03]
       None None (None : option (string -> string -> unit -> bool * unit)) false tt []
       = (inr d, st', tr')) /\
  decryptMessage Toy.prims 5000 (tamper Toy.prims Examples.toy_env FCiphertext 16%nat 0%nat)
    (box_pk_of_sk Toy.prims [x03]) [x03] None None
    (None : option (string -> string -> unit -> bool * unit)) false tt []
    = (inl MessageIdMismatch, tt, []).
Proof. split; [do 3 eexists; vm_compute; reflexivity | vm_compute; reflexivity]. Qed.

(** C2 (amended).  For every lawful instance of the primitives and every
    envelope [E] that [decryptMessage] accepts up to box-open (the run
    performs it), flipping one bit of one field [SignBytes] covers (bit [k]
    of byte [i] of the decoded field; bit [8 * i + k] of [ts]), such that the
    signature no longer verifies over the changed [SignBytes], gives a run
    that throws, leaves the caller's state unchanged and never performs
    box-open.  Its error is determined by the field: [RecipientMismatch] for
    the recipient key; [SenderSignKeyMismatch] or [SenderBoxKeyMismatch] for
    a sender key when that key is expected, [SignatureInvalid] otherwise;
    [SignatureInvalid] for the ephemeral key and the nonce; the window error
    or [SignatureInvalid] for [ts]; and for the ciphertext [MessageIdMismatch]
    or [SignatureInvalid] when [E] carries a non-empty [msgId],
    [SignatureInvalid] otherwise.  The flip keeps base64 and lengths valid. *)
Theorem C2_tamper_rejected (p : Prims) (HL : PrimsLaws p) {S : Type} now E rpk rsk
    expS expB (rc : option (string -> string -> S -> bool * S)) strict st tr r0 st0 tr0
    f i k :
  decryptMessage p now E rpk rsk expS expB rc strict st tr = (r0, st0, tr0) ->
  ~ In OpBoxOpen tr -> In OpBoxOpen tr0 ->
  (forall rf, decode_fields p E = Some rf -> i < field_length rf f)%nat -> (k < 8)%nat ->
  (forall rf', decode_fields p (tamper p E f i k) = Some rf' ->
     signature_ok p (tamper p E f i k) rf' = false) ->
  exists e tr',
    decryptMessage p now (tamper p E f i k) rpk rsk expS expB rc strict st tr
      = (inl e, st, tr') /\
    ~ In OpBoxOpen tr' /\ In e (tamper_errors E f expS expB strict).
Proof.
  intros Hrun Hnot Hin Hi Hk Hsig.
  destruct (decrypt_outcome p now E rpk rsk expS expB rc strict st tr r0 st0 tr0 Hrun)
    as [(e & -> & -> & Htr & _) | (rf & Hpre & Hsok)].
  { exfalso. destruct Htr as [-> | [_ ->]]; [contradiction|].
    rewrite in_app_iff in Hin. simpl in Hin. intuition congruence. }
  destruct Hpre as (Hf & Hd & Hl & Hv & Hm & Hr & HeS & HeB).
  specialize (Hi rf Hd).
  pose proof (decode_tamper p HL E rf f i k Hd) as Hd'.
  destruct (decryptMessage p now (tamper p E f i k) rpk rsk expS expB rc strict st tr)
    as [[r' st'] tr'] eqn:Hrun'.
  destruct (decrypt_outcome p now _ rpk rsk expS expB rc strict st tr r' st' tr' Hrun')
    as [(e & -> & -> & Htr' & Hrej) | (rf' & Hpre' & Hsok')].
  2: { exfalso. destruct Hpre' as (_ & Hd2 & _). rewrite (Hsig rf' Hd2) in Hsok'.
       discriminate. }
  exists e, tr'. split; [reflexivity|]. split.
  { destruct Htr' as [-> | [_ ->]]; [exact Hnot|].
    rewrite in_app_iff. simpl. intuition congruence. }
  pose proof (decode_fields_inv p E rf Hd) as (H1 & H2 & H3 & H4 & H5 & H6 & H7).
  unfold tamper in Hrej, Hd'. rewrite Hd in Hrej, Hd'.
  destruct f; cbn [field_length] in Hi; cbn [signed_field_eqb] in Hrej, Hd';
    inversion Hrej; subst;
    repeat match goal with
    | H : decode_fields p _ = None |- _ => rewrite Hd' in H; discriminate H
    | H : decode_fields p _ = Some ?r |- _ => is_var r; rewrite Hd' in H; injection H as <-
    end;
    rewrite ?lengths_ok_flip in *;
    unfold pre_ok, format_ok, msgId_ok, recipient_ok, expected_ok, isMessageValid,
      env_with in *;
    cbn [env_v env_kind env_ts env_exp env_msgId env_senderSignPK env_senderBoxPK
         env_recipientBoxPK rf_flip rf_ciphertext signed_field_eqb tamper_errors] in *;
    try congruence; try (cbn; tauto).
  all: repeat match goal with
    | |- context [match ?o with Some _ => _ | None => _ end] => destruct o eqn:?
    | |- context [if ?c then _ else _] => destruct c eqn:?
    end; cbn in *; try tauto; try congruence.
  all: destruct_and?; exfalso; match goal with
    | H : String.eqb (encodeBase64 ?q ?x) (encodeBase64 ?q (flip_bit ?b ?i ?k)) = true,
      Hs : String.eqb (encodeBase64 ?q ?x) ?s = true,
      Hdec : decodeBase64 ?q ?s = Some ?b |- _ =>
        rewrite (flip_mismatch q HL s b x i k Hdec Hi Hk Hs) in H; discriminate H
    end.
Qed.

(** The theorem on the v1.0 envelope [Examples.toy_env_v10] (no [msgId]),
    with bit 0 of byte 16 of the ciphertext flipped: the checksum signature
    of the concrete instance detects the flip. *)
Lemma C2_witness :
  exists e tr',
    decryptMessage Toy.prims 5000 (tamper Toy.prims Examples.toy_env_v10 FCiphertext 16%nat 0%nat)
      (box_pk_of_sk Toy.prims [x03]) [x03] None None
      (None : option (string -> string -> unit -> bool * unit)) false tt []
      = (inl e, tt, tr') /\
    ~ In OpBoxOpen tr' /\
    In e (tamper_errors Examples.toy_env_v10 FCiphertext None None false).
Proof.
  apply (C2_tamper_rejected Toy.prims ToyLaws.prims_lawful 5000 Examples.toy_env_v10
           (box_pk_of_sk Toy.prims [x03]) [x03] None None None false tt []
           (fst (fst (decryptMessage Toy.prims 5000 Examples.toy_env_v10
                        (box_pk_of_sk Toy.prims [x03]) [x03] None None
                        (None : option (string -> string -> unit -> bool * unit))
                        false tt [])))
           tt [OpVerify; OpBoxOpen] FCiphertext 16%nat 0%nat).
  - vm_compute. reflexivity.
  - simpl. tauto.
  - simpl. tauto.
  - intros rf Hd. vm_compute in Hd. injection Hd as <-. vm_compute. lia.
  - lia.
  - intros rf' Hd. vm_compute in Hd. injection Hd as <-. vm_compute. reflexivity.
Defined.

(* ========================================================================= *)
(** ** C3: an envelope for another recipient *)

(** One check of [decryptMessage] in the order of the code: split on its
    condition and close the branch that throws. *)
Ltac step c := let Ec := fresh "E" in
  destruct c eqn:Ec; cbn beta iota zeta delta [negb] in *; try reflexivity.

(** When one of the checks before the signature fails, [decryptMessage]
    throws the error of the first failing check, in the code's order, with
    the caller's state and the operations unchanged. *)
Lemma decrypt_prefix (p : Prims) {S : Type} now E rpk rsk expS expB
    (rc : option (string -> string -> S -> bool * S)) strict st tr :
  first_check_error p now E strict <> None \/ recipient_ok p E rpk = false \/
  expected_ok p expS (env_senderSignPK E) = false \/
  expected_ok p expB (env_senderBoxPK E) = false ->
  decryptMessage p now E rpk rsk expS expB rc strict st tr =
  (inl (match first_check_error p now E strict with
        | Some e => e
        | None => if negb (recipient_ok p E rpk) then RecipientMismatch
                  else if negb (expected_ok p expS (env_senderSignPK E)) then SenderSignKeyMismatch
                  else SenderBoxKeyMismatch
        end), st, tr).
Proof.
  intros H.
  unfold decryptMessage, first_check_error, format_ok, msgId_ok, recipient_ok, expected_ok in *.
  cbv [bind check check_expected of_option ret throw emit call].
  step ((env_v E =? 1) && String.eqb (env_kind E) "dmesh-msg").
  step (decode_fields p E).
  step (Nat.eqb (length (rf_senderSignPK r)) SIGN_PK_LEN).
  step (Nat.eqb (length (rf_senderBoxPK r)) BOX_PK_LEN).
  step (Nat.eqb (length (rf_recipientBoxPK r)) BOX_PK_LEN).
  step (Nat.eqb (length (rf_ephPK r)) BOX_PK_LEN).
  step (Nat.eqb (length (rf_nonce r)) NONCE_LEN).
  step (Nat.eqb (length (rf_signature r)) SIGNATURE_LEN).
  step (isMessageValid now strict E).
  destruct (env_msgId E) as [mid|]; cbn beta iota zeta delta [negb] in *;
    [step (String.eqb mid "" || String.eqb mid (encodeBase64 p (messageIdFromCiphertext p (rf_ciphertext r)))) |];
  (step (String.eqb (encodeBase64 p rpk) (env_recipientBoxPK E)));
  (destruct expS as [ks|]; cbn beta iota zeta delta [negb] in *;
     [step (String.eqb (encodeBase64 p ks) (env_senderSignPK E)) |]);
  (destruct expB as [kb|]; cbn beta iota zeta delta [negb] in *;
     [step (String.eqb (encodeBase64 p kb) (env_senderBoxPK E)) |]);
  exfalso; destruct H as [H|[H|[H|H]]]; try discriminate H; apply H; reflexivity.
Qed.




(* ========================================================================= *)
(** ** C4: the store after a failed decryption *)

(** A run of [decryptMessage] with a replay callback [f] that ends in an
    error either leaves the caller's state as it was, with an error thrown
    before the replay check, or has passed all checks up to the signature,
    called [f] once on the computed [msgId] and sender fingerprint, and
    ends in the state [f] returned: with [ReplayDetected] if [f] refused
    the pair, with an error of the later steps otherwise. *)
Lemma decrypt_replay_error (p : Prims) {S : Type} now E rpk rsk expS expB
    (f : string -> string -> S -> bool * S) strict st tr e st' tr' :
  decryptMessage p now E rpk rsk expS expB (Some f) strict st tr = (inl e, st', tr') ->
  (st' = st /\ ~ In e (ReplayDetected :: post_replay_errors)) \/
  (exists rf, pre_ok p now E rpk expS expB strict rf /\ signature_ok p E rf = true /\
     st' = snd (f (encodeBase64 p (messageIdFromCiphertext p (rf_ciphertext rf)))
                  (encodeBase64 p (fingerprintFromSignPK p (rf_senderSignPK rf))) st) /\
     (if fst (f (encodeBase64 p (messageIdFromCiphertext p (rf_ciphertext rf)))
                (encodeBase64 p (fingerprintFromSignPK p (rf_senderSignPK rf))) st)
      then In e post_replay_errors else e = ReplayDetected)).
Proof.
  intros Hrun.
  unfold decryptMessage in Hrun.
  cbv [bind check check_expected of_option ret throw emit call] in Hrun.
  repeat match type of Hrun with
  | context [f ?a ?b ?s0] =>
      let E := fresh "E" in destruct (f a b s0) as [? ?] eqn:E
  | context [if ?c then _ else _] => let E := fresh "E" in destruct c eqn:E
  | context [match ?o with Some _ => _ | None => _ end] =>
      let E := fresh "E" in destruct o eqn:E
  end.
  all: try discriminate Hrun.
  all: first
    [ injection Hrun as <- <- <-; left; split; [reflexivity | cbv; intuition discriminate]
    | injection Hrun as <- <- <-; right; eexists; split_and!;
      [ unfold pre_ok, format_ok, lengths_ok, msgId_ok, recipient_ok, expected_ok;
        split_and!; try eassumption;
        repeat match goal with
        | H : ?x = Some _ |- context [?x] => rewrite H
        | H : ?x = None |- context [?x] => rewrite H end;
        repeat (apply andb_true_intro; split); try assumption; reflexivity
      | unfold signature_ok; assumption
      | match goal with H : ?x = (_, _) |- context [?x] => rewrite H; reflexivity end
      | match goal with H : ?x = (_, _) |- context [?x] => rewrite H end; cbn; intuition ] ].
Qed.




(* ========================================================================= *)
(** ** C5: concurrent [checkAndMarkSeen] calls *)

Section ConcurrentSeen.
Variables (nowA nowB : Z) (msgId senderFp : string).

Let k := makeSeenKey msgId senderFp.

Lemma fresh_inv_sym t o d : fresh_inv k t o d -> fresh_inv k o t d.
Proof. unfold fresh_inv. intuition. Qed.

Lemma fresh_inv_step now t o d t' d' :
  cms_step now msgId senderFp t d = (t', d') -> fresh_inv k t o d -> fresh_inv k t' o d'.
Proof.
  unfold fresh_inv, absent_ok. intros Hs [H1 H2].
  destruct t as [|[|]|b]; cbn in Hs; unfold idbGet_seen in Hs; fold k in Hs.
  - destruct (db_seen d !! k) eqn:Hk; injection Hs as <- <-; rewrite Hk.
    + split; [discriminate|]. intros _. destruct (H2 ltac:(eauto)) as [?|?]; [discriminate | auto].
    + split; [intros _; split; [auto | apply H1; reflexivity] | intros [? ?]; discriminate].
  - injection Hs as <- <-.
    destruct (db_seen d !! k) eqn:Hk.
    + split; [discriminate|]. intros _. destruct (H2 ltac:(eauto)) as [?|?]; [discriminate | auto].
    + destruct (H1 eq_refl) as [[?|?] _]; discriminate.
  - injection Hs as <- <-. cbn. rewrite lookup_insert_eq.
    split; [discriminate | auto].
  - injection Hs as <- <-. split; assumption.
Qed.

Lemma fresh_inv_run sched tA tB d tA' tB' d' :
  run_sched nowA nowB msgId senderFp sched tA tB d = (tA', tB', d') ->
  fresh_inv k tA tB d -> fresh_inv k tA' tB' d'.
Proof.
  revert tA tB d. induction sched as [|[|] sched IH]; intros tA tB d Hrun Hinv; cbn in Hrun.
  - injection Hrun as <- <- <-. exact Hinv.
  - destruct (cms_step nowA msgId senderFp tA d) as [tA1 d1] eqn:Hs.
    exact (IH _ _ _ Hrun (fresh_inv_step _ _ _ _ _ _ Hs Hinv)).
  - destruct (cms_step nowB msgId senderFp tB d) as [tB1 d1] eqn:Hs.
    exact (IH _ _ _ Hrun (fresh_inv_sym _ _ _ (fresh_inv_step _ _ _ _ _ _ Hs
                                                 (fresh_inv_sym _ _ _ Hinv)))).
Qed.

Lemma seen_inv_sym t o d : seen_inv k t o d -> seen_inv k o t d.
Proof. unfold seen_inv. intuition. Qed.

Lemma seen_inv_step now t o d t' d' :
  cms_step now msgId senderFp t d = (t', d') -> seen_inv k t o d -> seen_inv k t' o d'.
Proof.
  unfold seen_inv, present_ok. intros Hs (Hk & Ht & Ho).
  destruct t as [|[|]|b]; cbn in Hs; unfold idbGet_seen in Hs; fold k in Hs.
  - destruct Hk as [v Hk]. rewrite Hk in Hs. injection Hs as <- <-.
    split_and!; eauto.
  - injection Hs as <- <-. split_and!; auto.
  - exfalso. intuition discriminate.
  - injection Hs as <- <-. split_and!; auto.
Qed.

Lemma seen_inv_run sched tA tB d tA' tB' d' :
  run_sched nowA nowB msgId senderFp sched tA tB d = (tA', tB', d') ->
  seen_inv k tA tB d -> seen_inv k tA' tB' d'.
Proof.
  revert tA tB d. induction sched as [|[|] sched IH]; intros tA tB d Hrun Hinv; cbn in Hrun.
  - injection Hrun as <- <- <-. exact Hinv.
  - destruct (cms_step nowA msgId senderFp tA d) as [tA1 d1] eqn:Hs.
    exact (IH _ _ _ Hrun (seen_inv_step _ _ _ _ _ _ Hs Hinv)).
  - destruct (cms_step nowB msgId senderFp tB d) as [tB1 d1] eqn:Hs.
    exact (IH _ _ _ Hrun (seen_inv_sym _ _ _ (seen_inv_step _ _ _ _ _ _ Hs
                                                (seen_inv_sym _ _ _ Hinv)))).
Qed.

End ConcurrentSeen.

Section RunInv.
Variables (nowA nowB : Z) (msgId senderFp : string).

(** A property of two calls and the store that every step of either call
    keeps holds along every schedule. *)
Lemma run_sched_inv (I : cms_state -> cms_state -> db -> Prop) :
  (forall now t o d t' d', cms_step now msgId senderFp t d = (t', d') -> I t o d -> I t' o d') ->
  (forall now t o d t' d', cms_step now msgId senderFp o d = (t', d') -> I t o d -> I t t' d') ->
  forall sched tA tB d tA' tB' d',
    run_sched nowA nowB msgId senderFp sched tA tB d = (tA', tB', d') ->
    I tA tB d -> I tA' tB' d'.
Proof.
  intros HA HB sched. induction sched as [|[|] sched IH]; intros tA tB d tA' tB' d' Hrun Hi;
    cbn in Hrun.
  - injection Hrun as <- <- <-. exact Hi.
  - destruct (cms_step nowA msgId senderFp tA d) as [tA1 d1] eqn:Hs.
    exact (IH _ _ _ _ _ _ Hrun (HA _ _ _ _ _ _ Hs Hi)).
  - destruct (cms_step nowB msgId senderFp tB d) as [tB1 d1] eqn:Hs.
    exact (IH _ _ _ _ _ _ Hrun (HB _ _ _ _ _ _ Hs Hi)).
Qed.

End RunInv.

(** C5 (counterexample).  [checkAndMarkSeen] is not one transaction: with
    both calls reading before either writes (schedule A, B, A, B), two
    concurrent calls on the same pair both return [true] (allowed). *)
Lemma C5_counterexample :
  exists d',
    run_sched 0 0 "m" "f" [true; false; true; false] CStart CStart empty_db
      = (CDone true, CDone true, d').
Proof. eexists. vm_compute. reflexivity. Qed.

(** C5 (amended).  For every schedule of two concurrent calls
    [checkAndMarkSeen(msgId, senderFp)] on the same pair that runs both to
    completion, from any store: if the pair is already in the [seen] store,
    both return [false]; if it is not, at least one returns [true], the pair
    is in the store at the end, and exactly one returns [true] if and only
    if the call that reads first also writes before the other reads (the
    schedule starts with two steps of the same call); when both reads come
    before either write, both return [true]. *)
Theorem C5_concurrent_check_and_mark nowA nowB msgId senderFp sched d a b d' :
  run_sched nowA nowB msgId senderFp sched CStart CStart d = (CDone a, CDone b, d') ->
  let k := makeSeenKey msgId senderFp in
  (is_Some (db_seen d !! k) -> a = false /\ b = false) /\
  (db_seen d !! k = None ->
     (a = true \/ b = true) /\ is_Some (db_seen d' !! k) /\
     (a <> b <-> exists x rest, sched = x :: x :: rest)).
Proof.
  intros Hrun k. split_and!.
  - intros Hk.
    destruct (seen_inv_run nowA nowB msgId senderFp sched _ _ _ _ _ _ Hrun)
      as (_ & Ha & Hb).
    { split_and!; [exact Hk | left; reflexivity | left; reflexivity]. }
    unfold present_ok in Ha, Hb.
    split; [destruct Ha as [Ha|[Ha|Ha]] | destruct Hb as [Hb|[Hb|Hb]]]; congruence.
  - intros Hk.
    destruct (fresh_inv_run nowA nowB msgId senderFp sched _ _ _ _ _ _ Hrun) as [H1 H2].
    { split; [intros _; unfold absent_ok; auto | intros [v Hv]; fold k in Hv; congruence]. }
    destruct (db_seen d' !! makeSeenKey msgId senderFp) eqn:Hk';
      [|destruct (H1 eq_refl) as [[Ha|Ha] _]; discriminate].
    split_and!; [destruct (H2 ltac:(eauto)) as [Ha|Hb]; [left | right]; congruence | eauto |].
    (* the first two steps of the schedule *)
    destruct sched as [|x [|y rest]]; cbn in Hrun.
    { discriminate Hrun. }
    { destruct x; cbn in Hrun; unfold idbGet_seen in Hrun; fold k in Hrun; rewrite Hk in Hrun;
        discriminate Hrun. }
    assert (Hpost : forall t, (t = CGot false \/ t = CDone true) ->
              forall u, (u = CGot false \/ u = CDone true) ->
              forall d0 rest' a' b' d0',
              run_sched nowA nowB msgId senderFp rest' t u d0 = (CDone a', CDone b', d0') ->
              a' = true /\ b' = true).
    { intros t Ht u Hu d0 rest' a' b' d0' Hr.
      set (I := fun t u (_ : db) => (t = CGot false \/ t = CDone true) /\
                                    (u = CGot false \/ u = CDone true)).
      assert (HI : I (CDone a') (CDone b') d0').
      { apply (run_sched_inv nowA nowB msgId senderFp I) with rest' t u d0; [| | exact Hr | split; assumption];
          unfold I; intros now t0 o d1 t' d1' Hs [Ht0 Ho]; cbn in Hs;
          [ destruct Ht0 as [->| ->] | destruct Ho as [->| ->] ]; injection Hs as <- <-; auto. }
      destruct HI as [[Ha|Ha] [Hb|Hb]]; try discriminate; split; congruence. }
    assert (Hmix : forall tA tB d0 rest' a' b' d0',
              is_Some (db_seen d0 !! k) ->
              ((tA = CDone true /\ present_ok tB) \/ (present_ok tA /\ tB = CDone true)) ->
              run_sched nowA nowB msgId senderFp rest' tA tB d0 = (CDone a', CDone b', d0') ->
              a' <> b').
    { intros tA tB d0 rest' a' b' d0' Hk0 Hst Hr.
      set (I := fun t u (d1 : db) => is_Some (db_seen d1 !! k) /\
                 ((t = CDone true /\ present_ok u) \/ (present_ok t /\ u = CDone true))).
      assert (HI : I (CDone a') (CDone b') d0').
      { apply (run_sched_inv nowA nowB msgId senderFp I) with rest' tA tB d0;
          [| | exact Hr | split; assumption].
        - unfold I, present_ok. intros now t0 o d1 t' d1' Hs [Hk1 Hc].
          destruct Hc as [[-> Ho] | [Ht0 ->]].
          + cbn in Hs. injection Hs as <- <-. auto.
          + destruct Ht0 as [->|[->| ->]]; cbn in Hs; unfold idbGet_seen in Hs; fold k in Hs.
            * destruct Hk1 as [v Hv]. rewrite Hv in Hs. injection Hs as <- <-.
              split; [eauto | right; auto].
            * injection Hs as <- <-. split; [eauto | right; auto].
            * injection Hs as <- <-. split; [eauto | right; auto].
        - unfold I, present_ok. intros now t0 o d1 t' d1' Hs [Hk1 Hc].
          destruct Hc as [[-> Ho] | [Ht0 ->]].
          + destruct Ho as [->|[->| ->]]; cbn in Hs; unfold idbGet_seen in Hs; fold k in Hs.
            * destruct Hk1 as [v Hv]. rewrite Hv in Hs. injection Hs as <- <-.
              split; [eauto | left; auto].
            * injection Hs as <- <-. split; [eauto | left; auto].
            * injection Hs as <- <-. split; [eauto | left; auto].
          + cbn in Hs. injection Hs as <- <-. auto. }
      destruct HI as [_ [[Ha Hb] | [Ha Hb]]]; unfold present_ok in *;
        [destruct Hb as [Hb|[Hb|Hb]] | destruct Ha as [Ha|[Ha|Ha]]]; congruence. }
    destruct x, y; cbn in Hrun; unfold idbGet_seen in Hrun; fold k in Hrun; rewrite Hk in Hrun;
      cbn in Hrun; fold k in Hrun.
    + split; [intros _; eauto|]. intros _.
      refine (Hmix _ _ _ _ _ _ _ _ _ Hrun); [unfold idbPut_seen; cbn; rewrite lookup_insert_eq; eauto | left; split; [reflexivity | left; reflexivity]].
    + split; [|intros (z & rest' & Hz); injection Hz as Hz1 Hz2 _; congruence].
      intros Hab. exfalso. apply Hab.
      destruct (Hpost _ (or_introl eq_refl) _ (or_introl eq_refl) _ _ _ _ _ Hrun). congruence.
    + split; [|intros (z & rest' & Hz); injection Hz as Hz1 Hz2 _; congruence].
      intros Hab. exfalso. apply Hab.
      destruct (Hpost _ (or_introl eq_refl) _ (or_introl eq_refl) _ _ _ _ _ Hrun). congruence.
    + split; [intros _; eauto|]. intros _.
      refine (Hmix _ _ _ _ _ _ _ _ _ Hrun); [unfold idbPut_seen; cbn; rewrite lookup_insert_eq; eauto | right; split; [left; reflexivity | reflexivity]].
Qed.

(** The theorem on the interleaved schedule of the counterexample, on a
    sequential schedule, and on a store where the pair is already seen. *)
Lemma C5_witness :
  (exists d',
     run_sched 0 0 "m" "f" [true; false; true; false] CStart CStart empty_db
       = (CDone true, CDone true, d') /\
     let k := makeSeenKey "m" "f" in
     (is_Some (db_seen empty_db !! k) -> true = false /\ true = false) /\
     (db_seen empty_db !! k = None ->
        (true = true \/ true = true) /\ is_Some (db_seen d' !! k) /\
        (true <> true <-> exists x rest, [true; false; true; false] = x :: x :: rest))) /\
  (exists d',
     run_sched 0 0 "m" "f" [true; true; false; false] CStart CStart empty_db
       = (CDone true, CDone false, d') /\
     let k := makeSeenKey "m" "f" in
     (is_Some (db_seen empty_db !! k) -> true = false /\ false = false) /\
     (db_seen empty_db !! k = None ->
        (true = true \/ false = true) /\ is_Some (db_seen d' !! k) /\
        (true <> false <-> exists x rest, [true; true; false; false] = x :: x :: rest))) /\
  (exists d',
     run_sched 0 0 "m" "f" [true; false; true; false] CStart CStart
       (snd (checkAndMarkSeen 0 "m" "f" empty_db)) = (CDone false, CDone false, d') /\
     let k := makeSeenKey "m" "f" in
     (is_Some (db_seen (snd (checkAndMarkSeen 0 "m" "f" empty_db)) !! k) ->
        false = false /\ false = false) /\
     (db_seen (snd (checkAndMarkSeen 0 "m" "f" empty_db)) !! k = None ->
        (false = true \/ false = true) /\ is_Some (db_seen d' !! k) /\
        (false <> false <-> exists x rest, [true; false; true; false] = x :: x :: rest))).
Proof.
  split_and!; eexists; (split; [vm_compute; reflexivity |]).
  - apply (C5_concurrent_check_and_mark 0 0 "m" "f" [true; false; true; false] empty_db).
    vm_compute. reflexivity.
  - apply (C5_concurrent_check_and_mark 0 0 "m" "f" [true; true; false; false] empty_db).
    vm_compute. reflexivity.
  - apply (C5_concurrent_check_and_mark 0 0 "m" "f" [true; false; true; false]
             (snd (checkAndMarkSeen 0 "m" "f" empty_db))).
    vm_compute. reflexivity.
Defined.

(* ========================================================================= *)
(** ** C7: chunking round trip *)

#[export] Instance seq_le_trans : Transitive seq_le.
Proof. intros a b c. unfold seq_le. lia. Qed.

Lemma insert_by_seq_perm c l : insert_by_seq c l ≡ₚ c :: l.
Proof.
  induction l as [|c' l IH]; cbn; [reflexivity|].
  destruct (ch_seq c <? ch_seq c'); [reflexivity|].
  rewrite IH. constructor.
Qed.

Lemma insert_by_seq_sorted c l : Sorted seq_le l -> Sorted seq_le (insert_by_seq c l).
Proof.
  induction 1 as [|c' l Hs IH Hhd]; cbn; [repeat constructor|].
  destruct (ch_seq c <? ch_seq c') eqn:Hlt.
  - apply Z.ltb_lt in Hlt. constructor; [constructor; assumption | constructor; unfold seq_le; lia].
  - apply Z.ltb_ge in Hlt. constructor; [exact IH|].
    destruct l as [|c'' l]; cbn; [constructor; unfold seq_le; lia|].
    destruct (ch_seq c <? ch_seq c''); constructor; unfold seq_le in *;
      [lia | inversion Hhd; assumption].
Qed.

Lemma sort_by_seq_perm l : sort_by_seq l ≡ₚ l.
Proof.
  unfold sort_by_seq.
  assert (H : forall acc, fold_left (fun acc c => insert_by_seq c acc) l acc ≡ₚ l ++ acc).
  { induction l as [|c l IH]; intros acc; cbn; [reflexivity|].
    rewrite IH, insert_by_seq_perm. symmetry. apply Permutation_middle. }
  rewrite H, app_nil_r. reflexivity.
Qed.

Lemma sort_by_seq_sorted l : Sorted seq_le (sort_by_seq l).
Proof.
  unfold sort_by_seq.
  assert (H : forall acc, Sorted seq_le acc ->
                Sorted seq_le (fold_left (fun acc c => insert_by_seq c acc) l acc)).
  { induction l as [|c l IH]; intros acc Hacc; cbn; [exact Hacc|].
    apply IH, insert_by_seq_sorted, Hacc. }
  apply H. constructor.
Qed.

Lemma firstn_min_eq {A} (l : list A) a b :
  Nat.min a (length l) = Nat.min b (length l) -> firstn a l = firstn b l.
Proof.
  revert a b. induction l as [|x l IH]; intros a b H; cbn in *.
  - now rewrite !firstn_nil.
  - destruct a, b; cbn in *; try lia; [reflexivity|]. f_equal. apply IH. lia.
Qed.

(** The slice of chunk [i] is the [i]-th block of [ds] bytes. *)
Lemma js_slice_block (b : bytes) (i : nat) (ds : Z) :
  0 < ds ->
  js_slice b (Z.of_nat i * ds) (Z.min (Z.of_nat i * ds + ds) (Z.of_nat (length b)))
  = firstn (Z.to_nat ds) (skipn (i * Z.to_nat ds) b).
Proof.
  intros Hds. unfold js_slice.
  assert (Hs : Z.to_nat (Z.of_nat i * ds) = (i * Z.to_nat ds)%nat)
    by (rewrite Z2Nat.inj_mul, Nat2Z.id; lia).
  rewrite Hs. apply firstn_min_eq. rewrite length_skipn.
  rewrite <- Hs. assert (0 <= Z.of_nat i * ds) by nia.
  remember (Z.of_nat i * ds) as s eqn:Hs'. clear Hs Hs'. lia.
Qed.

Lemma concat_blocks (b : bytes) (ds n : nat) :
  (length b <= n * ds)%nat ->
  concat (map (fun i => firstn ds (skipn (i * ds) b)) (seq 0 n)) = b.
Proof.
  revert b. induction n as [|n IH]; intros b Hb.
  - cbn in *. destruct b; [reflexivity | cbn in Hb; lia].
  - rewrite <- cons_seq, <- seq_shift, map_cons, map_map. cbn [concat].
    rewrite Nat.mul_0_l, skipn_O.
    rewrite (map_ext _ (fun i => firstn ds (skipn (i * ds) (skipn ds b)))).
    + rewrite IH; [apply firstn_skipn | rewrite length_skipn; lia].
    + intros i. rewrite skipn_skipn. f_equal. f_equal. lia.
Qed.

Lemma Math_ceil_div_bounds a b :
  0 < b -> (Math_ceil_div a b - 1) * b < a <= Math_ceil_div a b * b.
Proof.
  intros Hb. unfold Math_ceil_div.
  pose proof (Z.div_mod (- a) b ltac:(lia)).
  pose proof (Z.mod_pos_bound (- a) b Hb).
  generalize dependent ((- a) / b). generalize dependent ((- a) mod b).
  intros r Hr q Hq. nia.
Qed.

Lemma mapM_decode_blocks (p : Prims) (HL : PrimsLaws p) (f : nat -> chunk)
    (piece : nat -> bytes) l :
  (forall n, ch_data (f n) = encodeBase64 p (piece n)) ->
  mapM (fun c => decodeBase64 p (ch_data c)) (map f l) = Some (map piece l).
Proof.
  intros Hf. induction l as [|n l IH]; cbn; [reflexivity|].
  rewrite Hf, (base64_roundtrip _ HL), IH. reflexivity.
Qed.

Lemma forallb_seq_combine (f : nat -> chunk) l :
  (forall n, ch_seq (f n) = Z.of_nat n) ->
  forallb (fun ic => ch_seq (snd ic) =? Z.of_nat (fst ic)) (combine l (map f l)) = true.
Proof.
  intros Hf. induction l as [|n l IH]; cbn; [reflexivity|].
  rewrite Hf, Z.eqb_refl, IH. reflexivity.
Qed.

(** [reassembleChunks] on any permutation of the chunks [f 0], ...,
    [f (n-1)] whose sequence numbers, kind, [msgId], [total] and data are as
    [chunkMessage] makes them. *)
Lemma reassemble_perm (p : Prims) (HL : PrimsLaws p) (f : nat -> chunk) (n : nat)
    (mid : string) (piece : nat -> bytes) (s : string) (v : json) l :
  (1 <= n)%nat ->
  (forall i, ch_seq (f i) = Z.of_nat i) ->
  (forall i, ch_kind (f i) = "dmesh-chunk"%string) ->
  (forall i, ch_msgId (f i) = mid) ->
  (forall i, ch_total (f i) = Z.of_nat n) ->
  (forall i, ch_data (f i) = encodeBase64 p (piece i)) ->
  encodeUTF8 p (concat (map piece (seq 0 n))) = Some s ->
  json_parse p s = Some v ->
  l ≡ₚ map f (seq 0 n) ->
  reassembleChunks p l = Some v.
Proof.
  intros Hn Hseq Hkind Hmid Htot Hdata Hutf Hjson Hperm.
  assert (Hsort : sort_by_seq l = map f (seq 0 n)).
  { apply (Sorted_unique_strong seq_le).
    - intros x1 x2 Hx1 Hx2 H12 H21.
      apply list_elem_of_In in Hx1, Hx2.
      apply (Permutation_in _ (sort_by_seq_perm l)), (Permutation_in _ Hperm) in Hx1.
      apply in_map_iff in Hx1 as (i1 & <- & _), Hx2 as (i2 & <- & _).
      unfold seq_le in H12, H21. rewrite !Hseq in H12, H21.
      f_equal. lia.
    - apply sort_by_seq_sorted.
    - clear -Hseq. generalize 0%nat as st.
      induction n as [|n IH]; intros st; cbn; constructor; [apply IH|].
      destruct n; cbn; constructor. unfold seq_le. rewrite !Hseq. lia.
    - rewrite sort_by_seq_perm. exact Hperm. }
  unfold reassembleChunks.
  destruct l as [|c l'] eqn:Hl.
  { apply Permutation_nil in Hperm. destruct n; [lia | discriminate]. }
  rewrite <- Hl in *.
  replace (forallb _ l) with true.
  2: { symmetry. apply forallb_forall. intros x Hx.
       apply (Permutation_in _ Hperm), in_map_iff in Hx as (i & <- & _).
       rewrite Hkind. reflexivity. }
  cbn [negb]. rewrite Hsort.
  assert (Htl : exists tl, map f (seq 0 n) = f 0%nat :: tl)
    by (destruct n; [lia | eexists; reflexivity]).
  destruct Htl as [tl Htl]. rewrite Htl. cbn iota beta zeta. rewrite <- Htl.
  rewrite length_map, length_seq.
  rewrite Htot, Z.eqb_refl, forallb_seq_combine by exact Hseq. cbn [negb].
  replace (forallb _ (map f (seq 0 n))) with true.
  2: { symmetry. apply forallb_forall. intros x Hx.
       apply in_map_iff in Hx as (i & <- & _). rewrite !Hmid. apply String.eqb_refl. }
  cbn [negb]. rewrite (mapM_decode_blocks p HL f piece _ Hdata), Hutf. exact Hjson.
Qed.

(** C7.  For every lawful instance of the primitives, every envelope [E]
    whose ciphertext decodes, and every chunk size [N > CHUNK_OVERHEAD]:
    [chunkMessage(E, N)] succeeds and produces [total] chunks, where
    [total = Math.ceil(len / (N - CHUNK_OVERHEAD))] for [len] the length of
    the UTF-8 serialization of [E] (equivalently,
    [(total - 1) * (N - CHUNK_OVERHEAD) < len <= total * (N - CHUNK_OVERHEAD)]);
    all chunks carry the same [msgId] and [total]; and [reassembleChunks]
    applied to these chunks in any order (any permutation) returns [E]. *)
Theorem C7_chunk_roundtrip (p : Prims) (HL : PrimsLaws p) (E : envelope) (N : Z) :
  decodeBase64 p (env_ciphertext E) <> None -> CHUNK_OVERHEAD < N ->
  exists cs,
    chunkMessage p (envelope_json E) N = Some cs /\
    let len := Z.of_nat (length (decodeUTF8 p (json_stringify p (envelope_json E)))) in
    let total := Z.of_nat (length cs) in
    total = Math_ceil_div len (N - CHUNK_OVERHEAD) /\
    (total - 1) * (N - CHUNK_OVERHEAD) < len <= total * (N - CHUNK_OVERHEAD) /\
    (exists mid, Forall (fun c => ch_msgId c = mid /\ ch_total c = total) cs) /\
    (forall l, l ≡ₚ cs -> reassembleChunks p l = Some (envelope_json E)).
Proof.
  intros Hct HN.
  assert (Hj : json_ciphertext (envelope_json E) = Some (env_ciphertext E))
    by (unfold json_ciphertext, envelope_json, json_get;
        destruct (env_msgId E), (env_exp E); reflexivity).
  destruct (decodeBase64 p (env_ciphertext E)) as [ct|] eqn:Hd; [|congruence].
  assert (Hds : 0 < N - CHUNK_OVERHEAD) by lia.
  eexists. split.
  { unfold chunkMessage. rewrite Hj, Hd.
    replace (N - CHUNK_OVERHEAD <=? 0) with false by (symmetry; apply Z.leb_gt; exact Hds).
    reflexivity. }
  cbv zeta.
  set (v := envelope_json E) in *.
  set (msgBytes := decodeUTF8 p (json_stringify p v)).
  set (ds := N - CHUNK_OVERHEAD) in *.
  assert (Hlen : 1 <= Z.of_nat (length msgBytes)).
  { pose proof (utf8_nonempty _ HL (json_stringify p v) (json_nonempty _ HL v)) as Hne.
    fold msgBytes in Hne. destruct msgBytes; [contradiction | cbn; lia]. }
  set (T := Math_ceil_div (Z.of_nat (length msgBytes)) ds).
  pose proof (Math_ceil_div_bounds (Z.of_nat (length msgBytes)) ds Hds) as [Hlo Hhi].
  fold T in Hlo, Hhi.
  assert (HT : 1 <= T) by nia.
  rewrite length_map, length_seq, Z2Nat.id by lia.
  split_and!; [reflexivity | exact Hlo | exact Hhi | |].
  - exists (encodeBase64 p (messageIdFromCiphertext p ct)). apply List.Forall_forall. intros c Hc.
    apply in_map_iff in Hc as (i & <- & _). split; reflexivity.
  - intros l Hl.
    eapply (reassemble_perm p HL _ (Z.to_nat T)
              (encodeBase64 p (messageIdFromCiphertext p ct))
              (fun i => js_slice msgBytes (Z.of_nat i * ds)
                          (Z.min (Z.of_nat i * ds + ds) (Z.of_nat (length msgBytes))))
              (json_stringify p v) v l).
    9: exact Hl.
    all: try (intros; reflexivity).
    + lia.
    + intros i. rewrite Z2Nat.id by lia. reflexivity.
    + rewrite (map_ext _ (fun i => firstn (Z.to_nat ds) (skipn (i * Z.to_nat ds) msgBytes)))
        by (intros i; apply js_slice_block, Hds).
      rewrite concat_blocks; [apply (utf8_roundtrip _ HL) | nia].
    + apply (json_roundtrip _ HL).
Qed.

(** The theorem on [Examples.toy_env] with chunks of at most 200 bytes. *)
Lemma C7_witness :
  exists cs,
    chunkMessage Toy.prims (envelope_json Examples.toy_env) 200 = Some cs /\
    let len := Z.of_nat (length (decodeUTF8 Toy.prims
                                   (json_stringify Toy.prims (envelope_json Examples.toy_env)))) in
    let total := Z.of_nat (length cs) in
    total = Math_ceil_div len (200 - CHUNK_OVERHEAD) /\
    (total - 1) * (200 - CHUNK_OVERHEAD) < len <= total * (200 - CHUNK_OVERHEAD) /\
    (exists mid, Forall (fun c => ch_msgId c = mid /\ ch_total c = total) cs) /\
    (forall l, l ≡ₚ cs -> reassembleChunks Toy.prims l = Some (envelope_json Examples.toy_env)).
Proof.
  apply (C7_chunk_roundtrip Toy.prims ToyLaws.prims_lawful Examples.toy_env 200).
  - vm_compute. discriminate.
  - vm_compute. reflexivity.
Defined.

(* ========================================================================= *)
(** ** C8: [storeChunk] *)

#[export] Instance key_order_total : Total key_order.
Proof. intros a b. unfold key_order. apply String.leb_total. Qed.

Lemma fold_left_map_fn {A B C} (f : A -> C -> A) (g : B -> C) (l : list B) a :
  fold_left f (map g l) a = fold_left (fun a x => f a (g x)) l a.
Proof. revert a. induction l as [|x l IH]; intros a; cbn; [reflexivity | apply IH]. Qed.

Lemma lookup_fold_delete (ks : list string) (m : chunk_store) i :
  fold_left (fun s k => delete k s) ks m !! i =
  if in_dec String.string_dec i ks then None else m !! i.
Proof.
  revert m. induction ks as [|k ks IH]; intros m; cbn [fold_left]; [reflexivity|].
  rewrite IH.
  destruct (in_dec String.string_dec i ks) as [Hin|Hnin];
    destruct (in_dec String.string_dec i (k :: ks)) as [Hin'|Hnin']; cbn in *;
    try reflexivity; try tauto.
  destruct (String.string_dec k i) as [->|Hne].
  - apply lookup_delete_eq.
  - destruct Hin' as [|]; [contradiction | tauto].
  - apply lookup_delete_ne. intros ->. tauto.
Qed.

(** C8 (counterexample).  A lone chunk with [seq = 5] and [total = 1],
    stored in an empty store, makes [storeChunk] return a non-null set,
    though [5] is not in [[0, 1)]; and when the chunks [0], ..., [10] of an
    eleven-chunk message are stored in order, the set returned on the last
    one is ordered [0, 1, 10, 2, ..., 9], not by sequence number. *)
Lemma C8_counterexample :
  option_map (map ch_seq) (fst (storeChunk 0 (ChunkExamples.mk_chunk 5 1) ∅)) = Some [5] /\
  option_map (map ch_seq) (fst (ChunkExamples.store_all ChunkExamples.eleven ∅))
    = Some [0; 1; 10; 2; 3; 4; 5; 6; 7; 8; 9].
Proof. split; vm_compute; reflexivity. Qed.

(** C8 (amended).  For every store in which each entry sits under its own
    [chunkKey], every chunk [c] and time [now]: let [st1] be the store after
    [c]'s entry is put under the key [`${msgId}:${seq}`] (replacing an entry
    with the same key), and [mine] the entries of [st1] with [c]'s [msgId].
    [storeChunk] returns a non-null result exactly when the number of
    entries in [mine] (distinct keys, whatever their [seq] values) equals
    [c.total].  In that case it deletes exactly the entries of [mine] and
    returns them in the order of their key strings (a permutation of
    [mine], sorted by key); otherwise it returns [null] and leaves [st1]. *)
Theorem C8_storeChunk_complete (now : Z) (c : chunk) (st : chunk_store) :
  chunk_store_wf st ->
  let st1 := <[chunkKey_of c := entry_of_chunk now c]> st in
  let mine := filter (fun kv : string * chunk_entry => ce_msgId kv.2 = ch_msgId c) st1 in
  (is_Some (fst (storeChunk now c st)) <-> Z.of_nat (size mine) = ch_total c) /\
  (forall cs st', storeChunk now c st = (Some cs, st') ->
     st' = filter (fun kv : string * chunk_entry => ce_msgId kv.2 <> ch_msgId c) st1 /\
     exists L, L ≡ₚ map_to_list mine /\ Sorted key_order L /\
               cs = map (fun kv => chunk_of_entry kv.2) L) /\
  (forall st', storeChunk now c st = (None, st') -> st' = st1).
Proof.
  intros Hwf st1 mine.
  assert (Hwf1 : chunk_store_wf st1) by (apply map_Forall_insert_2; [reflexivity | exact Hwf]).
  set (L := merge_sort key_order (map_to_list mine)).
  assert (HLp : L ≡ₚ map_to_list mine) by apply merge_sort_Permutation.
  assert (HLs : Sorted key_order L) by (apply Sorted_merge_sort; exact key_order_total).
  assert (Hlen : length (map snd L) = size mine)
    by (rewrite length_map, HLp; apply length_map_to_list).
  unfold storeChunk, idbGetByIndex_chunks. cbv zeta. fold st1 mine L.
  destruct (Z.of_nat (length (map snd L)) =? ch_total c) eqn:Heq.
  - apply Z.eqb_eq in Heq. rewrite Hlen in Heq.
    split_and!; [split; [intros _; exact Heq | intros _; eexists; reflexivity] | |
                 intros st' Hc; discriminate Hc].
    intros cs st' Hc. injection Hc as <- <-. split.
    + apply map_eq. intros i.
      rewrite <- (fold_left_map_fn (fun s k => delete k s) ce_chunkKey).
      rewrite lookup_fold_delete, map_lookup_filter.
      destruct (st1 !! i) as [e|] eqn:Hi; cbn;
        [|destruct (in_dec _ _ _); reflexivity].
      assert (Hk : ce_chunkKey e = i) by exact (map_Forall_lookup_1 _ _ _ _ Hwf1 Hi).
      destruct (in_dec String.string_dec i (map ce_chunkKey (map snd L))) as [Hin|Hnin].
      * apply in_map_iff in Hin as (e' & Hk' & Hin).
        apply in_map_iff in Hin as ([k e''] & <- & Hin). cbn in Hk'.
        apply list_elem_of_In in Hin. rewrite HLp in Hin.
        apply elem_of_map_to_list, map_lookup_filter_Some in Hin as [Hst Hm].
        cbn in Hm. rewrite (map_Forall_lookup_1 _ _ _ _ Hwf1 Hst) in Hk'. subst k.
        rewrite Hi in Hst. injection Hst as <-.
        rewrite option_guard_False by (intros Hne; exact (Hne Hm)). reflexivity.
      * destruct (decide (ce_msgId e = ch_msgId c)) as [Hm|Hm].
        -- exfalso. apply Hnin. apply in_map_iff. exists e. split; [exact Hk|].
           apply in_map_iff. exists (i, e). split; [reflexivity|].
           apply list_elem_of_In. rewrite HLp.
           apply elem_of_map_to_list, map_lookup_filter_Some. split; [exact Hi | exact Hm].
        -- rewrite option_guard_True by exact Hm. reflexivity.
    + exists L. split_and!; [exact HLp | exact HLs | apply map_map].
  - split_and!.
    + split; [intros [? Hc]; discriminate Hc|].
      intros H. apply Z.eqb_neq in Heq. rewrite Hlen in Heq. contradiction.
    + intros cs st' Hc. discriminate Hc.
    + intros st' Hc. injection Hc as <-. reflexivity.
Qed.

(** The theorem on the last chunk of the eleven, stored next to chunk [0]
    of another message (the complete set, ordered by key), and on chunk [1]
    of a three-chunk message whose chunk [0] is stored (still pending). *)
Lemma C8_witness :
  (let c := ChunkExamples.mk_chunk 10 11 in
   chunk_store_wf ChunkExamples.st_ten /\
   option_map (map ch_seq) (fst (storeChunk 0 c ChunkExamples.st_ten)) = Some [0; 1; 10; 2; 3; 4; 5; 6; 7; 8; 9] /\
   let st1 := <[chunkKey_of c := entry_of_chunk 0 c]> ChunkExamples.st_ten in
   let mine := filter (fun kv : string * chunk_entry => ce_msgId kv.2 = ch_msgId c) st1 in
   (is_Some (fst (storeChunk 0 c ChunkExamples.st_ten)) <-> Z.of_nat (size mine) = ch_total c) /\
   (forall cs st', storeChunk 0 c ChunkExamples.st_ten = (Some cs, st') ->
      st' = filter (fun kv : string * chunk_entry => ce_msgId kv.2 <> ch_msgId c) st1 /\
      exists L, L ≡ₚ map_to_list mine /\ Sorted key_order L /\
                cs = map (fun kv => chunk_of_entry kv.2) L) /\
   (forall st', storeChunk 0 c ChunkExamples.st_ten = (None, st') -> st' = st1)) /\
  (let c := ChunkExamples.mk_chunk 1 3 in
   chunk_store_wf ChunkExamples.st_one /\
   fst (storeChunk 0 c ChunkExamples.st_one) = None /\
   let st1 := <[chunkKey_of c := entry_of_chunk 0 c]> ChunkExamples.st_one in
   let mine := filter (fun kv : string * chunk_entry => ce_msgId kv.2 = ch_msgId c) st1 in
   (is_Some (fst (storeChunk 0 c ChunkExamples.st_one)) <-> Z.of_nat (size mine) = ch_total c) /\
   (forall cs st', storeChunk 0 c ChunkExamples.st_one = (Some cs, st') ->
      st' = filter (fun kv : string * chunk_entry => ce_msgId kv.2 <> ch_msgId c) st1 /\
      exists L, L ≡ₚ map_to_list mine /\ Sorted key_order L /\
                cs = map (fun kv => chunk_of_entry kv.2) L) /\
   (forall st', storeChunk 0 c ChunkExamples.st_one = (None, st') -> st' = st1)).
Proof.
  assert (Hten : chunk_store_wf ChunkExamples.st_ten)
    by (unfold chunk_store_wf; apply (bool_decide_unpack _); vm_compute; reflexivity).
  assert (Hone : chunk_store_wf ChunkExamples.st_one)
    by (unfold chunk_store_wf; apply (bool_decide_unpack _); vm_compute; reflexivity).
  split; cbv zeta; split_and!; try assumption; try (vm_compute; reflexivity).
  - apply (C8_storeChunk_complete 0 (ChunkExamples.mk_chunk 10 11) ChunkExamples.st_ten Hten).
  - apply (C8_storeChunk_complete 0 (ChunkExamples.mk_chunk 10 11) ChunkExamples.st_ten Hten).
  - apply (C8_storeChunk_complete 0 (ChunkExamples.mk_chunk 10 11) ChunkExamples.st_ten Hten).
  - apply (C8_storeChunk_complete 0 (ChunkExamples.mk_chunk 1 3) ChunkExamples.st_one Hone).
  - apply (C8_storeChunk_complete 0 (ChunkExamples.mk_chunk 1 3) ChunkExamples.st_one Hone).
  - apply (C8_storeChunk_complete 0 (ChunkExamples.mk_chunk 1 3) ChunkExamples.st_one Hone).
Defined.

(* ------------------------------------------------------------------------- *)
(** ** C9: safety numbers *)

Lemma Z_of_byte_bounds (x : byte) : 0 <= Z_of_byte x < 256.
Proof. unfold Z_of_byte. pose proof (Byte.to_N_bounded x). lia. Qed.

Lemma Z_of_byte_of_Z (z : Z) : Z_of_byte (byte_of_Z z) = z mod 256.
Proof.
  unfold byte_of_Z, Z_of_byte. pose proof (Z.mod_pos_bound z 256).
  destruct (Byte.of_N (Z.to_N (z mod 256))) eqn:E.
  - apply Byte.to_of_N in E. rewrite E. lia.
  - apply Byte.of_N_None_iff in E. lia.
Qed.

Lemma lxor_byte_mod (x y : byte) :
  Z.lxor (Z_of_byte x) (Z_of_byte y) mod 256 = Z.lxor (Z_of_byte x) (Z_of_byte y).
Proof.
  pose proof (Z_of_byte_bounds x). pose proof (Z_of_byte_bounds y).
  assert (Hs : Z.shiftr (Z.lxor (Z_of_byte x) (Z_of_byte y)) 8 = 0).
  { rewrite Z.shiftr_lxor, !Z.shiftr_div_pow2 by lia.
    rewrite !Z.div_small by (cbn; lia). reflexivity. }
  rewrite Z.shiftr_div_pow2 in Hs by lia. change (2 ^ 8) with 256 in Hs.
  assert (0 <= Z.lxor (Z_of_byte x) (Z_of_byte y))
    by (apply Z.lxor_nonneg; split; intros; lia).
  set (z := Z.lxor (Z_of_byte x) (Z_of_byte y)) in *.
  pose proof (Z.div_mod z 256 ltac:(lia)).
  pose proof (Z.mod_pos_bound z 256 ltac:(lia)).
  apply Z.mod_small. lia.
Qed.

(** The XOR of the sorted pair does not depend on the order. *)
Lemma generateSafetyNumber_unsorted (a b : bytes) :
  generateSafetyNumber a b =
  (let combined := map (fun i => byte_of_Z (Z.lxor (byte_at a i) (byte_at b i))) (seq 0 16) in
   let num := getUint32_be combined mod 100000000 in
   let padded := padStart (js_number_toString num) 8 "0" in
   substring 0 4 padded ++ "-" ++ substring 4 (String.length padded - 4) padded)%string.
Proof.
  assert (Hc : map (fun i => byte_of_Z (Z.lxor (byte_at b i) (byte_at a i))) (seq 0 16) =
               map (fun i => byte_of_Z (Z.lxor (byte_at a i) (byte_at b i))) (seq 0 16)).
  { apply map_ext. intros i. rewrite Z.lxor_comm. reflexivity. }
  unfold generateSafetyNumber, sort2.
  destruct (0 <? fp_cmp a b); cbv beta iota zeta; [rewrite Hc|]; reflexivity.
Qed.

Lemma safety_number_spec_unsorted (a b : bytes) :
  safety_number_spec a b =
  (let x := map (fun '(p, q) => Z.lxor (Z_of_byte p) (Z_of_byte q)) (combine a b) in
   let u := fold_left (fun acc v => acc * 256 + v) (firstn 4 x) 0 in
   let ds := decimal_digits 8 (u mod 100000000) in
   string_of_list_ascii (firstn 4 ds) ++ "-" ++ string_of_list_ascii (skipn 4 ds))%string.
Proof.
  assert (Hc : forall l1 l2 : bytes,
    map (fun '(p, q) => Z.lxor (Z_of_byte p) (Z_of_byte q)) (combine l2 l1) =
    map (fun '(p, q) => Z.lxor (Z_of_byte p) (Z_of_byte q)) (combine l1 l2)).
  { induction l1 as [|x l1 IH]; intros [|y l2]; cbn; try reflexivity.
    rewrite IH, Z.lxor_comm. reflexivity. }
  unfold safety_number_spec.
  destruct (lex_leb a b); cbv beta iota zeta; [|rewrite Hc]; reflexivity.
Qed.

Lemma length_string_of_list_ascii (l : list ascii) :
  String.length (string_of_list_ascii l) = length l.
Proof. induction l as [|c l IH]; cbn; [reflexivity | rewrite IH; reflexivity]. Qed.

Lemma string_of_list_ascii_app (l1 l2 : list ascii) :
  (string_of_list_ascii l1 ++ string_of_list_ascii l2)%string = string_of_list_ascii (l1 ++ l2).
Proof. induction l1 as [|c l IH]; cbn; [reflexivity | rewrite IH; reflexivity]. Qed.

Lemma length_decimal_digits k n : length (decimal_digits k n) = k.
Proof.
  revert n. induction k as [|k IH]; intros n; cbn; [reflexivity|].
  rewrite length_app, IH. cbn. lia.
Qed.

Lemma decimal_digits_0 k : decimal_digits k 0 = repeat "0"%char k.
Proof.
  induction k as [|k IH]; cbn [decimal_digits]; [reflexivity|].
  change (0 / 10) with 0. rewrite IH.
  change (repeat "0"%char k ++ ["0"%char] = "0"%char :: repeat "0"%char k).
  rewrite repeat_cons. reflexivity.
Qed.

(** Left-padding the decimal digits of [n < 10^k] with zeros to [k] places
    gives its [k] low decimal digits. *)
Lemma pad_dec_digits k fuel n :
  (k <= fuel)%nat -> 0 <= n < 10 ^ Z.of_nat k ->
  repeat "0"%char (k - length (dec_digits fuel n)) ++ dec_digits fuel n = decimal_digits k n.
Proof.
  revert fuel n. induction k as [|k IH]; intros fuel n Hk Hn.
  - assert (n = 0) as -> by (cbn in Hn; lia).
    destruct fuel; reflexivity.
  - destruct fuel as [|f]; [lia|].
    cbn [dec_digits decimal_digits].
    destruct (Z.eqb_spec n 0) as [->|Hn0].
    + cbn [length]. rewrite Nat.sub_0_r, app_nil_r.
      change (0 / 10) with 0. rewrite decimal_digits_0.
      change (digit_char (0 mod 10)) with "0"%char.
      change (repeat "0"%char (S k)) with ("0"%char :: repeat "0"%char k).
      apply repeat_cons.
    + rewrite length_app. cbn [length].
      replace (S k - (length (dec_digits f (n / 10)) + 1))%nat
        with (k - length (dec_digits f (n / 10)))%nat by lia.
      rewrite app_assoc, IH; [reflexivity | lia |].
      rewrite Nat2Z.inj_succ, Z.pow_succ_r in Hn by lia.
      split; [apply Z.div_pos; lia | apply Z.div_lt_upper_bound; lia].
Qed.

Lemma padStart_toString n :
  0 <= n < 100000000 ->
  padStart (js_number_toString n) 8 "0" = string_of_list_ascii (decimal_digits 8 n).
Proof.
  intros Hn. unfold js_number_toString, padStart.
  destruct (Z.eqb_spec n 0) as [->|Hn0]; [reflexivity|].
  rewrite length_string_of_list_ascii, string_of_list_ascii_app.
  rewrite pad_dec_digits; [reflexivity | lia | cbn; lia].
Qed.

Lemma substring_8 (l : list ascii) :
  length l = 8%nat ->
  (substring 0 4 (string_of_list_ascii l) ++ "-" ++
   substring 4 (String.length (string_of_list_ascii l) - 4) (string_of_list_ascii l))%string =
  (string_of_list_ascii (firstn 4 l) ++ "-" ++ string_of_list_ascii (skipn 4 l))%string.
Proof.
  intros Hl.
  do 8 (destruct l as [|? l]; [discriminate Hl|]).
  destruct l; [reflexivity | discriminate Hl].
Qed.

(** C9: the safety number is symmetric, and it is the eight decimal digits
    [NNNN-NNNN] of the big-endian uint32 of the first four bytes of the XOR of
    the lexicographically sorted fingerprints, modulo [100_000_000]. *)
Theorem C9_safety_number (a b : bytes) :
  length a = 16%nat -> length b = 16%nat ->
  generateSafetyNumber a b = generateSafetyNumber b a /\
  generateSafetyNumber a b = safety_number_spec a b.
Proof.
  intros Ha Hb. split.
  - rewrite !generateSafetyNumber_unsorted.
    assert (Hc : map (fun i => byte_of_Z (Z.lxor (byte_at b i) (byte_at a i))) (seq 0 16) =
                 map (fun i => byte_of_Z (Z.lxor (byte_at a i) (byte_at b i))) (seq 0 16)).
    { apply map_ext. intros i. rewrite Z.lxor_comm. reflexivity. }
    cbv zeta. rewrite Hc. reflexivity.
  - rewrite generateSafetyNumber_unsorted, safety_number_spec_unsorted. cbv zeta.
    set (u := fold_left _ _ 0).
    assert (Hu : getUint32_be (map (fun i => byte_of_Z (Z.lxor (byte_at a i) (byte_at b i)))
                                   (seq 0 16)) = u).
    { subst u.
      do 4 (destruct a as [|? a]; [discriminate Ha|]).
      do 4 (destruct b as [|? b]; [discriminate Hb|]).
      unfold getUint32_be, byte_at. cbn [seq map nth_error combine firstn fold_left].
      rewrite !Z_of_byte_of_Z, !lxor_byte_mod.
      rewrite ?firstn_O, ?take_0. cbn [fold_left]. lia. }
    rewrite Hu, padStart_toString by (apply Z.mod_pos_bound; lia).
    apply substring_8, length_decimal_digits.
Qed.

(** The theorem on two concrete 16-byte fingerprints. *)
Lemma C9_witness :
  let a := map (fun i => byte_of_Z (Z.of_nat (i * 17 + 3))) (seq 0 16) in
  let b := map (fun i => byte_of_Z (Z.of_nat (i * 31 + 5))) (seq 0 16) in
  length a = 16%nat /\ length b = 16%nat /\
  generateSafetyNumber a b = generateSafetyNumber b a /\
  generateSafetyNumber a b = safety_number_spec a b.
Proof.
  cbv zeta.
  split; [reflexivity|]. split; [reflexivity|].
  apply C9_safety_number; reflexivity.
Defined.

(* ========================================================================= *)
(** ** C10: recorded contact keys *)




(* ------------------------------------------------------------------------- *)
(** ** Further properties of the code *)

(** The big-endian fold from an accumulator. *)
Lemma be_fold (l : bytes) acc :
  fold_left (fun acc b => acc * 256 + Z_of_byte b) l acc =
  acc * 256 ^ Z.of_nat (length l) + be_to_Z l.
Proof.
  unfold be_to_Z. revert acc. induction l as [|x l IH]; intros acc; cbn [fold_left length].
  - cbn. lia.
  - rewrite IH, (IH (0 * 256 + Z_of_byte x)). rewrite Nat2Z.inj_succ, Z.pow_succ_r by lia. ring.
Qed.

(** The big-endian value of a concatenation. *)
Lemma be_to_Z_app l1 l2 :
  be_to_Z (l1 ++ l2) = be_to_Z l1 * 256 ^ Z.of_nat (length l2) + be_to_Z l2.
Proof. unfold be_to_Z at 1. rewrite fold_left_app. apply be_fold. Qed.

(** [u32be n] is four bytes holding [n mod 2^32], most significant first. *)
Lemma u32be_value n : length (u32be n) = 4%nat /\ be_to_Z (u32be n) = n mod 2 ^ 32.
Proof.
  split; [reflexivity|].
  unfold u32be, be_to_Z. cbn [fold_left].
  rewrite !Z_of_byte_of_Z, !Z.shiftr_div_pow2 by lia.
  pose proof (Z.mod_pos_bound n (2 ^ 32) ltac:(lia)).
  set (m := n mod 2 ^ 32) in *. clearbody m.
  change (2 ^ 24) with (256 * 256 * 256). change (2 ^ 16) with (256 * 256).
  change (2 ^ 8) with 256. change (2 ^ 32) with (256 * 256 * 256 * 256) in H.
  rewrite <- !Z.div_div by lia.
  pose proof (Z.div_mod m 256 ltac:(lia)).
  pose proof (Z.div_mod (m / 256) 256 ltac:(lia)).
  pose proof (Z.div_mod (m / 256 / 256) 256 ltac:(lia)).
  pose proof (Z.mod_pos_bound m 256 ltac:(lia)).
  pose proof (Z.mod_pos_bound (m / 256) 256 ltac:(lia)).
  pose proof (Z.mod_pos_bound (m / 256 / 256) 256 ltac:(lia)).
  assert (Hc : m / 256 / 256 / 256 < 256).
  { rewrite !Z.div_div by lia. apply Z.div_lt_upper_bound; lia. }
  assert (0 <= m / 256 / 256 / 256) by (apply Z.div_pos; [apply Z.div_pos; [apply Z.div_pos|]|]; lia).
  rewrite (Z.mod_small (m / 256 / 256 / 256)) by lia.
  lia.
Qed.

(** Two words [F / 2^32] and [F], big-endian, hold [F mod 2^64]. *)
Lemma u64_words F : be_to_Z (u32be (F / 2 ^ 32) ++ u32be F) = F mod 2 ^ 64.
Proof.
  rewrite be_to_Z_app.
  destruct (u32be_value (F / 2 ^ 32)) as [_ ->]. destruct (u32be_value F) as [Hl ->].
  rewrite Hl. change (2 ^ 64) with (2 ^ 32 * 2 ^ 32).
  pose proof (Z.div_mod F (2 ^ 32) ltac:(lia)).
  pose proof (Z.div_mod (F / 2 ^ 32) (2 ^ 32) ltac:(lia)).
  pose proof (Z.mod_pos_bound F (2 ^ 32) ltac:(lia)).
  pose proof (Z.mod_pos_bound (F / 2 ^ 32) (2 ^ 32) ltac:(lia)).
  apply (Z.mod_unique F _ (F / 2 ^ 32 / 2 ^ 32)).
  - left. cbn in *. lia.
  - cbn in *. lia.
Qed.

(** [Math.floor(ts / 2^32)] is [Math.floor(ts)] divided by [2^32]. *)
Lemma Qfloor_div_2_32 (ts : Q) : Qfloor (ts / inject_Z (2 ^ 32)) = Qfloor ts / 2 ^ 32.
Proof.
  destruct ts as [n d]. unfold Qfloor, Qdiv, Qmult, Qinv, inject_Z. cbn [Qnum Qden].
  change (2 ^ 32) with (Zpos 4294967296). cbn [Qnum Qden].
  rewrite Z.mul_1_r, Pos2Z.inj_mul, Z.div_div by lia. reflexivity.
Qed.

(** A non-negative [ts] is truncated to [Math.floor(ts)]: eight bytes
    holding [Math.floor(ts) mod 2^64]. *)
Lemma u64be_value_nonneg (ts : Q) :
  (0 <= ts)%Q ->
  length (u64beFromNumber ts) = 8%nat /\ be_to_Z (u64beFromNumber ts) = Qfloor ts mod 2 ^ 64.
Proof.
  intros H. split; [reflexivity|].
  unfold u64beFromNumber. rewrite Qfloor_div_2_32.
  destruct ts as [n d]. unfold Qle in H. cbn [Qnum Qden] in *.
  rewrite Z.quot_div_nonneg by lia. apply u64_words.
Qed.

(** For an integer [ts], [u64beFromNumber ts] is eight bytes holding
    [ts mod 2^64]. *)
Lemma u64be_value ts :
  length (u64beFromNumber (inject_Z ts)) = 8%nat /\
  be_to_Z (u64beFromNumber (inject_Z ts)) = ts mod 2 ^ 64.
Proof.
  split; [reflexivity|].
  unfold u64beFromNumber. rewrite Qfloor_div_2_32, Qfloor_Z. cbn [inject_Z Qnum Qden].
  rewrite Z.quot_1_r. apply u64_words.
Qed.

(** Reading below [n] does not see past a prefix of length [n]. *)
Lemma byte_at_firstn (l : bytes) n i : (i < n)%nat -> byte_at (firstn n l) i = byte_at l i.
Proof. intros Hi. unfold byte_at. rewrite nth_error_firstn. destruct (Nat.ltb_spec i n); [reflexivity | lia]. Qed.


(** The digits written are decimal digits. *)
Lemma decimal_digits_digits k n : Forall (fun c => is_digit c = true) (decimal_digits k n).
Proof.
  revert n. induction k as [|k IH]; intros n; cbn [decimal_digits]; [constructor|].
  apply Forall_app. split; [apply IH|]. constructor; [|constructor].
  unfold is_digit, digit_char. pose proof (Z.mod_pos_bound n 10 ltac:(lia)).
  rewrite nat_ascii_embedding by lia.
  apply andb_true_intro. split; apply Nat.leb_le; lia.
Qed.

(** A safety number is eight decimal digits with a dash after the fourth. *)
Lemma generateSafetyNumber_shape (a b : bytes) :
  exists ds, length ds = 8%nat /\ Forall (fun c => is_digit c = true) ds /\
  generateSafetyNumber a b =
  (string_of_list_ascii (firstn 4 ds) ++ "-" ++ string_of_list_ascii (skipn 4 ds))%string.
Proof.
  rewrite generateSafetyNumber_unsorted. cbv zeta.
  rewrite padStart_toString by (apply Z.mod_pos_bound; lia).
  rewrite substring_8 by apply length_decimal_digits.
  eexists. split_and!; [apply length_decimal_digits | apply decimal_digits_digits | reflexivity].
Qed.

(** Every safety number has nine characters: a dash at index 4 and a
    decimal digit everywhere else. *)
Theorem generateSafetyNumber_format (a b : bytes) :
  let s := generateSafetyNumber a b in
  String.length s = 9%nat /\ String.get 4 s = Some "-"%char /\
  (forall i c, i <> 4%nat -> String.get i s = Some c -> is_digit c = true).
Proof.
  cbv zeta. destruct (generateSafetyNumber_shape a b) as (ds & Hl & Hd & ->).
  do 8 (destruct ds as [|? ds]; [discriminate Hl|]). destruct ds; [|discriminate Hl].
  repeat match goal with H : Forall _ (_ :: _) |- _ => inversion H; subst; clear H end.
  split_and!; [reflexivity | reflexivity|].
  intros i c Hi Hg.
  do 9 (destruct i as [|i]; [cbn in Hg; injection Hg as <-; assumption || lia|]).
  cbn in Hg. destruct i; discriminate Hg.
Qed.

(** The safety number depends on the first four bytes of each fingerprint
    only: fingerprints that agree there give the same number. *)
Theorem generateSafetyNumber_first4 (a a' b b' : bytes) :
  firstn 4 a = firstn 4 a' -> firstn 4 b = firstn 4 b' ->
  generateSafetyNumber a b = generateSafetyNumber a' b'.
Proof.
  intros Ha Hb. rewrite !generateSafetyNumber_unsorted. cbv zeta.
  assert (Hx : forall (l l' : bytes) i, firstn 4 l = firstn 4 l' -> (i < 4)%nat ->
                 byte_at l i = byte_at l' i).
  { intros l l' i Hl Hi. rewrite <- (byte_at_firstn l 4 i Hi), <- (byte_at_firstn l' 4 i Hi), Hl.
    reflexivity. }
  assert (Hg : getUint32_be (map (fun i => byte_of_Z (Z.lxor (byte_at a i) (byte_at b i))) (seq 0 16)) =
               getUint32_be (map (fun i => byte_of_Z (Z.lxor (byte_at a' i) (byte_at b' i))) (seq 0 16))).
  { unfold getUint32_be. cbn [seq map]. 
    rewrite (Hx a a' 0%nat), (Hx a a' 1%nat), (Hx a a' 2%nat), (Hx a a' 3%nat),
      (Hx b b' 0%nat), (Hx b b' 1%nat), (Hx b b' 2%nat), (Hx b b' 3%nat) by (assumption || lia).
    reflexivity. }
  rewrite Hg. reflexivity.
Qed.

(** Deleting, one after the other, the keys of the listed entries that are
    old, as [cleanupSeen] and [cleanupOldChunks] do. *)
Section CondDelete.
Context {A : Type} (key : A -> string) (old : A -> bool).

Lemma lookup_fold_cond_delete (L : list A) (m : gmap string A) i :
  fold_left (fun m e => if old e then delete (key e) m else m) L m !! i =
  if existsb (fun e => old e && String.eqb (key e) i) L then None else m !! i.
Proof.
  revert m. induction L as [|x L IH]; intros m; cbn [fold_left existsb]; [reflexivity|].
  rewrite IH. destruct (existsb _ L); [rewrite orb_true_r; reflexivity|].
  rewrite orb_false_r. destruct (old x); cbn [andb]; [|reflexivity].
  destruct (String.eqb_spec (key x) i) as [<-|Hne].
  - apply lookup_delete_eq.
  - apply lookup_delete_ne. exact Hne.
Qed.

Lemma lookup_cleanup (L : list A) (m : gmap string A) i :
  (forall k e, m !! k = Some e -> key e = k) ->
  (forall e, In e L <-> exists k, m !! k = Some e) ->
  fold_left (fun m e => if old e then delete (key e) m else m) L m !! i =
  filter (fun kv : string * A => old kv.2 = false) m !! i.
Proof.
  intros Hwf Hmem. rewrite lookup_fold_cond_delete, map_lookup_filter.
  destruct (m !! i) as [e|] eqn:Hi; cbn.
  - destruct (existsb _ L) eqn:Hex.
    + apply existsb_exists in Hex as (e' & Hin & He').
      apply andb_true_iff in He' as [Ho Hk]. apply String.eqb_eq in Hk.
      apply Hmem in Hin as (k & Hk').
      pose proof (Hwf _ _ Hk') as Hke. rewrite Hk in Hke. subst k.
      rewrite Hi in Hk'. injection Hk' as ->.
      rewrite option_guard_False; [reflexivity|]. congruence.
    + destruct (old e) eqn:Ho.
      * exfalso. assert (Hin : In e L) by (apply Hmem; eauto).
        assert (existsb (fun e => old e && String.eqb (key e) i) L = true) as Hc.
        { apply existsb_exists. exists e. split; [exact Hin|].
          rewrite Ho, (Hwf _ _ Hi), String.eqb_refl. reflexivity. }
        congruence.
      * rewrite option_guard_True by reflexivity. reflexivity.
  - destruct (existsb _ L); reflexivity.
Qed.

End CondDelete.

(** [idbGetAll(STORE_SEEN)] lists exactly the stored entries. *)
Lemma idbGetAll_seen_In d e : In e (idbGetAll_seen d) <-> exists k, db_seen d !! k = Some e.
Proof.
  unfold idbGetAll_seen. rewrite in_map_iff. split.
  - intros ([k e'] & <- & Hin). exists k. cbn.
    apply elem_of_map_to_list. apply list_elem_of_In.
    eapply Permutation_in; [apply (merge_sort_Permutation seen_key_order) | exact Hin].
  - intros (k & Hk). exists (k, e). split; [reflexivity|].
    eapply Permutation_in; [apply Permutation_sym, (merge_sort_Permutation seen_key_order)|].
    apply list_elem_of_In, elem_of_map_to_list. exact Hk.
Qed.

(** The deletions of [cleanupSeen] touch the [seen] store only. *)
Lemma cleanupSeen_fold (old : seen_entry -> bool) L d :
  fold_left (fun d e => if old e then idbDel_seen (se_seenKey e) d else d) L d =
  {| db_seen := fold_left (fun m e => if old e then delete (se_seenKey e) m else m) L (db_seen d);
     db_inbox := db_inbox d |}.
Proof.
  revert d. induction L as [|x L IH]; intros d; cbn [fold_left].
  - destruct d; reflexivity.
  - rewrite IH. destruct (old x); reflexivity.
Qed.

(** In a [seen] store whose entries sit under their own [seenKey],
    [cleanupSeen] keeps exactly the entries seen at or after the cutoff
    [now - maxAgeMs] and leaves the inbox as it is. *)
Theorem cleanupSeen_filter now maxAgeMs d :
  seen_wf d ->
  let cutoff := now - match maxAgeMs with Some m => m | None => SEEN_RETENTION_MS end in
  db_seen (cleanupSeen now maxAgeMs d) = filter (fun kv => cutoff <= se_seenAt kv.2) (db_seen d) /\
  db_inbox (cleanupSeen now maxAgeMs d) = db_inbox d.
Proof.
  intros Hwf cutoff. unfold cleanupSeen. fold cutoff. rewrite cleanupSeen_fold. cbn.
  split; [|reflexivity].
  apply map_eq. intros i.
  rewrite (lookup_cleanup se_seenKey (fun e => se_seenAt e <? cutoff)).
  - rewrite !map_lookup_filter. destruct (db_seen d !! i); cbn; [|reflexivity].
    destruct (Z.ltb_spec (se_seenAt s) cutoff).
    + rewrite !option_guard_False by lia. reflexivity.
    + rewrite !option_guard_True by lia. reflexivity.
  - intros k e Hk. exact (map_Forall_lookup_1 _ _ _ _ Hwf Hk).
  - apply idbGetAll_seen_In.
Qed.

(** [idbGetAll(STORE_CHUNKS)] lists exactly the stored entries. *)
Lemma idbGetAll_chunks_In st e : In e (idbGetAll_chunks st) <-> exists k, st !! k = Some e.
Proof.
  unfold idbGetAll_chunks. rewrite in_map_iff. split.
  - intros ([k e'] & <- & Hin). exists k. cbn.
    apply elem_of_map_to_list. apply list_elem_of_In.
    eapply Permutation_in; [apply (merge_sort_Permutation key_order) | exact Hin].
  - intros (k & Hk). exists (k, e). split; [reflexivity|].
    eapply Permutation_in; [apply Permutation_sym, (merge_sort_Permutation key_order)|].
    apply list_elem_of_In, elem_of_map_to_list. exact Hk.
Qed.

(** In a chunk store whose entries sit under their own [chunkKey],
    [cleanupOldChunks] keeps exactly the entries received at or after the
    cutoff [now - maxAgeMs]. *)
Theorem cleanupOldChunks_filter now maxAgeMs st :
  chunk_store_wf st ->
  let cutoff := now - match maxAgeMs with Some m => m | None => 24 * 60 * 60 * 1000 end in
  cleanupOldChunks now maxAgeMs st = filter (fun kv => cutoff <= ce_receivedAt kv.2) st.
Proof.
  intros Hwf cutoff. unfold cleanupOldChunks. fold cutoff.
  apply map_eq. intros i.
  rewrite (lookup_cleanup ce_chunkKey (fun e => ce_receivedAt e <? cutoff)).
  - rewrite !map_lookup_filter. destruct (st !! i); cbn; [|reflexivity].
    destruct (Z.ltb_spec (ce_receivedAt c) cutoff).
    + rewrite !option_guard_False by lia. reflexivity.
    + rewrite !option_guard_True by lia. reflexivity.
  - intros k e Hk. exact (map_Forall_lookup_1 _ _ _ _ Hwf Hk).
  - apply idbGetAll_chunks_In.
Qed.

(** [checkAndMarkSeen] allows a pair exactly when [hasSeen] reports it
    unseen; afterwards the pair is seen, the inbox and the other keys of the
    [seen] store are as before, a store of entries under their own keys stays
    so, and a second call rejects the pair without changing the store. *)
Theorem checkAndMarkSeen_hasSeen now msgId senderFp d :
  let '(allowed, d') := checkAndMarkSeen now msgId senderFp d in
  allowed = negb (hasSeen msgId senderFp d) /\
  hasSeen msgId senderFp d' = true /\
  db_inbox d' = db_inbox d /\
  (forall k, k <> makeSeenKey msgId senderFp -> db_seen d' !! k = db_seen d !! k) /\
  (seen_wf d -> seen_wf d') /\
  (forall now', checkAndMarkSeen now' msgId senderFp d' = (false, d')).
Proof.
  unfold checkAndMarkSeen, hasSeen, idbGet_seen.
  destruct (db_seen d !! makeSeenKey msgId senderFp) as [e|] eqn:He; cbn.
  - split_and!; try reflexivity; auto; intros; rewrite He; reflexivity.
  - split_and!.
    + reflexivity.
    + rewrite lookup_insert_eq. reflexivity.
    + reflexivity.
    + intros k Hk. apply lookup_insert_ne. congruence.
    + intros Hwf. apply map_Forall_insert_2; [reflexivity | exact Hwf].
    + intros now'. cbn. rewrite lookup_insert_eq. reflexivity.
Qed.

(** A pair recorded at [seenAt] is allowed again by [checkAndMarkSeen]
    after [cleanupSeen] exactly when [seenAt] is before the cutoff: replay
    protection lasts for the retention period only. *)
Theorem replay_after_cleanupSeen now maxAgeMs now' msgId senderFp d e :
  seen_wf d ->
  db_seen d !! makeSeenKey msgId senderFp = Some e ->
  let cutoff := now - match maxAgeMs with Some m => m | None => SEEN_RETENTION_MS end in
  fst (checkAndMarkSeen now' msgId senderFp (cleanupSeen now maxAgeMs d)) = (se_seenAt e <? cutoff).
Proof.
  intros Hwf He cutoff.
  unfold checkAndMarkSeen, idbGet_seen, cleanupSeen. fold cutoff. rewrite cleanupSeen_fold. cbn.
  rewrite (lookup_cleanup se_seenKey (fun e => se_seenAt e <? cutoff)).
  - rewrite map_lookup_filter, He. cbn.
    destruct (se_seenAt e <? cutoff); cbn;
      [rewrite option_guard_False by discriminate | rewrite option_guard_True by reflexivity];
      reflexivity.
  - intros k e' Hk. exact (map_Forall_lookup_1 _ _ _ _ Hwf Hk).
  - apply idbGetAll_seen_In.
Qed.

(** Two strings [m ++ ":" ++ s] split the same way when [m] has no colon. *)
Lemma split_at_colon (m1 m2 s1 s2 : string) :
  ~ In ":"%char (list_ascii_of_string m1) -> ~ In ":"%char (list_ascii_of_string m2) ->
  (m1 ++ ":" ++ s1)%string = (m2 ++ ":" ++ s2)%string -> m1 = m2 /\ s1 = s2.
Proof.
  revert m2. induction m1 as [|c1 m1 IH]; intros m2 H1 H2 Heq; destruct m2 as [|c2 m2]; cbn in *.
  - injection Heq as ->. split; reflexivity.
  - injection Heq as <- _. tauto.
  - injection Heq as -> _. tauto.
  - injection Heq as <- Heq. destruct (IH m2) as [-> ->]; auto.
Qed.

(** [makeSeenKey] is injective on message ids without a colon. *)
Theorem makeSeenKey_inj m1 f1 m2 f2 :
  ~ In ":"%char (list_ascii_of_string m1) -> ~ In ":"%char (list_ascii_of_string m2) ->
  makeSeenKey m1 f1 = makeSeenKey m2 f2 -> m1 = m2 /\ f1 = f2.
Proof. unfold makeSeenKey. apply split_at_colon. Qed.

(** The key [storeChunk] stores a chunk under determines its [msgId] and
    [seq] when message ids have no colon. *)
Theorem chunkKey_of_inj c1 c2 :
  ~ In ":"%char (list_ascii_of_string (ch_msgId c1)) ->
  ~ In ":"%char (list_ascii_of_string (ch_msgId c2)) ->
  chunkKey_of c1 = chunkKey_of c2 -> ch_msgId c1 = ch_msgId c2 /\ ch_seq c1 = ch_seq c2.
Proof.
  unfold chunkKey_of. intros H1 H2 Heq.
  destruct (split_at_colon _ _ _ _ H1 H2 Heq) as [-> Hp].
  split; [reflexivity|]. apply (inj pretty). exact Hp.
Qed.

(** The consecutive-sequence check of [reassembleChunks]. *)
Lemma forallb_combine_seq_map (l : list chunk) start :
  forallb (fun ic => ch_seq (snd ic) =? Z.of_nat (fst ic)) (combine (seq start (length l)) l) = true ->
  map ch_seq l = map Z.of_nat (seq start (length l)).
Proof.
  revert start. induction l as [|c l IH]; intros start H; cbn in *; [reflexivity|].
  apply andb_true_iff in H as [H1 H2]. apply Z.eqb_eq in H1. rewrite H1, (IH (S start) H2).
  reflexivity.
Qed.

(** When [reassembleChunks] succeeds, the list is non-empty, every chunk
    is a [dmesh-chunk], the sequence numbers are a permutation of
    [0 .. n-1] for [n] chunks, and some chunk has [seq = 0], [total = n] and
    the [msgId] all chunks share. *)
Lemma reassembleChunks_shape (p : Prims) (chunks : list chunk) (v : json) :
  reassembleChunks p chunks = Some v ->
  chunks <> [] /\
  Forall (fun c => ch_kind c = "dmesh-chunk"%string) chunks /\
  map ch_seq chunks ≡ₚ map Z.of_nat (seq 0 (length chunks)) /\
  exists c0, In c0 chunks /\ ch_seq c0 = 0 /\ ch_total c0 = Z.of_nat (length chunks) /\
    Forall (fun c => ch_msgId c = ch_msgId c0) chunks.
Proof.
  intros H. unfold reassembleChunks in H.
  destruct chunks as [|c cs] eqn:Hc; [discriminate|]. rewrite <- Hc in *.
  assert (Hne : chunks <> []) by (rewrite Hc; discriminate). clear c cs Hc.
  destruct (forallb _ chunks) eqn:Hk; cbn [negb] in H; [|discriminate].
  pose proof (sort_by_seq_perm chunks) as Hp.
  destruct (sort_by_seq chunks) as [|c0 rest] eqn:Hs.
  { apply Permutation_nil in Hp. congruence. }
  destruct (Z.of_nat (length (c0 :: rest)) =? ch_total c0) eqn:Ht; cbn [negb] in H; [|discriminate].
  destruct (forallb _ (combine _ _)) eqn:Hq; cbn [negb] in H; [|discriminate].
  destruct (forallb (fun c => String.eqb (ch_msgId c) (ch_msgId c0)) (c0 :: rest)) eqn:Hm;
    cbn [negb] in H; [|discriminate].
  apply forallb_combine_seq_map in Hq.
  pose proof (Permutation_length Hp) as Hlen.
  split_and!.
  - exact Hne.
  - apply List.Forall_forall. intros x Hx. apply forallb_forall with (x := x) in Hk; [|exact Hx].
    apply String.eqb_eq. exact Hk.
  - rewrite <- Hlen, <- Hq. apply Permutation_map. symmetry. exact Hp.
  - exists c0. split_and!.
    + apply (Permutation_in _ Hp). left. reflexivity.
    + cbn in Hq. injection Hq as H0 _. exact H0.
    + apply Z.eqb_eq in Ht. rewrite <- Hlen. lia.
    + apply List.Forall_forall. intros x Hx.
      apply (Permutation_in _ (Permutation_sym Hp)) in Hx.
      apply forallb_forall with (x := x) in Hm; [|exact Hx]. apply String.eqb_eq. exact Hm.
Qed.

Lemma forallb_map_ext {A B} (f : B -> bool) (g : A -> bool) (h : A -> B) l :
  (forall x, f (h x) = g x) -> forallb f (map h l) = forallb g l.
Proof. intros Hfg. induction l as [|x l IH]; cbn; [reflexivity|]. rewrite Hfg, IH. reflexivity. Qed.

Section ChunkMap.
Variable h : chunk -> chunk.
Hypothesis h_seq : forall c, ch_seq (h c) = ch_seq c.

Lemma insert_by_seq_map c l : insert_by_seq (h c) (map h l) = map h (insert_by_seq c l).
Proof.
  induction l as [|c' l IH]; cbn; [reflexivity|]. rewrite !h_seq.
  destruct (ch_seq c <? ch_seq c'); cbn; [reflexivity | rewrite IH; reflexivity].
Qed.

Lemma sort_by_seq_map l : sort_by_seq (map h l) = map h (sort_by_seq l).
Proof.
  unfold sort_by_seq.
  assert (H : forall acc, fold_left (fun acc c => insert_by_seq c acc) (map h l) (map h acc)
                = map h (fold_left (fun acc c => insert_by_seq c acc) l acc)).
  { induction l as [|c l IH]; intros acc; cbn; [reflexivity|].
    rewrite insert_by_seq_map. apply IH. }
  apply (H []).
Qed.

Lemma forallb_seq_combine_map l start :
  forallb (fun ic => ch_seq (snd ic) =? Z.of_nat (fst ic)) (combine (seq start (length (map h l))) (map h l))
  = forallb (fun ic => ch_seq (snd ic) =? Z.of_nat (fst ic)) (combine (seq start (length l)) l).
Proof.
  rewrite length_map. revert start.
  induction l as [|c l IH]; intros start; cbn; [reflexivity|]. rewrite h_seq, IH. reflexivity.
Qed.

Hypothesis h_kind : forall c, ch_kind (h c) = ch_kind c.
Hypothesis h_msgId : forall c, ch_msgId (h c) = ch_msgId c.
Hypothesis h_data : forall c, ch_data (h c) = ch_data c.
Hypothesis h_first : forall c, ch_seq c = 0 -> h c = c.

(** [reassembleChunks] reads [total] from the chunk with [seq = 0] only. *)
Lemma reassembleChunks_map (p : Prims) chunks v :
  reassembleChunks p chunks = Some v -> reassembleChunks p (map h chunks) = Some v.
Proof.
  intros H. unfold reassembleChunks in *.
  destruct chunks as [|c cs]; [discriminate|]. cbn [map]. rewrite <- (map_cons h c cs).
  revert H. generalize (c :: cs) as l. intros l H. clear c cs.
  erewrite forallb_map_ext by (intros x; rewrite h_kind; reflexivity).
  destruct (forallb _ l); cbn [negb] in *; [|discriminate].
  rewrite sort_by_seq_map.
  destruct (sort_by_seq l) as [|c0 rest]; cbn [map]; [discriminate|].
  destruct (forallb (fun ic => ch_seq (snd ic) =? Z.of_nat (fst ic)) (combine (seq 0 (length (c0 :: rest))) (c0 :: rest))) eqn:Hq;
    [|cbn [negb] in H; destruct (negb (_ =? _)); discriminate H].
  assert (H0 : h c0 = c0).
  { apply h_first. cbn in Hq. apply andb_true_iff in Hq as [Hq _]. apply Z.eqb_eq in Hq. exact Hq. }
  rewrite <- (map_cons h c0 rest).
  rewrite forallb_seq_combine_map, length_map, Hq, H0.
  erewrite forallb_map_ext by (intros x; rewrite h_msgId; reflexivity).
  (* the data *)
  assert (Hd : forall m, mapM (fun c => decodeBase64 p (ch_data c)) (map h m)
                      = mapM (fun c => decodeBase64 p (ch_data c)) m).
  { induction m as [|x m IH]; cbn; [reflexivity|]. rewrite h_data, IH. reflexivity. }
  rewrite Hd. exact H.
Qed.

End ChunkMap.

(** When [reassembleChunks] succeeds, the list is non-empty, every chunk
    is a [dmesh-chunk], the sequence numbers are a permutation of
    [0 .. n-1] for [n] chunks, and some chunk has [seq = 0], [total = n] and
    the [msgId] all chunks share; the [total] of the other chunks is not
    checked: replacing it by anything gives the same result. *)
Theorem reassembleChunks_sound (p : Prims) (chunks : list chunk) (v : json) :
  reassembleChunks p chunks = Some v ->
  chunks <> [] /\
  Forall (fun c => ch_kind c = "dmesh-chunk"%string) chunks /\
  map ch_seq chunks ≡ₚ map Z.of_nat (seq 0 (length chunks)) /\
  (exists c0, In c0 chunks /\ ch_seq c0 = 0 /\ ch_total c0 = Z.of_nat (length chunks) /\
    Forall (fun c => ch_msgId c = ch_msgId c0) chunks) /\
  (forall g : chunk -> Z,
     reassembleChunks p
       (map (fun c => if ch_seq c =? 0 then c else with_total c (g c)) chunks) = Some v).
Proof.
  intros H.
  destruct (reassembleChunks_shape p chunks v H) as (H1 & H2 & H3 & H4).
  split_and!; [exact H1 | exact H2 | exact H3 | exact H4 |].
  intros g. apply reassembleChunks_map; [| | | | |exact H];
    intros c; destruct (ch_seq c =? 0) eqn:Hc; try reflexivity.
  all: intros H0; rewrite H0 in Hc; discriminate Hc.
Qed.

(** Each chunk [chunkMessage] produces is a version-1 [dmesh-chunk] whose
    [seq] is its index and whose [total] is the number of chunks, and its data
    decodes to between 1 and [maxChunkSize - CHUNK_OVERHEAD] bytes. *)
Theorem chunkMessage_pieces (p : Prims) (HL : PrimsLaws p) (msgJson : json) (maxChunkSize : Z)
    (cs : list chunk) :
  chunkMessage p msgJson maxChunkSize = Some cs ->
  forall i c, nth_error cs i = Some c ->
    ch_v c = 1 /\ ch_kind c = "dmesh-chunk"%string /\
    ch_seq c = Z.of_nat i /\ ch_total c = Z.of_nat (length cs) /\
    exists b, decodeBase64 p (ch_data c) = Some b /\
      (1 <= length b)%nat /\ Z.of_nat (length b) <= maxChunkSize - CHUNK_OVERHEAD.
Proof.
  unfold chunkMessage.
  destruct (match json_ciphertext msgJson with Some s => decodeBase64 p s | None => None end)
    as [ct|]; [|discriminate].
  destruct (Z.leb_spec (maxChunkSize - CHUNK_OVERHEAD) 0) as [|Hds]; [discriminate|].
  set (msgBytes := decodeUTF8 p (json_stringify p msgJson)).
  set (ds := maxChunkSize - CHUNK_OVERHEAD) in *.
  set (len := Z.of_nat (length msgBytes)).
  set (T := Math_ceil_div len ds).
  intros Hcs i c Hi. injection Hcs as <-.
  rewrite length_map, length_seq.
  rewrite nth_error_map in Hi.
  destruct (nth_error (seq 0 (Z.to_nat T)) i) as [n|] eqn:Hn; [|discriminate].
  injection Hi as <-.
  assert (Hn' : (i < Z.to_nat T)%nat).
  { rewrite <- (length_seq (Z.to_nat T) 0). apply nth_error_Some. congruence. }
  rewrite (nth_error_nth' _ 0%nat) in Hn by (rewrite length_seq; exact Hn').
  rewrite seq_nth in Hn by exact Hn'. injection Hn as <-. rename Hn' into Hn.
  assert (HT : 0 <= T).
  { destruct (Math_ceil_div_bounds len ds Hds). unfold len in *. nia. }
  split_and!; try reflexivity.
  - rewrite Z2Nat.id by exact HT. reflexivity.
  - eexists. split; [apply (base64_roundtrip _ HL)|].
    rewrite js_slice_block by exact Hds. rewrite length_firstn, length_skipn.
    destruct (Math_ceil_div_bounds len ds Hds) as [Hlo _]. fold T in Hlo.
    assert (Hi' : Z.of_nat i <= T - 1) by lia.
    assert (Hlt : Z.of_nat i * ds < len) by nia.
    unfold len in Hlt.
    assert (Hm : (i * Z.to_nat ds < length msgBytes)%nat).
    { apply Nat2Z.inj_lt. rewrite Nat2Z.inj_mul, Z2Nat.id by lia. exact Hlt. }
    split; [lia|]. rewrite Nat2Z.inj_min, Z2Nat.id by lia. lia.
Qed.

(** A successful [decryptMessage] with a replay callback passed every
    check, and the callback allowed the pair and gave the final state. *)
Lemma decrypt_success_state (p : Prims) {S : Type} now E rpk rsk expS expB
    (f : string -> string -> S -> bool * S) strict st tr r st' tr' :
  decryptMessage p now E rpk rsk expS expB (Some f) strict st tr = (inr r, st', tr') ->
  exists rf, pre_ok p now E rpk expS expB strict rf /\ signature_ok p E rf = true /\
    dec_msgId r = encodeBase64 p (messageIdFromCiphertext p (rf_ciphertext rf)) /\
    dec_senderFp r = fingerprintFromSignPK p (rf_senderSignPK rf) /\
    dec_senderSignPK r = rf_senderSignPK rf /\
    f (dec_msgId r) (encodeBase64 p (dec_senderFp r)) st = (true, st').
Proof.
  intros Hrun.
  unfold decryptMessage in Hrun.
  cbv [bind check check_expected of_option ret throw emit call] in Hrun.
  repeat match type of Hrun with
  | context [f ?a ?b ?s0] =>
      let E := fresh "E" in destruct (f a b s0) as [? ?] eqn:E
  | context [if ?c then _ else _] => let E := fresh "E" in destruct c eqn:E
  | context [match ?o with Some _ => _ | None => _ end] =>
      let E := fresh "E" in destruct o eqn:E
  end.
  all: try discriminate Hrun.
  all: injection Hrun as <- <- <-; eexists; split_and!;
      [ unfold pre_ok, format_ok, lengths_ok, msgId_ok, recipient_ok, expected_ok;
        split_and!; try eassumption;
        repeat match goal with
        | H : ?x = Some _ |- context [?x] => rewrite H
        | H : ?x = None |- context [?x] => rewrite H end;
        repeat (apply andb_true_intro; split); try assumption; reflexivity
      | unfold signature_ok; assumption
      | reflexivity | reflexivity | reflexivity
      | cbn; assumption ].
Qed.

(** A successful [decryptMessage] passed every check; its sender fields
    and message id are the decoded ones. *)
Lemma decrypt_success_fields (p : Prims) {S : Type} now E rpk rsk expS expB
    (rc : option (string -> string -> S -> bool * S)) strict st tr r st' tr' :
  decryptMessage p now E rpk rsk expS expB rc strict st tr = (inr r, st', tr') ->
  exists rf, pre_ok p now E rpk expS expB strict rf /\ signature_ok p E rf = true /\
    dec_msgId r = encodeBase64 p (messageIdFromCiphertext p (rf_ciphertext rf)) /\
    dec_senderFp r = fingerprintFromSignPK p (rf_senderSignPK rf) /\
    dec_senderSignPK r = rf_senderSignPK rf /\ dec_senderBoxPK r = rf_senderBoxPK rf.
Proof.
  intros Hrun. destruct rc as [f|].
  - destruct (decrypt_success_state p now E rpk rsk expS expB f strict st tr r st' tr' Hrun)
      as (rf & Hpre & Hs & Hm & Hfp & Hspk & _).
    exists rf. split_and!; try assumption.
    unfold decryptMessage in Hrun.
    cbv [bind check check_expected of_option ret throw emit call] in Hrun.
    destruct Hpre as (_ & Hd & _). rewrite Hd in Hrun.
    repeat match type of Hrun with
    | context [f ?a ?b ?s0] =>
        let E := fresh "E" in destruct (f a b s0) as [? ?] eqn:E
    | context [if ?c then _ else _] => let E := fresh "E" in destruct c eqn:E
    | context [match ?o with Some _ => _ | None => _ end] =>
        let E := fresh "E" in destruct o eqn:E
    end.
    all: try discriminate Hrun.
    all: injection Hrun as <- _ _; reflexivity.
  - unfold decryptMessage in Hrun.
    cbv [bind check check_expected of_option ret throw emit call] in Hrun.
    repeat match type of Hrun with
    | context [if ?c then _ else _] => let E := fresh "E" in destruct c eqn:E
    | context [match ?o with Some _ => _ | None => _ end] =>
        let E := fresh "E" in destruct o eqn:E
    end.
    all: try discriminate Hrun.
    all: injection Hrun as <- <- <-; eexists; split_and!;
      [ unfold pre_ok, format_ok, lengths_ok, msgId_ok, recipient_ok, expected_ok;
        split_and!; try eassumption;
        repeat match goal with
        | H : ?x = Some _ |- context [?x] => rewrite H
        | H : ?x = None |- context [?x] => rewrite H end;
        repeat (apply andb_true_intro; split); try assumption; reflexivity
      | unfold signature_ok; assumption
      | reflexivity | reflexivity | reflexivity | reflexivity ].
Qed.

(** [env_set_exp E (env_exp E)] is [E]. *)
Lemma env_set_exp_same E : env_set_exp E (env_exp E) = E.
Proof. destruct E; reflexivity. Qed.

(** Two runs of [decryptMessage] on envelopes that differ at most in
    [exp], at times where the validity window gives the same answer, with
    callbacks that answer alike, have the same outcome and operations. *)
Lemma decrypt_congr (p : Prims) {S1 S2 : Type} now1 now2 E x rpk rsk expS expB
    (f : string -> string -> S1 -> bool * S1) (g : string -> string -> S2 -> bool * S2)
    strict s1 s2 tr :
  isMessageValid now1 strict E = isMessageValid now2 strict (env_set_exp E x) ->
  (forall a b, fst (f a b s1) = fst (g a b s2)) ->
  fst (fst (decryptMessage p now1 E rpk rsk expS expB (Some f) strict s1 tr)) =
  fst (fst (decryptMessage p now2 (env_set_exp E x) rpk rsk expS expB (Some g) strict s2 tr)) /\
  snd (decryptMessage p now1 E rpk rsk expS expB (Some f) strict s1 tr) =
  snd (decryptMessage p now2 (env_set_exp E x) rpk rsk expS expB (Some g) strict s2 tr).
Proof.
  intros Hv Hfg.
  unfold decryptMessage. rewrite <- Hv.
  assert (Hd : decode_fields p (env_set_exp E x) = decode_fields p E) by reflexivity.
  rewrite Hd. cbn [env_set_exp env_v env_kind env_msgId env_ts env_senderSignPK
                   env_senderBoxPK env_recipientBoxPK].
  cbv [bind check check_expected of_option ret throw emit call].
  repeat match goal with
  | |- context [f ?a ?b s1] =>
      let E1 := fresh "E" in let E2 := fresh "E" in
      pose proof (Hfg a b) as Hab;
      destruct (f a b s1) as [r1 t1] eqn:E1; destruct (g a b s2) as [r2 t2] eqn:E2;
      cbn in Hab; subst r2
  | |- context [if ?c then _ else _] => let Ec := fresh "E" in destruct c eqn:Ec
  | |- context [match ?o with Some _ => _ | None => _ end] =>
      let Eo := fresh "E" in destruct o eqn:Eo
  end; split; reflexivity.
Qed.

(** [exp] is not among the signed bytes: changing it changes the run of
    [decryptMessage] only through the validity window. *)
Lemma decrypt_set_exp (p : Prims) {S : Type} now now' E x rpk rsk expS expB
    (rc : option (string -> string -> S -> bool * S)) strict st tr :
  isMessageValid now strict (env_set_exp E x) = isMessageValid now' strict E ->
  decryptMessage p now (env_set_exp E x) rpk rsk expS expB rc strict st tr =
  decryptMessage p now' E rpk rsk expS expB rc strict st tr.
Proof.
  intros Hv. unfold decryptMessage. rewrite Hv.
  assert (Hd : decode_fields p (env_set_exp E x) = decode_fields p E) by reflexivity.
  rewrite Hd. reflexivity.
Qed.


(** The [exp] field is not signed: an envelope whose [exp] is raised
    decrypts, at any time where the new window accepts it, exactly as the
    original envelope at a time where its own window does. *)
Theorem decryptMessage_exp_unsigned (p : Prims) {S : Type} now now' E x rpk rsk expS expB
    (rc : option (string -> string -> S -> bool * S)) strict st tr :
  isMessageValid now strict (env_set_exp E x) = isMessageValid now' strict E ->
  decryptMessage p now (env_set_exp E x) rpk rsk expS expB rc strict st tr =
  decryptMessage p now' E rpk rsk expS expB rc strict st tr.
Proof. apply decrypt_set_exp. Qed.

(** A message decrypted with an expected sender signing key comes from
    that key, and its sender fingerprint is the [fp] of the public identity
    [createPublicIdentity] makes from that key. *)
Theorem decryptMessage_expected_sender (p : Prims) (HL : PrimsLaws p) {S : Type} now E rpk rsk
    spk expB (rc : option (string -> string -> S -> bool * S)) strict st tr r st' tr'
    (name : option string) (bpk : bytes) :
  decryptMessage p now E rpk rsk (Some spk) expB rc strict st tr = (inr r, st', tr') ->
  dec_senderSignPK r = spk /\
  encodeBase64 p (dec_senderFp r) = pi_fp (createPublicIdentity p name spk bpk).
Proof.
  intros Hrun.
  destruct (decrypt_success_fields p now E rpk rsk _ expB rc strict st tr r st' tr' Hrun)
    as (rf & (_ & Hd & _ & _ & _ & _ & HeS & _) & _ & _ & Hfp & Hspk & _).
  cbn in HeS. apply String.eqb_eq in HeS.
  unfold decode_fields in Hd. rewrite <- HeS, (base64_roundtrip _ HL) in Hd.
  repeat match type of Hd with
  | context [match ?o with Some _ => _ | None => _ end] =>
      let E := fresh "E" in destruct o eqn:E; [|discriminate Hd] end.
  injection Hd as <-. cbn in Hspk, Hfp.
  split; [exact Hspk|]. rewrite Hfp. reflexivity.
Qed.

(** A message encrypted without an explicit timestamp carries [ts = now]
    and [exp = calculateExpiration(now, ttlMs)]; at its creation time it is
    valid in strict mode, and valid in normal mode exactly when the TTL is
    non-negative. *)
Theorem encryptMessage_fresh_valid (p : Prims) now content spk ssk sbpk rpk ttlMs type extra
    eph_sk nonce E :
  encryptMessage p now content spk ssk sbpk rpk None ttlMs type extra eph_sk nonce = inr E ->
  env_ts E = now /\ env_exp E = Some (calculateExpiration now ttlMs) /\
  isMessageValid now true E = true /\
  (isMessageValid now false E = true <->
     0 <= match ttlMs with Some t => t | None => DEFAULT_TTL_MS end).
Proof.
  unfold encryptMessage. destruct (MAX_BYTES <? _); [discriminate|].
  intros H. injection H as <-. cbn.
  unfold calculateExpiration. split_and!; try reflexivity.
  - apply Z.leb_le. rewrite Z.sub_diag. unfold MAX_SKEW_MS. lia.
  - rewrite Z.leb_le. lia.
Qed.

(** [idbGetByIndex(STORE_CHUNKS, "msgId", m)] lists exactly the stored
    entries of message [m]. *)
Lemma idbGetByIndex_chunks_In msgId st e :
  In e (idbGetByIndex_chunks msgId st) <-> exists k, st !! k = Some e /\ ce_msgId e = msgId.
Proof.
  unfold idbGetByIndex_chunks. rewrite in_map_iff. split.
  - intros ([k e'] & <- & Hin).
    apply (Permutation_in _ (merge_sort_Permutation key_order _)) in Hin.
    apply list_elem_of_In, elem_of_map_to_list, map_lookup_filter_Some in Hin as [Hk He].
    exists k. split; [exact Hk | exact He].
  - intros (k & Hk & He). exists (k, e). split; [reflexivity|].
    apply (Permutation_in _ (Permutation_sym (merge_sort_Permutation key_order _))).
    apply list_elem_of_In, elem_of_map_to_list, map_lookup_filter_Some. split; assumption.
Qed.

(** Deleting the keys of a list of entries. *)
Lemma lookup_fold_delete_keys (L : list chunk_entry) (m : chunk_store) i :
  fold_left (fun s e => delete (ce_chunkKey e) s) L m !! i =
  if existsb (fun e => String.eqb (ce_chunkKey e) i) L then None else m !! i.
Proof.
  revert m. induction L as [|x L IH]; intros m; cbn [fold_left existsb]; [reflexivity|].
  rewrite IH. destruct (existsb _ L); [rewrite orb_true_r; reflexivity|].
  rewrite orb_false_r. destruct (String.eqb_spec (ce_chunkKey x) i) as [<-|Hne].
  - apply lookup_delete_eq.
  - apply lookup_delete_ne. exact Hne.
Qed.

(** [storeChunk] keeps entries under their own keys and leaves the entries
    of other messages alone; when it returns [null] the new chunk is pending,
    and when it returns the set no chunk of the message is left pending. *)
Theorem storeChunk_store (now : Z) (c : chunk) (st st' : chunk_store) res :
  chunk_store_wf st -> storeChunk now c st = (res, st') ->
  chunk_store_wf st' /\
  (forall k e, k <> chunkKey_of c -> st !! k = Some e -> ce_msgId e <> ch_msgId c ->
     st' !! k = Some e) /\
  (res = None -> In (entry_of_chunk now c) (getPendingChunks (ch_msgId c) st')) /\
  (res <> None -> getPendingChunks (ch_msgId c) st' = []).
Proof.
  intros Hwf Hsc. unfold storeChunk, getPendingChunks in *.
  set (st1 := <[chunkKey_of c := entry_of_chunk now c]> st).
  assert (Hwf1 : chunk_store_wf st1) by (apply map_Forall_insert_2; [reflexivity | exact Hwf]).
  set (L := idbGetByIndex_chunks (ch_msgId c) st1).
  fold st1 in Hsc. fold L in Hsc.
  destruct (Z.of_nat (length L) =? ch_total c); injection Hsc as <- <-.
  - set (st2 := fold_left (fun s e => delete (ce_chunkKey e) s) L st1).
    assert (Hst2 : forall i e, st2 !! i = Some e -> st1 !! i = Some e /\ existsb (fun e => String.eqb (ce_chunkKey e) i) L = false).
    { intros i e Hi. unfold st2 in Hi. rewrite lookup_fold_delete_keys in Hi.
      destruct (existsb _ L); [discriminate | split; [exact Hi | reflexivity]]. }
    assert (Hnot : forall i e, st1 !! i = Some e -> ce_msgId e = ch_msgId c ->
                     existsb (fun e => String.eqb (ce_chunkKey e) i) L = true).
    { intros i e Hi Hm. apply existsb_exists. exists e. split.
      - apply idbGetByIndex_chunks_In. exists i. split; assumption.
      - apply String.eqb_eq. exact (map_Forall_lookup_1 _ _ _ _ Hwf1 Hi). }
    split_and!.
    + intros i e Hi. apply Hst2 in Hi as [Hi _]. exact (map_Forall_lookup_1 _ _ _ _ Hwf1 Hi).
    + intros k e Hk He Hm. unfold st2. rewrite lookup_fold_delete_keys.
      assert (He1 : st1 !! k = Some e) by (unfold st1; rewrite lookup_insert_ne by congruence; exact He).
      destruct (existsb _ L) eqn:Hex; [|exact He1].
      exfalso. apply existsb_exists in Hex as (e' & Hin & Hk').
      apply String.eqb_eq in Hk'.
      apply idbGetByIndex_chunks_In in Hin as (k' & Hk'' & Hm').
      pose proof (map_Forall_lookup_1 _ _ _ _ Hwf1 Hk'') as Hkk. cbn in Hkk.
      rewrite Hk' in Hkk. subst k'. rewrite He1 in Hk''. injection Hk'' as <-. congruence.
    + discriminate.
    + intros _. destruct (idbGetByIndex_chunks (ch_msgId c) st2) as [|e rest] eqn:Hg;
        [reflexivity|].
      exfalso. assert (Hin : In e (idbGetByIndex_chunks (ch_msgId c) st2)) by (rewrite Hg; left; reflexivity).
      apply idbGetByIndex_chunks_In in Hin as (k & Hk & Hm).
      apply Hst2 in Hk as [Hk1 Hex]. rewrite (Hnot k e Hk1 Hm) in Hex. discriminate.
  - split_and!.
    + exact Hwf1.
    + intros k e Hk He _. unfold st1. rewrite lookup_insert_ne by congruence. exact He.
    + intros _. apply idbGetByIndex_chunks_In. exists (chunkKey_of c). split; [|reflexivity].
      unfold st1. apply lookup_insert_eq.
    + intros H. congruence.
Qed.


(** In strict mode [isMessageValid] checks the clock skew only, so the
    outcome of [decryptMessage] in strict mode does not depend on [exp]; an
    envelope whose [exp] has passed but whose [ts] is within [MAX_SKEW_MS]
    of [now] is rejected in normal mode and accepted in strict mode. *)
Theorem isMessageValid_strict_ignores_exp (p : Prims) {S : Type} now E :
  isMessageValid now true E = (Z.abs (now - env_ts E) <=? MAX_SKEW_MS) /\
  (forall x rpk rsk expS expB (rc : option (string -> string -> S -> bool * S)) st tr,
     decryptMessage p now (env_set_exp E x) rpk rsk expS expB rc true st tr =
     decryptMessage p now E rpk rsk expS expB rc true st tr) /\
  (forall e, env_exp E = Some e -> e < now -> Z.abs (now - env_ts E) <= MAX_SKEW_MS ->
     isMessageValid now false E = false /\ isMessageValid now true E = true).
Proof.
  split_and!.
  - reflexivity.
  - intros x rpk rsk expS expB rc st tr. apply decrypt_set_exp. reflexivity.
  - intros e He Hlt Hs. unfold isMessageValid. rewrite He.
    split; [apply Z.leb_gt | apply Z.leb_le]; lia.
Qed.

(* ------------------------------------------------------------------------- *)
(** ** Instances of the further properties *)


Lemma generateSafetyNumber_first4_witness :
  generateSafetyNumber [x01; x02; x03; x04; x05] [x09]
  = generateSafetyNumber [x01; x02; x03; x04; x07] [x09].
Proof. apply generateSafetyNumber_first4; reflexivity. Defined.

Lemma makeSeenKey_inj_witness : "msg"%string = "msg"%string /\ "fp"%string = "fp"%string.
Proof.
  apply (makeSeenKey_inj "msg" "fp" "msg" "fp");
    [vm_compute; intuition discriminate | vm_compute; intuition discriminate | reflexivity].
Defined.

Lemma chunkKey_of_inj_witness :
  ch_msgId (ChunkExamples.mk_chunk 3 5) = ch_msgId (ChunkExamples.mk_chunk 3 5) /\
  ch_seq (ChunkExamples.mk_chunk 3 5) = ch_seq (ChunkExamples.mk_chunk 3 5).
Proof.
  apply chunkKey_of_inj;
    [vm_compute; intuition discriminate | vm_compute; intuition discriminate | reflexivity].
Defined.

Lemma seen_db_wf : seen_wf ExtraExamples.seen_db.
Proof. unfold seen_wf. apply map_Forall_insert_2; [reflexivity | apply map_Forall_empty]. Qed.

Lemma chunk_st_wf : chunk_store_wf ExtraExamples.chunk_st.
Proof. unfold chunk_store_wf. apply map_Forall_insert_2; [reflexivity | apply map_Forall_empty]. Qed.

Lemma cleanupSeen_filter_witness :
  let cutoff := 100 - 50 in
  db_seen (cleanupSeen 100 (Some 50) ExtraExamples.seen_db)
    = filter (fun kv => cutoff <= se_seenAt kv.2) (db_seen ExtraExamples.seen_db) /\
  db_inbox (cleanupSeen 100 (Some 50) ExtraExamples.seen_db) = db_inbox ExtraExamples.seen_db.
Proof. apply (cleanupSeen_filter 100 (Some 50) ExtraExamples.seen_db seen_db_wf). Defined.

Lemma replay_after_cleanupSeen_witness :
  fst (checkAndMarkSeen 200 "m" "f" (cleanupSeen 100 (Some 50) ExtraExamples.seen_db))
  = (10 <? 100 - 50).
Proof.
  apply (replay_after_cleanupSeen 100 (Some 50) 200 "m" "f" ExtraExamples.seen_db
           ExtraExamples.seen_e seen_db_wf).
  reflexivity.
Defined.

Lemma cleanupOldChunks_filter_witness :
  let cutoff := 100 - 50 in
  cleanupOldChunks 100 (Some 50) ExtraExamples.chunk_st
    = filter (fun kv => cutoff <= ce_receivedAt kv.2) ExtraExamples.chunk_st.
Proof. apply (cleanupOldChunks_filter 100 (Some 50) ExtraExamples.chunk_st chunk_st_wf). Defined.

Lemma reassembleChunks_sound_witness :
  ExtraExamples.toy_chunks <> [] /\
  Forall (fun c => ch_kind c = "dmesh-chunk"%string) ExtraExamples.toy_chunks /\
  map ch_seq ExtraExamples.toy_chunks
    ≡ₚ map Z.of_nat (seq 0 (length ExtraExamples.toy_chunks)) /\
  (exists c0, In c0 ExtraExamples.toy_chunks /\ ch_seq c0 = 0 /\
    ch_total c0 = Z.of_nat (length ExtraExamples.toy_chunks) /\
    Forall (fun c => ch_msgId c = ch_msgId c0) ExtraExamples.toy_chunks) /\
  (forall g : chunk -> Z,
     reassembleChunks Toy.prims
       (map (fun c => if ch_seq c =? 0 then c else with_total c (g c)) ExtraExamples.toy_chunks)
     = Some (envelope_json Examples.toy_env)).
Proof.
  apply (reassembleChunks_sound Toy.prims ExtraExamples.toy_chunks
           (envelope_json Examples.toy_env)).
  vm_compute. reflexivity.
Defined.

Lemma chunkMessage_pieces_witness :
  let c := nth 18 ExtraExamples.toy_chunks (ChunkExamples.mk_chunk 0 0) in
  ch_v c = 1 /\ ch_kind c = "dmesh-chunk"%string /\
  ch_seq c = Z.of_nat 18 /\ ch_total c = Z.of_nat (length ExtraExamples.toy_chunks) /\
  exists b, decodeBase64 Toy.prims (ch_data c) = Some b /\
    (1 <= length b)%nat /\ Z.of_nat (length b) <= 200 - CHUNK_OVERHEAD.
Proof.
  apply (chunkMessage_pieces Toy.prims ToyLaws.prims_lawful (envelope_json Examples.toy_env) 200
           ExtraExamples.toy_chunks); vm_compute; reflexivity.
Defined.

Lemma decryptMessage_expected_sender_witness :
  exists r (st' : unit) tr',
    decryptMessage Toy.prims 5000 Examples.toy_env (box_pk_of_sk Toy.prims [x03]) [x03]
      (Some (sign_pk_of_sk Toy.prims [x01])) None None false tt [] = (inr r, st', tr') /\
    dec_senderSignPK r = sign_pk_of_sk Toy.prims [x01] /\
    encodeBase64 Toy.prims (dec_senderFp r)
      = pi_fp (createPublicIdentity Toy.prims (Some "alice"%string)
                 (sign_pk_of_sk Toy.prims [x01]) (box_pk_of_sk Toy.prims [x02])).
Proof.
  destruct (decryptMessage Toy.prims 5000 Examples.toy_env (box_pk_of_sk Toy.prims [x03]) [x03]
              (Some (sign_pk_of_sk Toy.prims [x01])) None
              (None : option (string -> string -> unit -> bool * unit)) false tt [])
    as [[[e|r] st'] tr'] eqn:Hrun.
  - vm_compute in Hrun. discriminate Hrun.
  - exists r, st', tr'. split; [reflexivity|].
    exact (decryptMessage_expected_sender Toy.prims ToyLaws.prims_lawful 5000 Examples.toy_env
             (box_pk_of_sk Toy.prims [x03]) [x03] (sign_pk_of_sk Toy.prims [x01]) None None
             false tt [] r st' tr' (Some "alice"%string) (box_pk_of_sk Toy.prims [x02]) Hrun).
Defined.

Lemma encryptMessage_fresh_valid_witness :
  (exists E,
     encryptMessage Toy.prims 7000 "Hi" (sign_pk_of_sk Toy.prims [x01]) [x01]
       (box_pk_of_sk Toy.prims [x02]) (box_pk_of_sk Toy.prims [x03]) None None None []
       [x04] (repeat x00 24) = inr E /\
     env_ts E = 7000 /\ env_exp E = Some (calculateExpiration 7000 None) /\
     isMessageValid 7000 true E = true /\
     (isMessageValid 7000 false E = true <-> 0 <= DEFAULT_TTL_MS)) /\
  (exists E,
     encryptMessage Toy.prims 7000 "Hi" (sign_pk_of_sk Toy.prims [x01]) [x01]
       (box_pk_of_sk Toy.prims [x02]) (box_pk_of_sk Toy.prims [x03]) None (Some (-1)) None []
       [x04] (repeat x00 24) = inr E /\
     env_ts E = 7000 /\ env_exp E = Some (calculateExpiration 7000 (Some (-1))) /\
     isMessageValid 7000 true E = true /\
     (isMessageValid 7000 false E = true <-> 0 <= -1)).
Proof.
  split.
  - destruct (encryptMessage Toy.prims 7000 "Hi" (sign_pk_of_sk Toy.prims [x01]) [x01]
                (box_pk_of_sk Toy.prims [x02]) (box_pk_of_sk Toy.prims [x03]) None None None []
                [x04] (repeat x00 24)) as [err|E] eqn:Henc.
    + vm_compute in Henc. discriminate Henc.
    + exists E. split; [reflexivity|].
      exact (encryptMessage_fresh_valid Toy.prims 7000 "Hi" (sign_pk_of_sk Toy.prims [x01]) [x01]
               (box_pk_of_sk Toy.prims [x02]) (box_pk_of_sk Toy.prims [x03]) None None []
               [x04] (repeat x00 24) E Henc).
  - destruct (encryptMessage Toy.prims 7000 "Hi" (sign_pk_of_sk Toy.prims [x01]) [x01]
                (box_pk_of_sk Toy.prims [x02]) (box_pk_of_sk Toy.prims [x03]) None (Some (-1))
                None [] [x04] (repeat x00 24)) as [err|E] eqn:Henc.
    + vm_compute in Henc. discriminate Henc.
    + exists E. split; [reflexivity|].
      exact (encryptMessage_fresh_valid Toy.prims 7000 "Hi" (sign_pk_of_sk Toy.prims [x01]) [x01]
               (box_pk_of_sk Toy.prims [x02]) (box_pk_of_sk Toy.prims [x03]) (Some (-1)) None []
               [x04] (repeat x00 24) E Henc).
Defined.

Lemma storeChunk_store_witness :
  let c := ChunkExamples.mk_chunk 1 2 in
  let st' := snd (storeChunk 20 c ExtraExamples.chunk_st) in
  let res := fst (storeChunk 20 c ExtraExamples.chunk_st) in
  chunk_store_wf st' /\
  (forall k e, k <> chunkKey_of c -> ExtraExamples.chunk_st !! k = Some e ->
     ce_msgId e <> ch_msgId c -> st' !! k = Some e) /\
  (res = None -> In (entry_of_chunk 20 c) (getPendingChunks (ch_msgId c) st')) /\
  (res <> None -> getPendingChunks (ch_msgId c) st' = []).
Proof.
  apply (storeChunk_store 20 (ChunkExamples.mk_chunk 1 2) ExtraExamples.chunk_st
           (snd (storeChunk 20 (ChunkExamples.mk_chunk 1 2) ExtraExamples.chunk_st))
           (fst (storeChunk 20 (ChunkExamples.mk_chunk 1 2) ExtraExamples.chunk_st))
           chunk_st_wf).
  reflexivity.
Defined.

Lemma isMessageValid_strict_ignores_exp_witness :
  isMessageValid 2000 false ExtraExamples.short_env = false /\
  isMessageValid 2000 true ExtraExamples.short_env = true.
Proof.
  apply (proj2 (proj2 (isMessageValid_strict_ignores_exp Toy.prims (S := unit) 2000
                         ExtraExamples.short_env)) 1500);
    [reflexivity | lia | vm_compute; discriminate].
Defined.


(** The theorem on [Examples.toy_env] with [exp] raised, read after its own
    expiration: it decrypts as the original does within its window, while
    the original is expired by then. *)
Lemma decryptMessage_exp_unsigned_witness :
  decryptMessage Toy.prims (2 * DEFAULT_TTL_MS)
    (env_set_exp Examples.toy_env (Some (3 * DEFAULT_TTL_MS)))
    (box_pk_of_sk Toy.prims [x03]) [x03] None None
    (None : option (string -> string -> unit -> bool * unit)) false tt [] =
  decryptMessage Toy.prims 5000 Examples.toy_env (box_pk_of_sk Toy.prims [x03]) [x03] None None
    (None : option (string -> string -> unit -> bool * unit)) false tt [] /\
  (exists r, decryptMessage Toy.prims 5000 Examples.toy_env (box_pk_of_sk Toy.prims [x03]) [x03]
               None None (None : option (string -> string -> unit -> bool * unit)) false tt []
             = (inr r, tt, [OpVerify; OpBoxOpen])) /\
  decryptMessage Toy.prims (2 * DEFAULT_TTL_MS) Examples.toy_env (box_pk_of_sk Toy.prims [x03])
    [x03] None None (None : option (string -> string -> unit -> bool * unit)) false tt []
  = (inl MessageExpired, tt, []).
Proof.
  split_and!.
  - apply decryptMessage_exp_unsigned. vm_compute. reflexivity.
  - eexists. vm_compute. reflexivity.
  - vm_compute. reflexivity.
Defined.

